(** * any-sync-node: a shallow embedding of the convergence engine

    The development follows the Go sources:
    - [Go]          the few Go primitives the code relies on (fixed-width
                    integers, [make]/[copy] on slices, FNV-1 hashing);
    - [ACL]         common/pkg/acl/list/aclstate.go;
    - [HotSync]     nodesync/hotsync (hotSync.checkCache and friends);
    - [PeerManager] nodespace/peermanager/manager.go;
    - [DocTree]     pkg/acl/tree/doctree.go;
    - [TreeBuilder] data/acltreebuilder.go;
    - [NodeSpace]   nodespace/service.go (GetStats).

    Maps are stdpp [gmap]s, Go sets ([map[string]struct{}]) are [gset]s,
    byte slices used as map keys are [string]s (a Go string is a byte
    sequence, as is a Rocq [string]). *)

From Stdlib Require Import ZArith Ascii String.
From stdpp Require Import gmap strings list fin_maps fin_sets pretty lexico sorting.

Local Open Scope Z_scope.
Local Open Scope string_scope.

(* [set_solver] clears hypotheses by name and warns when one is gone. *)
Set Warnings "-clear-no-such-hyp".

(* ===================================================================== *)
(** * Go primitives *)
(* ===================================================================== *)

Module Go.

(** [uint64], [uint32] and (64-bit) [int] arithmetic wraps around. *)
Definition wrap_uint64 (z : Z) : Z := z mod 2 ^ 64.
Definition wrap_uint32 (z : Z) : Z := z mod 2 ^ 32.
Definition wrap_int (z : Z) : Z := (z + 2 ^ 63) mod 2 ^ 64 - 2 ^ 63.

(** [x++] on an [int]. *)
Definition int_incr (x : Z) : Z := wrap_int (x + 1).

(** [atomic.Uint32.Add(1)]. *)
Definition uint32_add1 (x : Z) : Z := wrap_uint32 (x + 1).

(** [make([]T, n, cap)]: a slice of length [n] holding zero values; the
    capacity does not show in the contents. *)
Definition make {A} (zero : A) (n : nat) (cap : nat) : list A := replicate n zero.

(** [copy(dst, src)] copies [min(len(dst), len(src))] elements into the
    front of [dst]; the length of [dst] never changes. *)
Definition copy {A} (dst src : list A) : list A :=
  take (length dst `min` length src) src ++ drop (length dst `min` length src) dst.

(** [hash/fnv]: [fnv.New64()] is 64-bit FNV-1 (multiply, then xor). *)
Definition fnv_offset64 : Z := 14695981039346656037.
Definition fnv_prime64 : Z := 1099511628211.

Definition fnv64_step (h : Z) (b : ascii) : Z :=
  Z.lxor (wrap_uint64 (h * fnv_prime64)) (Z.of_N (N_of_ascii b)).

Fixpoint fnv64_from (h : Z) (s : string) : Z :=
  match s with
  | EmptyString => h
  | String b s' => fnv64_from (fnv64_step h b) s'
  end.

Definition fnv64 (s : string) : Z := fnv64_from fnv_offset64 s.

Lemma wrap_int_small z : - 2 ^ 63 <= z < 2 ^ 63 -> wrap_int z = z.
Proof.
  intros Hz. unfold wrap_int.
  rewrite Z.mod_small by lia. lia.
Qed.

Lemma int_incr_small x : 0 <= x < 2 ^ 63 - 1 -> int_incr x = x + 1.
Proof. intros Hx. unfold int_incr. apply wrap_int_small. lia. Qed.

Lemma copy_length {A} (dst src : list A) : length (copy dst src) = length dst.
Proof.
  unfold copy. rewrite length_app, length_take, length_drop. lia.
Qed.

Lemma copy_nil_dst {A} (src : list A) : copy [] src = [].
Proof. by destruct src. Qed.

(** Two entries of the golden table of [hash/fnv] for [New64]. *)
Example fnv64_golden :
  fnv64 "a" = 0xaf63bd4c8601b7be /\ fnv64 "abc" = 0xd8dcca186bafadcb.
Proof. split; vm_compute; reflexivity. Qed.

End Go.

(* ===================================================================== *)
(** * ACLState (common/pkg/acl/list/aclstate.go) *)
(* ===================================================================== *)

Module ACL.

(** ** Wire types

    The generated package [aclrecordproto] and the [ACLRecord] struct are
    declared in other files; their shapes are read off the field accesses
    of aclstate.go. *)

(** Modelled from the spec: the permission enum of [aclrecordproto], which
    the data model gives as Admin, Writer, Reader, Revoked. *)
Inductive ACLUserPermissions := Admin | Writer | Reader | Revoked.

#[global] Instance ACLUserPermissions_eq_dec : EqDecision ACLUserPermissions.
Proof. solve_decision. Defined.

Record ACLUserState := mkUserState {
  usIdentity : string;
  usEncryptionKey : string;
  usPermissions : ACLUserPermissions
}.

Record ACLUserInvite := mkUserInvite {
  inAcceptPublicKey : string;
  inEncryptedReadKeys : list string;
  inPermissions : ACLUserPermissions
}.

Record ACLUserJoin := mkUserJoin {
  ujIdentity : string;
  ujEncryptionKey : string;
  ujAcceptSignature : string;
  ujAcceptPubKey : string;
  ujEncryptedReadKeys : list string
}.

Record ACLUserAdd := mkUserAdd {
  uaIdentity : string;
  uaEncryptionKey : string;
  uaEncryptedReadKeys : list string;
  uaPermissions : ACLUserPermissions
}.

Record ACLReadKeyReplace := mkReadKeyReplace {
  rkIdentity : string;
  rkEncryptionKey : string;
  rkEncryptedReadKey : string
}.

Record ACLUserRemove := mkUserRemove {
  urIdentity : string;
  urReadKeyReplaces : list ACLReadKeyReplace
}.

Record ACLUserPermissionChange := mkPermissionChange {
  pcIdentity : string;
  pcPermissions : ACLUserPermissions
}.

(** The [oneof] of [ACLContentValue]: at most one getter is non-nil. *)
Inductive ACLContentValue :=
| UserPermissionChange (ch : ACLUserPermissionChange)
| UserAdd (ch : ACLUserAdd)
| UserRemove (ch : ACLUserRemove)
| UserInvite (ch : ACLUserInvite)
| UserJoin (ch : ACLUserJoin)
| ContentNotSet.

(** [AclContent] is a slice; [[]] stands for the nil slice that protobuf
    decoding yields for an absent repeated field. *)
Record ACLData := mkData { AclContent : list ACLContentValue }.

Record ACLRoot := mkRoot {
  rootIdentity : string;
  rootEncryptionKey : string;
  rootEncryptedReadKey : string;
  rootDerivationScheme : string;
  rootCurrentReadKeyHash : Z
}.

(** [record.Model] is an [interface{}]: nil, an [*ACLRoot] or an [*ACLData]. *)
Inductive RecordModel :=
| ModelRoot (root : ACLRoot)
| ModelData (data : ACLData).

Record ACLRecord := mkRecord {
  recId : string;
  recCurrentReadKeyHash : Z;
  recIdentity : string;
  recData : string;
  recModel : option RecordModel
}.

(** ** Errors and results *)

Inductive Error :=
| ErrNoSuchUser
| ErrFailedToDecrypt
| ErrUserRemoved
| ErrDocumentForbidden
| ErrUserAlreadyExists
| ErrNoSuchRecord
| ErrNoSuchInvite
| ErrOldInvite
| ErrInsufficientPermissions
| ErrNoReadKey
| ErrInvalidSignature
| ErrIncorrectRoot
| ErrOther (msg : string).   (* fmt.Errorf and errors of collaborators *)

(** What a Go call can do: return normally, return an error, or panic. *)
Inductive result (A : Type) :=
| Ok (a : A)
| Err (e : Error)
| Panic.
Arguments Ok {A} a.
Arguments Err {A} e.
Arguments Panic {A}.

Definition is_ok {A} (r : result A) : bool :=
  match r with Ok _ => true | _ => false end.

(** ** Collaborators outside the engine

    Key handling, signature checks and protobuf decoding are interfaces
    the state machine consumes. Keys are carried as their raw bytes. *)
Class External := {
  (** [encryptionkey.PrivKey.Decrypt] *)
  Decrypt : string -> string -> option string;
  (** [encryptionkey.PrivKey.GetPublic().Raw()] *)
  EncPubRaw : string -> option string;
  (** [symmetric.FromBytes] and [symmetric.Key.Bytes] *)
  SymFromBytes : string -> option string;
  SymBytes : string -> string;
  (** [aclrecordproto.ACLReadKeyDerive] *)
  ReadKeyDerive : string -> string -> option string;
  (** [signingkey.NewSigningEd25519PubKeyFromBytes] *)
  PubKeyFromBytes : string -> option string;
  (** [signingkey.PubKey.Verify key msg sig]: [None] is the error return *)
  Verify : string -> string -> string -> option bool;
  (** [proto.Unmarshal] into an [ACLData] *)
  Unmarshal : string -> option ACLData
}.

(** ** The state *)

Record UserPermissionPair := mkPair {
  ppIdentity : string;
  ppPermission : ACLUserPermissions
}.

(** The [keychain] field is never read in aclstate.go and is left out.
    [encryptionKey] and [signingKey] are interfaces and may be nil. *)
Record ACLState := mkState {
  id : string;
  currentReadKeyHash : Z;
  userReadKeys : gmap Z string;
  userStates : gmap string ACLUserState;
  userInvites : gmap string ACLUserInvite;
  encryptionKey : option string;
  signingKey : option string;
  totalReadKeys : Z;
  identity : string;
  permissionsAtRecord : gmap string (list UserPermissionPair)
}.

Definition set_currentReadKeyHash (h : Z) (st : ACLState) : ACLState :=
  mkState (id st) h (userReadKeys st) (userStates st) (userInvites st)
    (encryptionKey st) (signingKey st) (totalReadKeys st) (identity st)
    (permissionsAtRecord st).

Definition set_userReadKeys (m : gmap Z string) (st : ACLState) : ACLState :=
  mkState (id st) (currentReadKeyHash st) m (userStates st) (userInvites st)
    (encryptionKey st) (signingKey st) (totalReadKeys st) (identity st)
    (permissionsAtRecord st).

Definition set_userStates (m : gmap string ACLUserState) (st : ACLState) : ACLState :=
  mkState (id st) (currentReadKeyHash st) (userReadKeys st) m (userInvites st)
    (encryptionKey st) (signingKey st) (totalReadKeys st) (identity st)
    (permissionsAtRecord st).

Definition set_userInvites (m : gmap string ACLUserInvite) (st : ACLState) : ACLState :=
  mkState (id st) (currentReadKeyHash st) (userReadKeys st) (userStates st) m
    (encryptionKey st) (signingKey st) (totalReadKeys st) (identity st)
    (permissionsAtRecord st).

Definition set_totalReadKeys (n : Z) (st : ACLState) : ACLState :=
  mkState (id st) (currentReadKeyHash st) (userReadKeys st) (userStates st)
    (userInvites st) (encryptionKey st) (signingKey st) n (identity st)
    (permissionsAtRecord st).

Definition set_permissionsAtRecord
    (m : gmap string (list UserPermissionPair)) (st : ACLState) : ACLState :=
  mkState (id st) (currentReadKeyHash st) (userReadKeys st) (userStates st)
    (userInvites st) (encryptionKey st) (signingKey st) (totalReadKeys st)
    (identity st) m.

(** [newACLStateWithKeys]; the signing key's public bytes are [identity]. *)
Definition newACLStateWithKeys (id0 identity0 signingKey0 encryptionKey0 : string)
    : ACLState :=
  mkState id0 0 ∅ ∅ ∅ (Some encryptionKey0) (Some signingKey0) 0 identity0 ∅.

Definition newACLState (id0 : string) : ACLState :=
  mkState id0 0 ∅ ∅ ∅ None None 0 "" ∅.

Definition CurrentReadKeyHash (st : ACLState) : Z := currentReadKeyHash st.

Definition CurrentReadKey (st : ACLState) : result string :=
  match userReadKeys st !! currentReadKeyHash st with
  | Some key => Ok key
  | None => Err ErrNoReadKey
  end.

Fixpoint findPermission (identity0 : string) (permissions : list UserPermissionPair)
    : option UserPermissionPair :=
  match permissions with
  | [] => None
  | perm :: rest =>
      if decide (ppIdentity perm = identity0) then Some perm
      else findPermission identity0 rest
  end.

Definition PermissionsAtRecord (st : ACLState) (id0 identity0 : string)
    : result UserPermissionPair :=
  match permissionsAtRecord st !! id0 with
  | None => Err ErrNoSuchRecord
  | Some permissions =>
      match findPermission identity0 permissions with
      | Some perm => Ok perm
      | None => Err ErrNoSuchUser
      end
  end.

Definition hasPermission (st : ACLState) (identity0 : string)
    (permission : ACLUserPermissions) : bool :=
  match userStates st !! identity0 with
  | None => false
  | Some state => bool_decide (usPermissions state = permission)
  end.

(** [data.GetAclContent() != nil && data.GetAclContent()[0].GetUserJoin() != nil]:
    only the first item is looked at. (A non-nil slice of length zero, on
    which the index would panic, is not a value protobuf decoding yields
    and has no counterpart here.) *)
Definition isUserJoin (data : ACLData) : bool :=
  match AclContent data with
  | UserJoin _ :: _ => true
  | _ => false
  end.

(** ** Applying records *)

Section Apply.
Context `{External}.

(** [decryptReadKeyAndHash]: every failure is [ErrFailedToDecrypt]; a nil
    [encryptionKey] makes the method call panic. *)
Definition decryptReadKeyAndHash (st : ACLState) (msg : string) : result (string * Z) :=
  match encryptionKey st with
  | None => Panic
  | Some priv =>
      match Decrypt priv msg with
      | None => Err ErrFailedToDecrypt
      | Some decrypted =>
          match SymFromBytes decrypted with
          | None => Err ErrFailedToDecrypt
          | Some key => Ok (key, Go.fnv64 decrypted)
          end
      end
  end.

(** The loop [for _, key := range ch.EncryptedReadKeys] shared by
    [applyUserJoin] and [applyUserAdd]: keys decrypted before a failure
    stay in [userReadKeys]. *)
Fixpoint decryptReadKeys (keys : list string) (st : ACLState) : result unit * ACLState :=
  match keys with
  | [] => (Ok tt, st)
  | key :: rest =>
      match decryptReadKeyAndHash st key with
      | Ok (key', hash) =>
          decryptReadKeys rest (set_userReadKeys (<[hash := key']> (userReadKeys st)) st)
      | Err _ => (Err ErrFailedToDecrypt, st)
      | Panic => (Panic, st)
      end
  end.

Definition applyUserPermissionChange (ch : ACLUserPermissionChange) (st : ACLState)
    : result unit * ACLState :=
  match userStates st !! pcIdentity ch with
  | None => (Err ErrNoSuchUser, st)
  | Some state =>
      let state' := mkUserState (usIdentity state) (usEncryptionKey state) (pcPermissions ch) in
      (Ok tt, set_userStates (<[pcIdentity ch := state']> (userStates st)) st)
  end.

Definition applyUserInvite (ch : ACLUserInvite) (st : ACLState) : result unit * ACLState :=
  (Ok tt, set_userInvites (<[inAcceptPublicKey ch := ch]> (userInvites st)) st).

Definition applyUserJoin (ch : ACLUserJoin) (st : ACLState) : result unit * ACLState :=
  match userInvites st !! ujAcceptPubKey ch with
  | None => (Err (ErrOther "no such invite with such public key"), st)
  | Some invite =>
      match userStates st !! ujIdentity ch with
      | Some _ => (Err ErrUserAlreadyExists, st)
      | None =>
          match PubKeyFromBytes (inAcceptPublicKey invite) with
          | None =>
              (Err (ErrOther "public key verifying invite accepts is given in incorrect format"), st)
          | Some verificationKey =>
              match Verify verificationKey (ujIdentity ch) (ujAcceptSignature ch) with
              | None => (Err (ErrOther "verification returned error"), st)
              | Some false => (Err ErrInvalidSignature, st)
              | Some true =>
                  let '(r, st1) :=
                    if decide (identity st = ujIdentity ch)
                    then decryptReadKeys (ujEncryptedReadKeys ch) st
                    else (Ok tt, st) in
                  match r with
                  | Ok _ =>
                      let userState :=
                        mkUserState (ujIdentity ch) (ujEncryptionKey ch) (inPermissions invite) in
                      (Ok tt, set_userStates (<[ujIdentity ch := userState]> (userStates st1)) st1)
                  | _ => (r, st1)
                  end
              end
          end
      end
  end.

(** [applyUserAdd] stores the user before it decrypts its own keys. *)
Definition applyUserAdd (ch : ACLUserAdd) (st : ACLState) : result unit * ACLState :=
  match userStates st !! uaIdentity ch with
  | Some _ => (Err ErrUserAlreadyExists, st)
  | None =>
      let userState := mkUserState (uaIdentity ch) (uaEncryptionKey ch) (uaPermissions ch) in
      let st1 := set_userStates (<[uaIdentity ch := userState]> (userStates st)) st in
      if decide (uaIdentity ch = identity st1)
      then decryptReadKeys (uaEncryptedReadKeys ch) st1
      else (Ok tt, st1)
  end.

(** The loop over [ch.ReadKeyReplaces]: only the entry addressed to this
    node's own identity is looked at, and the loop stops there. *)
Fixpoint applyReadKeyReplaces (replaces : list ACLReadKeyReplace) (st : ACLState)
    : result unit * ACLState :=
  match replaces with
  | [] => (Ok tt, st)
  | replace :: rest =>
      if decide (rkIdentity replace = identity st) then
        match decryptReadKeyAndHash st (rkEncryptedReadKey replace) with
        | Ok (key, hash) => (Ok tt, set_userReadKeys (<[hash := key]> (userReadKeys st)) st)
        | Err _ => (Err ErrFailedToDecrypt, st)
        | Panic => (Panic, st)
        end
      else applyReadKeyReplaces rest st
  end.

Definition applyUserRemove (ch : ACLUserRemove) (st : ACLState) : result unit * ACLState :=
  if decide (urIdentity ch = identity st) then (Err ErrDocumentForbidden, st)
  else
    match userStates st !! urIdentity ch with
    | None => (Err ErrNoSuchUser, st)
    | Some _ =>
        let st1 := set_userStates (delete (urIdentity ch) (userStates st)) st in
        applyReadKeyReplaces (urReadKeyReplaces ch) st1
    end.

Definition applyChangeContent (ch : ACLContentValue) (st : ACLState) : result unit * ACLState :=
  match ch with
  | UserPermissionChange c => applyUserPermissionChange c st
  | UserAdd c => applyUserAdd c st
  | UserRemove c => applyUserRemove c st
  | UserInvite c => applyUserInvite c st
  | UserJoin c => applyUserJoin c st
  | ContentNotSet => (Err (ErrOther "unexpected change type"), st)
  end.

(** [for _, ch := range changeData.GetAclContent()]: the first failing
    item ends the loop; what earlier items did to the state stays. *)
Fixpoint applyContents (content : list ACLContentValue) (st : ACLState)
    : result unit * ACLState :=
  match content with
  | [] => (Ok tt, st)
  | ch :: rest =>
      match applyChangeContent ch st with
      | (Ok _, st1) => applyContents rest st1
      | (r, st1) => (r, st1)
      end
  end.

(** The body of [applyChangeData], without its deferred function. *)
Definition applyChangeDataBody (changeData : ACLData) (identity0 : string) (st : ACLState)
    : result unit * ACLState :=
  if isUserJoin changeData then applyContents (AclContent changeData) st
  else
    match userStates st !! identity0 with
    | None => (Err ErrNoSuchUser, st)
    | Some _ =>
        if hasPermission st identity0 Admin
        then applyContents (AclContent changeData) st
        else (Err (ErrOther "user must have admin permissions"), st)
    end.

(** The deferred function of [applyChangeData]. It runs on every exit;
    [err] is still nil while a panic unwinds. *)
Definition rotateReadKey (hash : Z) (r : result unit) (st : ACLState) : ACLState :=
  match r with
  | Err _ => st
  | _ =>
      if decide (hash = currentReadKeyHash st) then st
      else set_currentReadKeyHash hash (set_totalReadKeys (Go.int_incr (totalReadKeys st)) st)
  end.

Definition applyChangeData (changeData : ACLData) (hash : Z) (identity0 : string)
    (st : ACLState) : result unit * ACLState :=
  let '(r, st1) := applyChangeDataBody changeData identity0 st in
  (r, rotateReadKey hash r st1).

Definition saveReadKeyFromRoot (root : ACLRoot) (st : ACLState) : result unit * ACLState :=
  let readKey : result string :=
    if decide (rootDerivationScheme root = "") then
      match decryptReadKeyAndHash st (rootEncryptedReadKey root) with
      | Ok (key, _) => Ok key
      | Err e => Err e
      | Panic => Panic
      end
    else
      match encryptionKey st with
      | None => Panic
      | Some priv =>
          match EncPubRaw priv with
          | None => Err (ErrOther "public key has no raw form")
          | Some encPubKey =>
              match ReadKeyDerive (identity st) encPubKey with
              | None => Err (ErrOther "read key derivation failed")
              | Some key => Ok key
              end
          end
      end in
  match readKey with
  | Ok key =>
      if decide (Go.fnv64 (SymBytes key) = rootCurrentReadKeyHash root) then
        (Ok tt,
         set_totalReadKeys (Go.int_incr (totalReadKeys st))
           (set_userReadKeys (<[rootCurrentReadKeyHash root := key]> (userReadKeys st))
              (set_currentReadKeyHash (rootCurrentReadKeyHash root) st)))
      else (Err ErrIncorrectRoot, st)
  | Err e => (Err e, st)
  | Panic => (Panic, st)
  end.

Definition applyRoot (root : ACLRoot) (st : ACLState) : result unit * ACLState :=
  let '(r, st1) :=
    if bool_decide (is_Some (signingKey st)) && bool_decide (is_Some (encryptionKey st))
       && bool_decide (identity st = rootIdentity root)
    then saveReadKeyFromRoot root st
    else (Ok tt, st) in
  match r with
  | Ok _ =>
      let userState := mkUserState (rootIdentity root) (rootEncryptionKey root) Admin in
      (Ok tt, set_userStates (<[rootIdentity root := userState]> (userStates st1)) st1)
  | _ => (r, st1)
  end.

(** [for _, state := range st.userStates]: Go leaves the order of a map
    range open; the model lists the entries in key order. *)
Definition permissionsOf (st : ACLState) : list UserPermissionPair :=
  (fun kv => mkPair (usIdentity kv.2) (usPermissions kv.2)) <$> map_to_list (userStates st).

(** [applyRecord]. For a non-root record the payload comes from
    [record.Model] when it is set (the unchecked type assertion panics on
    anything but an [*ACLData]) and from [record.Data] otherwise; the
    decoded payload is then cached in [record.Model], a write to the record
    that the state does not see. *)
Definition applyRecord (record : ACLRecord) (st : ACLState) : result unit * ACLState :=
  if decide (recId record = id st) then
    match recModel record with
    | Some (ModelRoot root) =>
        applyRoot root
          (set_permissionsAtRecord
             (<[recId record := [mkPair (rootIdentity root) Admin]]> (permissionsAtRecord st)) st)
    | _ => (Err ErrIncorrectRoot, st)
    end
  else
    let aclData : result ACLData :=
      match recModel record with
      | Some (ModelData data) => Ok data
      | Some (ModelRoot _) => Panic
      | None =>
          match Unmarshal (recData record) with
          | Some data => Ok data
          | None => Err (ErrOther "proto: cannot unmarshal")
          end
      end in
    match aclData with
    | Ok data =>
        match applyChangeData data (recCurrentReadKeyHash record) (recIdentity record) st with
        | (Ok _, st1) =>
            (Ok tt,
             set_permissionsAtRecord
               (<[recId record := permissionsOf st1]> (permissionsAtRecord st1)) st1)
        | (r, st1) => (r, st1)
        end
    | Err e => (Err e, st)
    | Panic => (Panic, st)
    end.

(** ** Frame properties: what the content items leave alone *)

(** Only the deferred function of [applyChangeData] and the root path
    write [currentReadKeyHash] and [totalReadKeys]. *)
Definition same_rotation (st st' : ACLState) : Prop :=
  currentReadKeyHash st' = currentReadKeyHash st /\
  totalReadKeys st' = totalReadKeys st.

Lemma same_rotation_refl st : same_rotation st st.
Proof. by split. Qed.

Lemma same_rotation_trans st1 st2 st3 :
  same_rotation st1 st2 -> same_rotation st2 st3 -> same_rotation st1 st3.
Proof. unfold same_rotation. intros [-> ->] [-> ->]. done. Qed.

Ltac frame_cases :=
  repeat (case_match || case_decide); simplify_eq/=; try by split.

Lemma decryptReadKeys_frame keys st r st' :
  decryptReadKeys keys st = (r, st') ->
  same_rotation st st' /\ userStates st' = userStates st /\ identity st' = identity st.
Proof.
  revert st. induction keys as [|key rest IH]; intros st Hrun; simpl in Hrun.
  - by simplify_eq.
  - repeat case_match; simplify_eq; try done.
    apply IH in Hrun as (Hrot & Hus & Hid). simpl in *. by destruct Hrot.
Qed.

Lemma applyReadKeyReplaces_frame replaces st r st' :
  applyReadKeyReplaces replaces st = (r, st') ->
  same_rotation st st' /\ userStates st' = userStates st.
Proof.
  induction replaces as [|replace rest IH]; simpl; intros Hrun.
  - by simplify_eq.
  - frame_cases. by apply IH.
Qed.

Lemma applyChangeContent_frame ch st r st' :
  applyChangeContent ch st = (r, st') -> same_rotation st st'.
Proof.
  destruct ch as [c|c|c|c|c|]; simpl; intros Hrun.
  - unfold applyUserPermissionChange in Hrun. frame_cases.
  - unfold applyUserAdd in Hrun. frame_cases.
    apply decryptReadKeys_frame in Hrun as (Hrot & _). exact Hrot.
  - unfold applyUserRemove in Hrun. frame_cases.
    apply applyReadKeyReplaces_frame in Hrun as (Hrot & _). exact Hrot.
  - unfold applyUserInvite in Hrun. frame_cases.
  - unfold applyUserJoin in Hrun.
    repeat case_match; simplify_eq/=; try (by split);
      match goal with
      | Hd : decryptReadKeys _ _ = _ |- _ =>
          apply decryptReadKeys_frame in Hd as (Hrot & _); exact Hrot
      end.
  - by simplify_eq.
Qed.

Lemma applyContents_frame content st r st' :
  applyContents content st = (r, st') -> same_rotation st st'.
Proof.
  revert st. induction content as [|ch rest IH]; simpl; intros st Hrun.
  - simplify_eq. apply same_rotation_refl.
  - destruct (applyChangeContent ch st) as [r1 st1] eqn:Hch.
    apply applyChangeContent_frame in Hch.
    destruct r1; simplify_eq; try done.
    eapply same_rotation_trans; [exact Hch | by eapply IH].
Qed.

Lemma applyChangeDataBody_frame data identity0 st r st' :
  applyChangeDataBody data identity0 st = (r, st') -> same_rotation st st'.
Proof.
  unfold applyChangeDataBody. intros Hrun.
  repeat case_match; simplify_eq; try apply same_rotation_refl;
    by eapply applyContents_frame.
Qed.

(** What [applyChangeData] does to the two rotation fields. *)
Lemma applyChangeData_rotation data hash identity0 st r st' :
  applyChangeData data hash identity0 st = (r, st') ->
  match r with
  | Ok _ | Panic =>
      currentReadKeyHash st' = hash /\
      totalReadKeys st' =
        (if decide (hash = currentReadKeyHash st) then totalReadKeys st
         else Go.int_incr (totalReadKeys st))
  | Err _ => same_rotation st st'
  end.
Proof.
  unfold applyChangeData. intros Hrun.
  destruct (applyChangeDataBody data identity0 st) as [r1 st1] eqn:Hbody.
  apply applyChangeDataBody_frame in Hbody as [Hh Ht].
  injection Hrun as <- <-. unfold rotateReadKey.
  destruct r1; [| by split |]; rewrite Hh; case_decide; simpl;
    rewrite ?Ht; split; congruence.
Qed.

End Apply.

(** ** A replayed ACL list

    Scenarios are built the way an ACL list is: a fresh state, then the
    records applied in order, stopping at the first that does not apply. *)

Fixpoint replay `{External} (records : list ACLRecord) (st : ACLState)
    : result unit * ACLState :=
  match records with
  | [] => (Ok tt, st)
  | record :: rest =>
      match applyRecord record st with
      | (Ok _, st1) => replay rest st1
      | (r, st1) => (r, st1)
      end
  end.

(** Stand-ins for the collaborators, in the manner of the mocks the Go
    tests use: encryption is the identity, a signature over [msg] under
    [key] is [key ++ msg], and records carry their decoded [Model]. *)
Definition mockExternal : External := {|
  Decrypt := fun _ msg => Some msg;
  EncPubRaw := fun priv => Some priv;
  SymFromBytes := fun raw => Some raw;
  SymBytes := fun key => key;
  ReadKeyDerive := fun identity0 pub => Some (identity0 ++ pub);
  PubKeyFromBytes := fun raw => Some raw;
  Verify := fun key msg sig => Some (bool_decide (sig = key ++ msg));
  Unmarshal := fun _ => None
|}.

Definition dataRecord (id0 : string) (hash : Z) (author : string)
    (content : list ACLContentValue) : ACLRecord :=
  mkRecord id0 hash author "" (Some (ModelData (mkData content))).

(** Genesis by [alice]; she then adds [bob] (Writer) and [carol] (Reader)
    under read key 11. *)
Definition rootRecord : ACLRecord :=
  mkRecord "acl" 11 "alice" "" (Some (ModelRoot (mkRoot "alice" "enc-alice" "" "" 11))).

Definition addUsersRecord : ACLRecord :=
  dataRecord "rec-add" 11 "alice"
    [UserAdd (mkUserAdd "bob" "enc-bob" ["k11-for-bob"] Writer);
     UserAdd (mkUserAdd "carol" "enc-carol" ["k11-for-carol"] Reader)].

Definition threeUsers : ACLState :=
  (@replay mockExternal [rootRecord; addUsersRecord] (newACLState "acl")).2.

Example threeUsers_users :
  (usPermissions <$> userStates threeUsers) =
    {[ "alice" := Admin; "bob" := Writer; "carol" := Reader ]}.
Proof. vm_compute. reflexivity. Qed.

(** [alice] removes [bob] with a record that keeps read key 11 and seals
    nothing for anybody. *)
Definition removeBobRecord : ACLRecord :=
  dataRecord "rec-remove" 11 "alice" [UserRemove (mkUserRemove "bob" [])].

(** [alice], the only Admin, makes herself a Reader. *)
Definition demoteAliceRecord : ACLRecord :=
  dataRecord "rec-demote" 11 "alice"
    [UserPermissionChange (mkPermissionChange "alice" Reader)].

(** [alice] invites a Reader; the holder of the invite answers with a
    record that joins and, in a second item, makes itself Admin. *)
Definition inviteRecord : ACLRecord :=
  dataRecord "rec-invite" 11 "alice"
    [UserInvite (mkUserInvite "accept-key" ["k11-sealed"] Reader)].

Definition invited : ACLState :=
  (@replay mockExternal [rootRecord; addUsersRecord; inviteRecord] (newACLState "acl")).2.

Definition joinAndPromoteRecord : ACLRecord :=
  dataRecord "rec-join" 11 "mallory"
    [UserJoin (mkUserJoin "mallory" "enc-mallory" ("accept-key" ++ "mallory") "accept-key" []);
     UserPermissionChange (mkPermissionChange "mallory" Admin)].

(** An entry of a [UserRemove] that seals the new read key to [user]. *)
Definition sealed_for (ch : ACLUserRemove) (user : string) : Prop :=
  exists replace, replace ∈ urReadKeyReplaces ch /\ rkIdentity replace = user.

(** ** Theorems *)

Section Theorems.
Context `{External}.

(** C10. A non-root record that applies leaves [currentReadKeyHash] at
    the record's hash, and [totalReadKeys] is incremented exactly when that
    hash differs from the one the state had, whatever the content items
    are; a record that fails to apply changes neither field. *)
Theorem applyRecord_read_key_rotation (record : ACLRecord) (st : ACLState) :
  recId record <> id st ->
  match applyRecord record st with
  | (Ok _, st') =>
      currentReadKeyHash st' = recCurrentReadKeyHash record /\
      totalReadKeys st' =
        (if decide (recCurrentReadKeyHash record = currentReadKeyHash st)
         then totalReadKeys st
         else Go.int_incr (totalReadKeys st))
  | (Err _, st') =>
      currentReadKeyHash st' = currentReadKeyHash st /\
      totalReadKeys st' = totalReadKeys st
  | (Panic, _) => True
  end.
Proof.
  intros Hid. unfold applyRecord.
  destruct (decide (recId record = id st)) as [|_]; [done|].
  destruct (recModel record) as [[root|data]|]; [done| |].
  - destruct (applyChangeData data _ _ st) as [r st1] eqn:Hrun.
    apply applyChangeData_rotation in Hrun. by destruct r.
  - destruct (Unmarshal (recData record)) as [data|]; [|done].
    destruct (applyChangeData data _ _ st) as [r st1] eqn:Hrun.
    apply applyChangeData_rotation in Hrun. by destruct r.
Qed.

(** A record that does not open with a [UserJoin] is refused, and the
    state is left as it was, unless its author is an Admin. *)
Lemma applyChangeData_requires_admin data hash author st :
  isUserJoin data = false ->
  hasPermission st author Admin = false ->
  exists e, applyChangeData data hash author st = (Err e, st).
Proof.
  intros Hjoin Hperm. unfold applyChangeData, applyChangeDataBody.
  rewrite Hjoin, Hperm. destruct (userStates st !! author); eauto.
Qed.

(** C4 (amended). A record whose one item is a [UserRemove], once applied:
    the removed identity was a user other than this node and is gone, all
    other users are as before, [currentReadKeyHash] is the record's hash
    and [totalReadKeys] went up exactly when that hash is a new one. No
    sealed entry for the remaining users is asked for. *)
Theorem applyRecord_UserRemove (record : ACLRecord) (st st' : ACLState)
    (ch : ACLUserRemove) :
  recId record <> id st ->
  recModel record = Some (ModelData (mkData [UserRemove ch])) ->
  applyRecord record st = (Ok tt, st') ->
  is_Some (userStates st !! urIdentity ch) /\
  urIdentity ch <> identity st /\
  userStates st' = delete (urIdentity ch) (userStates st) /\
  currentReadKeyHash st' = recCurrentReadKeyHash record /\
  totalReadKeys st' =
    (if decide (recCurrentReadKeyHash record = currentReadKeyHash st)
     then totalReadKeys st
     else Go.int_incr (totalReadKeys st)).
Proof.
  intros Hid Hmodel Hrun.
  unfold applyRecord in Hrun. rewrite Hmodel in Hrun.
  destruct (decide (recId record = id st)) as [|_]; [done|].
  destruct (applyChangeData _ _ _ st) as [r st1] eqn:Hdata.
  pose proof (applyChangeData_rotation _ _ _ _ _ _ Hdata) as Hrot.
  destruct r; simplify_eq. simpl. destruct Hrot as [Hhash Htotal].
  unfold applyChangeData, applyChangeDataBody in Hdata. simpl in Hdata.
  destruct (userStates st !! recIdentity record); [|by simplify_eq].
  destruct (hasPermission st (recIdentity record) Admin); [|by simplify_eq].
  unfold applyUserRemove in Hdata.
  destruct (decide (urIdentity ch = identity st)); [by simplify_eq|].
  destruct (userStates st !! urIdentity ch) eqn:Huser; [|by simplify_eq].
  destruct (applyReadKeyReplaces _ _) as [r2 st2] eqn:Hrep.
  apply applyReadKeyReplaces_frame in Hrep as (_ & Hus).
  destruct r2; simplify_eq. simpl in *.
  repeat split; eauto.
  unfold rotateReadKey. case_decide; simpl; by rewrite Hus.
Qed.

(** C6 (amended). A record of an Admin whose one item is a
    [UserPermissionChange]: when the named identity is a user the record
    applies and that user gets the requested permission, be it the last
    Admin made a Reader; when it is not, the record fails with
    [ErrNoSuchUser] and the state is unchanged. *)
Theorem applyRecord_UserPermissionChange (record : ACLRecord) (st : ACLState)
    (ch : ACLUserPermissionChange) :
  recId record <> id st ->
  recModel record = Some (ModelData (mkData [UserPermissionChange ch])) ->
  hasPermission st (recIdentity record) Admin = true ->
  match userStates st !! pcIdentity ch with
  | Some state =>
      exists st',
        applyRecord record st = (Ok tt, st') /\
        userStates st' =
          <[pcIdentity ch :=
              mkUserState (usIdentity state) (usEncryptionKey state) (pcPermissions ch)]>
            (userStates st)
  | None => applyRecord record st = (Err ErrNoSuchUser, st)
  end.
Proof.
  intros Hid Hmodel Hadmin. unfold applyRecord. rewrite Hmodel.
  destruct (decide (recId record = id st)) as [|_]; [done|].
  unfold applyChangeData, applyChangeDataBody. simpl. rewrite Hadmin.
  assert (is_Some (userStates st !! recIdentity record)) as [author ->].
  { unfold hasPermission in Hadmin. by destruct (userStates st !! recIdentity record). }
  unfold applyUserPermissionChange.
  destruct (userStates st !! pcIdentity ch) as [state|]; [|done].
  simpl. eexists. split; [reflexivity|].
  unfold rotateReadKey. by case_decide.
Qed.

End Theorems.

(** ** The scenarios, evaluated *)

Definition afterRoot : ACLState :=
  (@replay mockExternal [rootRecord] (newACLState "acl")).2.

(** The identities holding Admin. *)
Definition admins (st : ACLState) : gset string :=
  dom (filter (fun kv => usPermissions kv.2 = Admin) (userStates st)).

Lemma applyRecord_read_key_rotation_witness :
  recId addUsersRecord <> id afterRoot /\
  currentReadKeyHash (@applyRecord mockExternal addUsersRecord afterRoot).2 = 11 /\
  totalReadKeys (@applyRecord mockExternal addUsersRecord afterRoot).2 = 1.
Proof.
  split; [done|].
  pose proof (@applyRecord_read_key_rotation mockExternal addUsersRecord afterRoot
                ltac:(done)) as Hw.
  vm_compute in Hw. vm_compute. exact Hw.
Defined.

(** C4, as stated, fails: [removeBobRecord] applies, yet the read key hash
    and the key count stay as they were and [carol], who remains, has no
    sealed entry in the record. *)
Lemma userRemove_without_rotation :
  exists st',
    @applyRecord mockExternal removeBobRecord threeUsers = (Ok tt, st') /\
    currentReadKeyHash st' = currentReadKeyHash threeUsers /\
    totalReadKeys st' = totalReadKeys threeUsers /\
    is_Some (userStates st' !! "carol") /\
    ~ sealed_for (mkUserRemove "bob" []) "carol".
Proof.
  eexists. split; [vm_compute; reflexivity|].
  split; [reflexivity|]. split; [reflexivity|]. split.
  - vm_compute. eauto.
  - intros (replace & Hin & _). simpl in Hin. by apply elem_of_nil in Hin.
Qed.

Lemma applyRecord_UserRemove_witness :
  recId removeBobRecord <> id threeUsers /\
  recModel removeBobRecord = Some (ModelData (mkData [UserRemove (mkUserRemove "bob" [])])) /\
  @applyRecord mockExternal removeBobRecord threeUsers =
    (Ok tt, (@applyRecord mockExternal removeBobRecord threeUsers).2) /\
  is_Some (userStates threeUsers !! "bob") /\
  "bob" <> identity threeUsers /\
  userStates (@applyRecord mockExternal removeBobRecord threeUsers).2 =
    delete "bob" (userStates threeUsers) /\
  currentReadKeyHash (@applyRecord mockExternal removeBobRecord threeUsers).2 = 11 /\
  totalReadKeys (@applyRecord mockExternal removeBobRecord threeUsers).2 = 1.
Proof.
  assert (recId removeBobRecord <> id threeUsers) as H1 by done.
  assert (@applyRecord mockExternal removeBobRecord threeUsers =
            (Ok tt, (@applyRecord mockExternal removeBobRecord threeUsers).2)) as H3
    by (vm_compute; reflexivity).
  split; [exact H1|]. split; [reflexivity|]. split; [exact H3|].
  exact (@applyRecord_UserRemove mockExternal removeBobRecord threeUsers _
           (mkUserRemove "bob" []) H1 eq_refl H3).
Defined.

(** C6, as stated, fails: [alice] is the only Admin of [threeUsers], the
    record that makes her a Reader applies, and no Admin is left. *)
Lemma sole_admin_is_demoted :
  admins threeUsers = {[ "alice" ]} /\
  exists st',
    @applyRecord mockExternal demoteAliceRecord threeUsers = (Ok tt, st') /\
    usPermissions <$> userStates st' !! "alice" = Some Reader /\
    admins st' = ∅.
Proof.
  split; [vm_compute; reflexivity|].
  eexists. split; [vm_compute; reflexivity|].
  split; vm_compute; reflexivity.
Qed.

Lemma applyRecord_UserPermissionChange_witness :
  recId demoteAliceRecord <> id threeUsers /\
  recModel demoteAliceRecord =
    Some (ModelData (mkData [UserPermissionChange (mkPermissionChange "alice" Reader)])) /\
  hasPermission threeUsers (recIdentity demoteAliceRecord) Admin = true /\
  exists st',
    @applyRecord mockExternal demoteAliceRecord threeUsers = (Ok tt, st') /\
    userStates st' =
      <["alice" := mkUserState "alice" "enc-alice" Reader]> (userStates threeUsers).
Proof.
  assert (recId demoteAliceRecord <> id threeUsers) as H1 by done.
  assert (hasPermission threeUsers (recIdentity demoteAliceRecord) Admin = true) as H3
    by (vm_compute; reflexivity).
  split; [exact H1|]. split; [reflexivity|]. split; [exact H3|].
  pose proof (@applyRecord_UserPermissionChange mockExternal demoteAliceRecord threeUsers
                (mkPermissionChange "alice" Reader) H1 eq_refl H3) as Hw.
  assert (userStates threeUsers !! "alice" = Some (mkUserState "alice" "enc-alice" Admin))
    as Halice by (vm_compute; reflexivity).
  simpl pcIdentity in Hw. rewrite Halice in Hw. exact Hw.
Defined.

(** A client that holds keys: [alice] replays her own genesis record,
    whose read key is sealed to her, and ends up with that key current. *)
Definition readKeyHash : Z := Eval vm_compute in Go.fnv64 "read-key-1".

Definition sealedRootRecord : ACLRecord :=
  mkRecord "acl" readKeyHash "alice" ""
    (Some (ModelRoot (mkRoot "alice" "enc-alice" "read-key-1" "" readKeyHash))).

Definition aliceClient : ACLState :=
  (@replay mockExternal [sealedRootRecord]
     (newACLStateWithKeys "acl" "alice" "sign-alice" "priv-alice")).2.

Example aliceClient_read_key :
  CurrentReadKey aliceClient = Ok "read-key-1" /\
  totalReadKeys aliceClient = 1 /\
  PermissionsAtRecord aliceClient "acl" "alice" = Ok (mkPair "alice" Admin).
Proof. vm_compute. repeat split. Qed.

Lemma applyChangeData_requires_admin_witness :
  isUserJoin (mkData [UserAdd (mkUserAdd "dave" "enc-dave" [] Admin)]) = false /\
  hasPermission threeUsers "bob" Admin = false /\
  exists e,
    @applyChangeData mockExternal (mkData [UserAdd (mkUserAdd "dave" "enc-dave" [] Admin)])
      11 "bob" threeUsers = (Err e, threeUsers).
Proof.
  assert (hasPermission threeUsers "bob" Admin = false) as Hperm by (vm_compute; reflexivity).
  split; [reflexivity|]. split; [exact Hperm|].
  exact (@applyChangeData_requires_admin mockExternal
           (mkData [UserAdd (mkUserAdd "dave" "enc-dave" [] Admin)]) 11 "bob" threeUsers
           eq_refl Hperm).
Defined.

(** C5 fails on the code: [mallory] is no user of [invited], let alone an
    Admin, and her record, which opens with a valid [UserJoin], has its
    [UserPermissionChange] applied all the same and makes her an Admin. *)
Theorem join_record_skips_admin_check :
  userStates invited !! "mallory" = None /\
  hasPermission invited "mallory" Admin = false /\
  isUserJoin (mkData [UserPermissionChange (mkPermissionChange "mallory" Admin)]) = false /\
  exists st',
    @applyRecord mockExternal joinAndPromoteRecord invited = (Ok tt, st') /\
    usPermissions <$> userStates st' !! "mallory" = Some Admin.
Proof.
  split; [vm_compute; reflexivity|]. split; [vm_compute; reflexivity|].
  split; [reflexivity|].
  eexists. split; vm_compute; reflexivity.
Qed.

(** ** More of ACLState: invites, snapshots, invariants *)

(** [Invite]: a known invite is returned in any case, with [ErrOldInvite]
    when it does not seal as many read keys as the state has counted. *)
Definition Invite (st : ACLState) (acceptPubKey : string)
    : option ACLUserInvite * option Error :=
  match userInvites st !! acceptPubKey with
  | None => (None, Some ErrNoSuchInvite)
  | Some invite =>
      (Some invite,
       if decide (Z.of_nat (length (inEncryptedReadKeys invite)) = totalReadKeys st)
       then None else Some ErrOldInvite)
  end.

(** Every entry of [userStates] sits under the identity it carries. *)
Definition keyed (st : ACLState) : Prop :=
  map_Forall (fun k state => usIdentity state = k) (userStates st).

#[global] Instance keyed_dec st : Decision (keyed st).
Proof. unfold keyed. apply _. Defined.

(** The fields no record ever writes, and the snapshots. *)
Definition same_setup (st st' : ACLState) : Prop :=
  id st' = id st /\ identity st' = identity st /\
  encryptionKey st' = encryptionKey st /\ signingKey st' = signingKey st /\
  permissionsAtRecord st' = permissionsAtRecord st.

Lemma same_setup_refl st : same_setup st st.
Proof. by repeat split. Qed.

Lemma same_setup_trans st1 st2 st3 :
  same_setup st1 st2 -> same_setup st2 st3 -> same_setup st1 st3.
Proof.
  unfold same_setup. intros (-> & -> & -> & -> & ->) (-> & -> & -> & -> & ->).
  by repeat split.
Qed.

Lemma Go_int_incr_neq (x : Z) : Go.int_incr x <> x.
Proof.
  unfold Go.int_incr, Go.wrap_int. intros Heq.
  assert (0 <= (x + 1 + 2 ^ 63) mod 2 ^ 64 < 2 ^ 64) as Hrange
    by (apply Z.mod_pos_bound; lia).
  assert ((x + 1 + 2 ^ 63) mod 2 ^ 64 = x + 2 ^ 63) as Hmod by lia.
  assert (0 <= x + 2 ^ 63 < 2 ^ 64) as Hx by lia.
  destruct (decide (x + 1 + 2 ^ 63 < 2 ^ 64)) as [Hlt|Hge].
  - rewrite Z.mod_small in Hmod by lia. lia.
  - assert (x + 1 + 2 ^ 63 = 2 ^ 64) as Htop by lia.
    rewrite Htop, Z.mod_same in Hmod by lia. lia.
Qed.

Section History.
Context `{External}.

Ltac setup_cases :=
  repeat (case_match || case_decide); simplify_eq/=;
  try (by repeat split); try (by intros ? ?).

Lemma decryptReadKeys_setup keys st r st' :
  decryptReadKeys keys st = (r, st') ->
  same_setup st st' /\ userInvites st' = userInvites st.
Proof.
  revert st. induction keys as [|key rest IH]; intros st Hrun; simpl in Hrun.
  - simplify_eq. split; [apply same_setup_refl|done].
  - repeat case_match; simplify_eq; try (split; [apply same_setup_refl|done]).
    apply IH in Hrun as [Hs Hi]. simpl in *. done.
Qed.

Lemma applyReadKeyReplaces_setup replaces st r st' :
  applyReadKeyReplaces replaces st = (r, st') ->
  same_setup st st' /\ userInvites st' = userInvites st.
Proof.
  induction replaces as [|replace rest IH]; simpl; intros Hrun.
  - simplify_eq. split; [apply same_setup_refl|done].
  - repeat (case_match || case_decide); simplify_eq/=;
      try (by repeat split). by apply IH.
Qed.

(** No content item writes the setup fields or a snapshot, and an item
    other than [UserInvite] leaves the invites alone. *)
Lemma applyChangeContent_setup ch st r st' :
  applyChangeContent ch st = (r, st') ->
  same_setup st st' /\
  (forall k, is_Some (userInvites st !! k) -> is_Some (userInvites st' !! k)) /\
  ((forall c, ch <> UserInvite c) -> userInvites st' = userInvites st).
Proof.
  destruct ch as [c|c|c|c|c|]; simpl; intros Hrun.
  - unfold applyUserPermissionChange in Hrun.
    repeat case_match; simplify_eq/=; (by repeat split).
  - unfold applyUserAdd in Hrun.
    repeat (case_match || case_decide); simplify_eq/=;
      try (by repeat split).
    apply decryptReadKeys_setup in Hrun as [Hs Hi]. simpl in *.
    split; [done|]. rewrite Hi. done.
  - unfold applyUserRemove in Hrun.
    repeat (case_match || case_decide); simplify_eq/=;
      try (by repeat split).
    apply applyReadKeyReplaces_setup in Hrun as [Hs Hi]. simpl in *.
    split; [done|]. rewrite Hi. done.
  - unfold applyUserInvite in Hrun. simplify_eq/=.
    split; [by repeat split|]. split.
    + intros k Hk. destruct (decide (inAcceptPublicKey c = k)) as [->|Hne].
      * rewrite lookup_insert_eq. eauto.
      * by rewrite lookup_insert_ne.
    + intros Hno. by destruct (Hno c).
  - unfold applyUserJoin in Hrun.
    repeat (case_match || case_decide); simplify_eq/=;
      try (by repeat split);
      match goal with
      | Hd : decryptReadKeys _ _ = _ |- _ =>
          apply decryptReadKeys_setup in Hd as [Hs Hi]; simpl in *;
          split; [done|]; rewrite Hi; done
      end.
  - simplify_eq. split; [apply same_setup_refl|done].
Qed.

Lemma applyContents_setup content st r st' :
  applyContents content st = (r, st') ->
  same_setup st st' /\
  (forall k, is_Some (userInvites st !! k) -> is_Some (userInvites st' !! k)) /\
  ((forall c, UserInvite c ∉ content) -> userInvites st' = userInvites st).
Proof.
  revert st. induction content as [|ch rest IH]; simpl; intros st Hrun.
  - simplify_eq. split; [apply same_setup_refl|done].
  - destruct (applyChangeContent ch st) as [r1 st1] eqn:Hch.
    apply applyChangeContent_setup in Hch as (Hs & Hgrow & Hkeep).
    assert ((forall c, UserInvite c ∉ ch :: rest) -> userInvites st1 = userInvites st) as Hkeep'.
    { intros Hno. apply Hkeep. intros c ->. apply (Hno c), list_elem_of_here. }
    destruct r1; simplify_eq; try done.
    apply IH in Hrun as (Hs2 & Hgrow2 & Hkeep2).
    split; [by eapply same_setup_trans|]. split; [eauto|].
    intros Hno. rewrite Hkeep2, Hkeep'; [done|done|].
    intros c Hin. apply (Hno c). by apply list_elem_of_further.
Qed.

Lemma rotateReadKey_setup hash r st :
  same_setup st (rotateReadKey hash r st) /\
  userInvites (rotateReadKey hash r st) = userInvites st /\
  userStates (rotateReadKey hash r st) = userStates st.
Proof. unfold rotateReadKey. repeat (case_match || case_decide); by repeat split. Qed.

Lemma applyChangeData_setup data hash author st r st' :
  applyChangeData data hash author st = (r, st') ->
  same_setup st st' /\
  (forall k, is_Some (userInvites st !! k) -> is_Some (userInvites st' !! k)) /\
  ((forall c, UserInvite c ∉ AclContent data) -> userInvites st' = userInvites st).
Proof.
  unfold applyChangeData. intros Hrun.
  destruct (applyChangeDataBody data author st) as [r1 st1] eqn:Hbody.
  injection Hrun as <- <-.
  destruct (rotateReadKey_setup hash r1 st1) as (Hs2 & Hi2 & _). rewrite Hi2.
  assert (same_setup st st1 /\
          (forall k, is_Some (userInvites st !! k) -> is_Some (userInvites st1 !! k)) /\
          ((forall c, UserInvite c ∉ AclContent data) -> userInvites st1 = userInvites st))
    as (Hs & Hgrow & Hkeep).
  { unfold applyChangeDataBody in Hbody.
    repeat case_match; simplify_eq; try (by repeat split);
      by eapply applyContents_setup. }
  split; [by eapply same_setup_trans|done].
Qed.

(** *** The identity invariant of [userStates] *)

Lemma keyed_same st st' : userStates st' = userStates st -> keyed st -> keyed st'.
Proof. unfold keyed. by intros ->. Qed.

Lemma applyChangeContent_keyed ch st r st' :
  applyChangeContent ch st = (r, st') -> keyed st -> keyed st'.
Proof.
  intros Hrun Hkeyed. destruct ch as [c|c|c|c|c|]; simpl in Hrun.
  - unfold applyUserPermissionChange in Hrun.
    destruct (userStates st !! pcIdentity c) as [state|] eqn:Hstate; simplify_eq; [|done].
    apply map_Forall_insert_2; [|done]. simpl. by apply (Hkeyed _ _ Hstate).
  - unfold applyUserAdd in Hrun.
    destruct (userStates st !! uaIdentity c); simplify_eq; [done|].
    case_decide; simplify_eq.
    + apply decryptReadKeys_frame in Hrun as (_ & Hus & _).
      eapply keyed_same; [exact Hus|]. by apply map_Forall_insert_2.
    + by apply map_Forall_insert_2.
  - unfold applyUserRemove in Hrun. case_decide; simplify_eq; [done|].
    destruct (userStates st !! urIdentity c); simplify_eq; [|done].
    apply applyReadKeyReplaces_frame in Hrun as (_ & Hus).
    eapply keyed_same; [exact Hus|]. by apply map_Forall_delete.
  - unfold applyUserInvite in Hrun. by simplify_eq.
  - unfold applyUserJoin in Hrun.
    repeat case_match; simplify_eq; try done;
      try match goal with
      | Hd : decryptReadKeys _ _ = _ |- _ =>
          apply decryptReadKeys_frame in Hd as (_ & Hus & _)
      end;
      first [ apply map_Forall_insert_2; [done|]; by eapply keyed_same
            | by apply map_Forall_insert_2
            | by eapply keyed_same ].
  - by simplify_eq.
Qed.

Lemma applyContents_keyed content st r st' :
  applyContents content st = (r, st') -> keyed st -> keyed st'.
Proof.
  revert st. induction content as [|ch rest IH]; simpl; intros st Hrun Hkeyed.
  - by simplify_eq.
  - destruct (applyChangeContent ch st) as [r1 st1] eqn:Hch.
    apply applyChangeContent_keyed in Hch; [|done].
    destruct r1; simplify_eq; eauto.
Qed.

Lemma applyChangeData_keyed data hash author st r st' :
  applyChangeData data hash author st = (r, st') -> keyed st -> keyed st'.
Proof.
  unfold applyChangeData. intros Hrun Hkeyed.
  destruct (applyChangeDataBody data author st) as [r1 st1] eqn:Hbody.
  injection Hrun as <- <-.
  destruct (rotateReadKey_setup hash r1 st1) as (_ & _ & Hus).
  eapply keyed_same; [exact Hus|].
  unfold applyChangeDataBody in Hbody.
  repeat case_match; simplify_eq; try done; by eapply applyContents_keyed.
Qed.

Lemma saveReadKeyFromRoot_users root st r st' :
  saveReadKeyFromRoot root st = (r, st') ->
  userStates st' = userStates st /\ userInvites st' = userInvites st /\
  same_setup st st'.
Proof.
  unfold saveReadKeyFromRoot. intros Hrun.
  repeat (case_match || case_decide); simplify_eq; by repeat split.
Qed.

Lemma applyRecord_keyed record st r st' :
  applyRecord record st = (r, st') -> keyed st -> keyed st'.
Proof.
  unfold applyRecord. intros Hrun Hkeyed. case_decide.
  - destruct (recModel record) as [[root|data]|]; simplify_eq; try done.
    unfold applyRoot in Hrun.
    match type of Hrun with
    | context [if ?b then saveReadKeyFromRoot ?root ?s else _] =>
        destruct b;
          [destruct (saveReadKeyFromRoot root s) as [r1 st1] eqn:Hsave;
           apply saveReadKeyFromRoot_users in Hsave as (Hus & _)|]
    end.
    + destruct r1; simplify_eq; try (by eapply keyed_same).
      apply map_Forall_insert_2; [done|]. by eapply keyed_same.
    + simplify_eq. by apply map_Forall_insert_2.
  - repeat case_match; simplify_eq; try done;
      match goal with
      | Hd : applyChangeData _ _ _ _ = _ |- _ =>
          by apply applyChangeData_keyed in Hd
      end.
Qed.

Lemma replay_keyed_from records st : keyed st -> keyed (replay records st).2.
Proof.
  revert st. induction records as [|record rest IH]; simpl; intros st Hkeyed; [done|].
  destruct (applyRecord record st) as [r1 st1] eqn:Hrec.
  apply applyRecord_keyed in Hrec; [|done].
  destruct r1; simpl; eauto.
Qed.

(** In every state reached from a fresh one, by any records and whether
    or not they apply, each user is stored under the identity it carries. *)
Theorem replay_keyed records id0 identity0 signingKey0 encryptionKey0 :
  keyed (replay records (newACLState id0)).2 /\
  keyed (replay records (newACLStateWithKeys id0 identity0 signingKey0 encryptionKey0)).2.
Proof. split; apply replay_keyed_from; apply map_Forall_empty. Qed.

(** *** Snapshots *)

(** What a non-root record that applies went through. *)
Lemma applyRecord_data record st st' :
  recId record <> id st ->
  applyRecord record st = (Ok tt, st') ->
  exists data st1,
    (recModel record = Some (ModelData data) \/
     (recModel record = None /\ Unmarshal (recData record) = Some data)) /\
    applyChangeData data (recCurrentReadKeyHash record) (recIdentity record) st
      = (Ok tt, st1) /\
    st' = set_permissionsAtRecord
            (<[recId record := permissionsOf st1]> (permissionsAtRecord st1)) st1.
Proof.
  intros Hid Hrun. unfold applyRecord in Hrun. case_decide; [done|].
  repeat case_match; simplify_eq;
    match goal with
    | Hd : applyChangeData ?data _ _ _ = (Ok ?u, ?st1) |- _ =>
        destruct u; exists data, st1; eauto
    end.
Qed.

Lemma findPermission_pairs identity0 (l : list (string * ACLUserState)) :
  Forall (fun kv => usIdentity kv.2 = kv.1) l ->
  findPermission identity0
    ((fun kv => mkPair (usIdentity kv.2) (usPermissions kv.2)) <$> l) =
  (fun state => mkPair identity0 (usPermissions state)) <$>
    (list_to_map l : gmap string ACLUserState) !! identity0.
Proof.
  induction 1 as [|[k state] l Hk _ IH]; simpl in *; [done|].
  subst k. case_decide as Hid.
  - subst identity0. by rewrite lookup_insert_eq.
  - by rewrite lookup_insert_ne.
Qed.

Lemma findPermission_permissionsOf st identity0 :
  keyed st ->
  findPermission identity0 (permissionsOf st) =
    (fun state => mkPair identity0 (usPermissions state)) <$> userStates st !! identity0.
Proof.
  intros Hkeyed. unfold permissionsOf. rewrite findPermission_pairs.
  - by rewrite list_to_map_to_list.
  - apply Forall_forall. intros [k state] Hin.
    apply elem_of_map_to_list in Hin. simpl. by apply (Hkeyed _ _ Hin).
Qed.

(** The snapshot a record leaves answers for every identity what
    [userStates] holds after the record: the order in which the map was
    ranged over does not show. *)
Theorem applyRecord_snapshot record st st' identity0 :
  keyed st -> recId record <> id st ->
  applyRecord record st = (Ok tt, st') ->
  PermissionsAtRecord st' (recId record) identity0 =
    match userStates st' !! identity0 with
    | Some state => Ok (mkPair identity0 (usPermissions state))
    | None => Err ErrNoSuchUser
    end.
Proof.
  intros Hkeyed Hid Hrun.
  apply applyRecord_data in Hrun as (data & st1 & _ & Hdata & ->); [|done].
  apply applyChangeData_keyed in Hdata; [|done].
  unfold PermissionsAtRecord. simpl. rewrite lookup_insert_eq.
  rewrite findPermission_permissionsOf by done.
  by destruct (userStates st1 !! identity0).
Qed.

(** A record writes no snapshot but its own, and a non-root record that
    does not apply writes none at all. *)
Theorem applyRecord_history record st r st' other identity0 :
  applyRecord record st = (r, st') ->
  other <> recId record \/ (recId record <> id st /\ r <> Ok tt) ->
  PermissionsAtRecord st' other identity0 = PermissionsAtRecord st other identity0.
Proof.
  intros Hrun Hother. unfold PermissionsAtRecord.
  assert (permissionsAtRecord st' !! other = permissionsAtRecord st !! other) as ->; [|done].
  unfold applyRecord in Hrun. case_decide as Hroot.
  - destruct Hother as [Hother|[? _]]; [|done].
    destruct (recModel record) as [[root|data]|]; simplify_eq; try done.
    unfold applyRoot in Hrun.
    match type of Hrun with
    | context [if ?b then saveReadKeyFromRoot ?root ?s else _] =>
        destruct b;
          [destruct (saveReadKeyFromRoot root s) as [r1 st1] eqn:Hsave;
           apply saveReadKeyFromRoot_users in Hsave as (_ & _ & Hs);
           destruct Hs as (_ & _ & _ & _ & Hs)|]
    end.
    + destruct r1; simplify_eq; simpl in *; rewrite ?Hs; by rewrite lookup_insert_ne.
    + simplify_eq. simpl. by rewrite lookup_insert_ne.
  - repeat case_match; simplify_eq; try done;
      match goal with
      | Hd : applyChangeData _ _ _ _ = _ |- _ =>
          apply applyChangeData_setup in Hd as ((_ & _ & _ & _ & Hs) & _)
      end; simpl; rewrite ?Hs; try done.
    all: destruct Hother as [Hother|[_ Hr]]; [by rewrite lookup_insert_ne|].
    all: exfalso; apply Hr; by repeat match goal with u : unit |- _ => destruct u end.
Qed.


(** *** Failing items *)

Lemma decryptReadKeys_error keys st e st' :
  decryptReadKeys keys st = (Err e, st') -> e = ErrFailedToDecrypt.
Proof.
  revert st. induction keys as [|key rest IH]; simpl; intros st Hrun; [done|].
  repeat case_match; simplify_eq; eauto.
Qed.

Lemma applyReadKeyReplaces_error replaces st e st' :
  applyReadKeyReplaces replaces st = (Err e, st') -> e = ErrFailedToDecrypt.
Proof.
  induction replaces as [|replace rest IH]; simpl; intros Hrun; [done|].
  repeat (case_match || case_decide); simplify_eq; eauto.
Qed.

(** A content item that fails for any reason but a read key that does
    not decrypt has not touched the state. *)
Theorem applyChangeContent_error ch st e st' :
  applyChangeContent ch st = (Err e, st') -> e <> ErrFailedToDecrypt -> st' = st.
Proof.
  intros Hrun He. destruct ch as [c|c|c|c|c|]; simpl in Hrun.
  - unfold applyUserPermissionChange in Hrun. by repeat case_match; simplify_eq.
  - unfold applyUserAdd in Hrun.
    repeat (case_match || case_decide); simplify_eq; try done.
    by apply decryptReadKeys_error in Hrun.
  - unfold applyUserRemove in Hrun.
    repeat (case_match || case_decide); simplify_eq; try done.
    by apply applyReadKeyReplaces_error in Hrun.
  - unfold applyUserInvite in Hrun. by simplify_eq.
  - unfold applyUserJoin in Hrun.
    repeat (case_match || case_decide); simplify_eq; try done;
      match goal with
      | Hd : decryptReadKeys _ _ = _ |- _ => by apply decryptReadKeys_error in Hd
      end.
  - by simplify_eq.
Qed.

Lemma applyContents_app pre post st :
  applyContents (pre ++ post) st =
    match applyContents pre st with
    | (Ok _, st1) => applyContents post st1
    | failed => failed
    end.
Proof.
  revert st. induction pre as [|ch pre IH]; simpl; intros st; [done|].
  destruct (applyChangeContent ch st) as [[[]|e|] st1]; by rewrite ?IH.
Qed.

(** A record is not applied as a whole: when one of its items fails, the
    record is refused with that item's error, and the state is the one the
    items before it have made. *)
Theorem applyRecord_partial record pre bad post st st1 e st2 :
  recId record <> id st ->
  recModel record = Some (ModelData (mkData (pre ++ bad :: post))) ->
  hasPermission st (recIdentity record) Admin = true ->
  applyContents pre st = (Ok tt, st1) ->
  applyChangeContent bad st1 = (Err e, st2) ->
  applyRecord record st = (Err e, st2).
Proof.
  intros Hid Hmodel Hadmin Hpre Hbad. unfold applyRecord.
  rewrite decide_False, Hmodel by done.
  unfold applyChangeData, applyChangeDataBody. rewrite Hadmin.
  assert (is_Some (userStates st !! recIdentity record)) as [state ->].
  { unfold hasPermission in Hadmin. destruct (userStates st !! _); eauto. done. }
  simpl AclContent. rewrite applyContents_app, Hpre. simpl. rewrite Hbad.
  by destruct (isUserJoin _).
Qed.

(** *** Invites *)

Lemma applyRecord_invites record st r st' :
  applyRecord record st = (r, st') ->
  forall key, is_Some (userInvites st !! key) -> is_Some (userInvites st' !! key).
Proof.
  unfold applyRecord. intros Hrun. case_decide.
  - destruct (recModel record) as [[root|data]|]; simplify_eq; try done.
    unfold applyRoot in Hrun.
    match type of Hrun with
    | context [if ?b then saveReadKeyFromRoot ?root ?s else _] =>
        destruct b;
          [destruct (saveReadKeyFromRoot root s) as [r1 st1] eqn:Hsave;
           apply saveReadKeyFromRoot_users in Hsave as (_ & Hi & _)|]
    end.
    + destruct r1; simplify_eq; simpl in *; by rewrite ?Hi.
    + by simplify_eq.
  - repeat case_match; simplify_eq; try done;
      match goal with
      | Hd : applyChangeData _ _ _ _ = _ |- _ =>
          by apply applyChangeData_setup in Hd as (_ & Hgrow & _)
      end.
Qed.

(** No record takes an invite away: once [Invite] finds one under a key,
    it finds one after every further record, the join that used it
    included. *)
Theorem Invite_persists record st r st' key :
  applyRecord record st = (r, st') ->
  is_Some (Invite st key).1 -> is_Some (Invite st' key).1.
Proof.
  intros Hrun Hfound.
  assert (is_Some (userInvites st !! key)) as Hin.
  { unfold Invite in Hfound. destruct (userInvites st !! key); eauto. }
  destruct (applyRecord_invites _ _ _ _ Hrun key Hin) as [invite Hinvite].
  unfold Invite. rewrite Hinvite. simpl. eauto.
Qed.

(** A record that applies without an invite item of its own keeps every
    good invite good when it keeps the read key, and turns it into an old
    one when it rotates the read key. *)
Theorem Invite_after_record record data st st' key invite :
  recId record <> id st -> recModel record = Some (ModelData data) ->
  (forall c, UserInvite c ∉ AclContent data) ->
  applyRecord record st = (Ok tt, st') ->
  Invite st key = (Some invite, None) ->
  Invite st' key =
    (Some invite,
     if decide (recCurrentReadKeyHash record = currentReadKeyHash st)
     then None else Some ErrOldInvite).
Proof.
  intros Hid Hmodel Hnone Hrun Hinvite.
  apply applyRecord_data in Hrun as (data' & st1 & Hsrc & Hdata & ->); [|done].
  assert (data' = data) as -> by (destruct Hsrc as [?|[? _]]; congruence).
  pose proof (applyChangeData_rotation _ _ _ _ _ _ Hdata) as [_ Htotal].
  apply applyChangeData_setup in Hdata as (_ & _ & Hkeep).
  specialize (Hkeep Hnone).
  unfold Invite in *. simpl. rewrite Hkeep.
  destruct (userInvites st !! key) as [invite'|]; [|done].
  destruct (decide (Z.of_nat (length (inEncryptedReadKeys invite')) = totalReadKeys st))
    as [Hlen|]; [|done].
  injection Hinvite as ->. rewrite Htotal.
  destruct (decide (recCurrentReadKeyHash record = currentReadKeyHash st));
    [by rewrite decide_True|].
  rewrite decide_False; [done|]. rewrite Hlen. intros Heq.
  by apply (Go_int_incr_neq (totalReadKeys st)).
Qed.

(** A join is accepted only on an invite that is there, for an identity
    that is not, with a signature over the joiner's identity that the
    invite's accept key verifies; the joiner then holds the permission the
    invite names, and the invite stays. *)
Theorem applyUserJoin_accepted ch st st' :
  applyChangeContent (UserJoin ch) st = (Ok tt, st') ->
  exists invite verificationKey,
    userInvites st !! ujAcceptPubKey ch = Some invite /\
    userStates st !! ujIdentity ch = None /\
    PubKeyFromBytes (inAcceptPublicKey invite) = Some verificationKey /\
    Verify verificationKey (ujIdentity ch) (ujAcceptSignature ch) = Some true /\
    userStates st' =
      <[ujIdentity ch :=
          mkUserState (ujIdentity ch) (ujEncryptionKey ch) (inPermissions invite)]>
        (userStates st) /\
    userInvites st' = userInvites st.
Proof.
  simpl. unfold applyUserJoin. intros Hrun.
  destruct (userInvites st !! ujAcceptPubKey ch) as [invite|]; [|done].
  destruct (userStates st !! ujIdentity ch) eqn:Hnew; [done|].
  destruct (PubKeyFromBytes (inAcceptPublicKey invite)) as [vk|] eqn:Hvk; [|done].
  destruct (Verify vk (ujIdentity ch) (ujAcceptSignature ch)) as [[]|] eqn:Hverify;
    [|done|done].
  exists invite, vk. repeat (split; [done|]).
  case_decide.
  - destruct (decryptReadKeys (ujEncryptedReadKeys ch) st) as [r1 st1] eqn:Hkeys.
    pose proof (decryptReadKeys_frame _ _ _ _ Hkeys) as (_ & Hus & _).
    apply decryptReadKeys_setup in Hkeys as (_ & Hi).
    destruct r1; simplify_eq. simpl. by rewrite Hus, Hi.
  - by simplify_eq.
Qed.

(** *** The root record *)

Lemma saveReadKeyFromRoot_ok root st st' :
  saveReadKeyFromRoot root st = (Ok tt, st') ->
  exists key,
    Go.fnv64 (SymBytes key) = rootCurrentReadKeyHash root /\
    st' = set_totalReadKeys (Go.int_incr (totalReadKeys st))
            (set_userReadKeys (<[rootCurrentReadKeyHash root := key]> (userReadKeys st))
               (set_currentReadKeyHash (rootCurrentReadKeyHash root) st)).
Proof.
  unfold saveReadKeyFromRoot. intros Hrun.
  repeat (case_match || case_decide); simplify_eq; eauto.
Qed.

(** A root record names its author Admin in the snapshot before anything
    is checked, so whether or not it applies; when it applies the author is
    an Admin, and a state that holds the author's keys has counted one more
    read key, one that hashes to the hash the root announces. *)
Theorem applyRecord_root record root st r st' :
  recId record = id st -> recModel record = Some (ModelRoot root) ->
  applyRecord record st = (r, st') ->
  PermissionsAtRecord st' (id st) (rootIdentity root)
    = Ok (mkPair (rootIdentity root) Admin) /\
  (r = Ok tt ->
   hasPermission st' (rootIdentity root) Admin = true /\
   (is_Some (signingKey st) -> is_Some (encryptionKey st) ->
    identity st = rootIdentity root ->
    currentReadKeyHash st' = rootCurrentReadKeyHash root /\
    totalReadKeys st' = Go.int_incr (totalReadKeys st) /\
    exists key, CurrentReadKey st' = Ok key /\
                Go.fnv64 (SymBytes key) = rootCurrentReadKeyHash root)).
Proof.
  intros Hid Hmodel Hrun. unfold applyRecord in Hrun.
  rewrite decide_True, Hmodel in Hrun by done. unfold applyRoot in Hrun.
  set (st0 := set_permissionsAtRecord _ st) in Hrun.
  assert (permissionsAtRecord st0 !! id st = Some [mkPair (rootIdentity root) Admin])
    as Hsnap by (subst st0; simpl; by rewrite Hid, lookup_insert_eq).
  assert (forall s, permissionsAtRecord s = permissionsAtRecord st0 ->
            PermissionsAtRecord s (id st) (rootIdentity root)
              = Ok (mkPair (rootIdentity root) Admin)) as Hperm.
  { intros s Hs. unfold PermissionsAtRecord. rewrite Hs, Hsnap. simpl.
    by rewrite decide_True. }
  assert (forall s m,
            hasPermission
              (set_userStates (<[rootIdentity root :=
                 mkUserState (rootIdentity root) (rootEncryptionKey root) Admin]> m) s)
              (rootIdentity root) Admin = true) as Hadmin.
  { intros s m. unfold hasPermission. simpl. by rewrite lookup_insert_eq. }
  destruct (bool_decide (is_Some (signingKey st0)) &&
            bool_decide (is_Some (encryptionKey st0)) &&
            bool_decide (identity st0 = rootIdentity root)) eqn:Hown.
  - destruct (saveReadKeyFromRoot root st0) as [r1 st1] eqn:Hsave.
    pose proof (saveReadKeyFromRoot_users _ _ _ _ Hsave) as (_ & _ & Hs).
    destruct Hs as (_ & _ & _ & _ & Hs).
    destruct r1 as [[]|e|]; simplify_eq; (split; [by apply Hperm|]); [|done|done].
    intros _. split; [apply Hadmin|]. intros _ _ _.
    apply saveReadKeyFromRoot_ok in Hsave as (key & Hhash & ->).
    unfold CurrentReadKey. simpl. rewrite lookup_insert_eq. eauto.
  - simplify_eq. split; [by apply Hperm|]. intros _. split; [apply Hadmin|].
    intros Hsk Hek Hident. exfalso. subst st0. simpl in Hown.
    rewrite !bool_decide_true in Hown by done. done.
Qed.

End History.

(** ** Scenarios for the history properties *)

Lemma threeUsers_keyed : keyed threeUsers.
Proof. apply (@replay_keyed_from mockExternal). apply map_Forall_empty. Qed.

Lemma applyRecord_snapshot_witness :
  keyed threeUsers /\ recId removeBobRecord <> id threeUsers /\
  PermissionsAtRecord (@applyRecord mockExternal removeBobRecord threeUsers).2
    "rec-remove" "bob" = Err ErrNoSuchUser /\
  PermissionsAtRecord (@applyRecord mockExternal removeBobRecord threeUsers).2
    "rec-remove" "carol" = Ok (mkPair "carol" Reader).
Proof.
  assert (recId removeBobRecord <> id threeUsers) as Hid by done.
  assert (@applyRecord mockExternal removeBobRecord threeUsers
          = (Ok tt, (@applyRecord mockExternal removeBobRecord threeUsers).2)) as Hrun
    by (vm_compute; reflexivity).
  split; [exact threeUsers_keyed|]. split; [exact Hid|]. split.
  - etrans; [exact (@applyRecord_snapshot mockExternal _ _ _ "bob" threeUsers_keyed Hid Hrun)|].
    vm_compute. reflexivity.
  - etrans; [exact (@applyRecord_snapshot mockExternal _ _ _ "carol" threeUsers_keyed Hid Hrun)|].
    vm_compute. reflexivity.
Defined.

Lemma applyRecord_history_witness :
  "rec-add" <> recId removeBobRecord /\
  PermissionsAtRecord (@applyRecord mockExternal removeBobRecord threeUsers).2
    "rec-add" "bob" = Ok (mkPair "bob" Writer).
Proof.
  assert ("rec-add" <> recId removeBobRecord) as Hother by done.
  split; [exact Hother|].
  etrans; [exact (@applyRecord_history mockExternal removeBobRecord threeUsers _ _
                    "rec-add" "bob" (surjective_pairing _) (or_introl Hother))|].
  vm_compute. reflexivity.
Defined.

(** Adding [bob] a second time is refused and changes nothing. *)
Lemma applyChangeContent_error_witness :
  @applyChangeContent mockExternal (UserAdd (mkUserAdd "bob" "enc-bob-2" [] Admin)) threeUsers
    = (Err ErrUserAlreadyExists, threeUsers).
Proof.
  destruct (@applyChangeContent mockExternal
              (UserAdd (mkUserAdd "bob" "enc-bob-2" [] Admin)) threeUsers)
    as [r st'] eqn:Hrun.
  assert (r = Err ErrUserAlreadyExists) as ->
    by (vm_compute in Hrun; by injection Hrun as <- _).
  by rewrite (@applyChangeContent_error mockExternal _ _ _ _ Hrun).
Defined.

(** [alice] adds [dave] and then [bob] again in one record: the record is
    refused, and [dave] is a user all the same. *)
Definition addDaveAndBobRecord : ACLRecord :=
  dataRecord "rec-dave" 11 "alice"
    [UserAdd (mkUserAdd "dave" "enc-dave" [] Writer);
     UserAdd (mkUserAdd "bob" "enc-bob-2" [] Admin)].

Lemma applyRecord_partial_witness :
  exists st2,
    @applyRecord mockExternal addDaveAndBobRecord threeUsers
      = (Err ErrUserAlreadyExists, st2) /\
    hasPermission st2 "dave" Writer = true /\
    PermissionsAtRecord st2 "rec-dave" "dave" = Err ErrNoSuchRecord.
Proof.
  eexists. split.
  - apply (@applyRecord_partial mockExternal addDaveAndBobRecord
             [UserAdd (mkUserAdd "dave" "enc-dave" [] Writer)]
             (UserAdd (mkUserAdd "bob" "enc-bob-2" [] Admin)) []
             threeUsers
             (@applyContents mockExternal
                [UserAdd (mkUserAdd "dave" "enc-dave" [] Writer)] threeUsers).2).
    + done.
    + reflexivity.
    + vm_compute. reflexivity.
    + vm_compute. reflexivity.
    + vm_compute. reflexivity.
  - split; vm_compute; reflexivity.
Defined.

(** The invite [mallory] joined on is still there after the join. *)
Lemma Invite_persists_witness :
  is_Some (Invite invited "accept-key").1 /\
  is_Some (Invite (@applyRecord mockExternal joinAndPromoteRecord invited).2 "accept-key").1.
Proof.
  assert (is_Some (Invite invited "accept-key").1) as Hfound
    by (vm_compute; eauto).
  split; [exact Hfound|].
  exact (@Invite_persists mockExternal joinAndPromoteRecord invited _ _ "accept-key"
           (surjective_pairing _) Hfound).
Defined.

(** [alice] removes [bob] under a new read key 12: the invite she made
    under key 11 is now an old one. *)
Definition rotateRecord : ACLRecord :=
  dataRecord "rec-rotate" 12 "alice" [UserRemove (mkUserRemove "bob" [])].

Lemma Invite_after_record_witness :
  Invite invited "accept-key"
    = (Some (mkUserInvite "accept-key" ["k11-sealed"] Reader), None) /\
  Invite (@applyRecord mockExternal rotateRecord invited).2 "accept-key"
    = (Some (mkUserInvite "accept-key" ["k11-sealed"] Reader), Some ErrOldInvite).
Proof.
  assert (Invite invited "accept-key"
          = (Some (mkUserInvite "accept-key" ["k11-sealed"] Reader), None)) as Hgood
    by (vm_compute; reflexivity).
  split; [exact Hgood|].
  assert (recId rotateRecord <> id invited) as Hid by done.
  assert (forall c, UserInvite c ∉ [UserRemove (mkUserRemove "bob" [])]) as Hnone.
  { intros c Hin. apply list_elem_of_singleton in Hin. discriminate Hin. }
  assert (@applyRecord mockExternal rotateRecord invited
          = (Ok tt, (@applyRecord mockExternal rotateRecord invited).2)) as Hrun
    by (vm_compute; reflexivity).
  etrans; [exact (@Invite_after_record mockExternal rotateRecord _ invited _ "accept-key" _
                    Hid eq_refl Hnone Hrun Hgood)|].
  vm_compute. reflexivity.
Defined.

Lemma applyUserJoin_accepted_witness :
  exists st',
    @applyChangeContent mockExternal
      (UserJoin (mkUserJoin "mallory" "enc-mallory" ("accept-key" ++ "mallory")
                   "accept-key" [])) invited = (Ok tt, st') /\
    userStates st' !! "mallory" = Some (mkUserState "mallory" "enc-mallory" Reader).
Proof.
  eexists. split; [vm_compute; reflexivity|].
  match goal with
  | |- userStates ?st' !! _ = _ =>
      destruct (@applyUserJoin_accepted mockExternal
                  (mkUserJoin "mallory" "enc-mallory" ("accept-key" ++ "mallory")
                     "accept-key" []) invited st')
        as (invite & vk & Hinvite & _ & _ & _ & Hus & _)
  end.
  - vm_compute. reflexivity.
  - vm_compute in Hinvite. injection Hinvite as <-.
    rewrite Hus. simpl. by rewrite lookup_insert_eq.
Defined.

Lemma applyRecord_root_witness :
  PermissionsAtRecord aliceClient "acl" "alice" = Ok (mkPair "alice" Admin) /\
  hasPermission aliceClient "alice" Admin = true /\
  totalReadKeys aliceClient = 1 /\
  exists key, CurrentReadKey aliceClient = Ok key /\
              Go.fnv64 (@SymBytes mockExternal key) = readKeyHash.
Proof.
  assert (@applyRecord mockExternal sealedRootRecord
            (newACLStateWithKeys "acl" "alice" "sign-alice" "priv-alice")
          = (Ok tt, aliceClient)) as Hrun
    by (vm_compute; reflexivity).
  destruct (@applyRecord_root mockExternal sealedRootRecord _
              (newACLStateWithKeys "acl" "alice" "sign-alice" "priv-alice") _ _
              eq_refl eq_refl Hrun)
    as (Hsnap & Hok).
  destruct (Hok eq_refl) as (Hadmin & Hkeys).
  destruct Hkeys as (_ & Htotal & Hkey); [by eexists..|done|].
  repeat split; done.
Defined.


End ACL.

(* ===================================================================== *)
(** * HotSync (nodesync/hotsync) *)
(* ===================================================================== *)

Module HotSync.

Definition defaultSimRequests : Z := 300.

(** [hit] and [miss] are [*atomic.Uint32]: [None] is the nil pointer that
    [Init] leaves, [Some n] a counter that holds [n], wired in by
    [SetMetric]; [syncQueue] is a [map[string]struct{}]. *)
Record hotSync := mkHotSync {
  spaceQueue : list string;
  syncQueue : gset string;
  simultaneousSync : Z;
  hit : option Z;
  miss : option Z
}.

(** The space service as the scheduler sees it: [GetSpace] loads a space
    into the cache and reports an error or none, [CacheIds] is what
    [Cache().ForEach] enumerates. [W] is the state behind the service. *)
Class SpaceService (W : Type) := {
  GetSpace : W -> string -> option string * W;
  CacheIds : W -> gset string
}.

(** [Init]: a configured value of 0 selects the default, any other value
    is kept, a negative one too; the two counters are not set. *)
Definition Init (configured : Z) : hotSync :=
  mkHotSync [] ∅ (if decide (configured = 0) then defaultSimRequests else configured)
    None None.

Definition SetMetric (hit0 miss0 : option Z) (h : hotSync) : hotSync :=
  mkHotSync (spaceQueue h) (syncQueue h) (simultaneousSync h) hit0 miss0.

Definition min (x y : Z) : Z := if decide (x < y) then x else y.

Definition batchLen (h : hotSync) : Z :=
  min (simultaneousSync h - Z.of_nat (size (syncQueue h))) (Z.of_nat (length (spaceQueue h))).

Section Tick.
Context {W : Type} `{SpaceService W}.

(** [checkRemoved]: ids of [syncQueue] the cache no longer holds are
    dropped; the result is their number. *)
Definition checkRemoved (w : W) (h : hotSync) : nat * hotSync :=
  let kept := filter (fun id0 => id0 ∈ CacheIds w) (syncQueue h) in
  ((size (syncQueue h) - size kept)%nat,
   mkHotSync (spaceQueue h) kept (simultaneousSync h) (hit h) (miss h)).

(** What one load does to the scheduler: [h.hit.Add(1)] after a failed
    load, [h.miss.Add(1)] and the insertion in [syncQueue] after a good
    one. [Add] on a nil counter panics ([None]); on the good path that is
    before the id is inserted. *)
Definition countLoad (id0 : string) (err : option string) (h : hotSync) : option hotSync :=
  match err with
  | Some _ =>
      match hit h with
      | None => None
      | Some n =>
          Some (mkHotSync (spaceQueue h) (syncQueue h) (simultaneousSync h)
                  (Some (Go.uint32_add1 n)) (miss h))
      end
  | None =>
      match miss h with
      | None => None
      | Some n =>
          Some (mkHotSync (spaceQueue h) ({[id0]} ∪ syncQueue h) (simultaneousSync h)
                  (hit h) (Some (Go.uint32_add1 n)))
      end
  end.

(** The loop [for _, id := range cp] of [checkCache]. Besides the new
    state it returns the log of the loads it attempted, in order; [None]
    is a panic on a nil counter. *)
Fixpoint loadBatch (cp : list string) (w : W) (h : hotSync)
    : option (hotSync * W * list (string * option string)) :=
  match cp with
  | [] => Some (h, w, [])
  | id0 :: rest =>
      let '(err, w1) := GetSpace w id0 in
      match countLoad id0 err h with
      | None => None
      | Some h1 =>
          match loadBatch rest w1 h1 with
          | Some (h2, w2, log) => Some (h2, w2, (id0, err) :: log)
          | None => None
          end
      end
  end.

(** [checkCache], one periodic tick. [None] is a panic: that of the slice
    expression [h.spaceQueue[:newBatchLen]] on a negative bound, or that
    of the loop on a nil counter. *)
Definition checkCache (w : W) (h : hotSync)
    : option (hotSync * W * list (string * option string)) :=
  let '(_, h1) := checkRemoved w h in
  let newBatchLen := batchLen h1 in
  if decide (newBatchLen < 0) then None
  else
    let cp := take (Z.to_nat newBatchLen) (spaceQueue h1) in
    let h2 :=
      mkHotSync (drop (Z.to_nat newBatchLen) (spaceQueue h1)) (syncQueue h1)
        (simultaneousSync h1) (hit h1) (miss h1) in
    loadBatch cp w h2.

(** ** Reading the log of a tick *)

(** Ids whose load succeeded, and ids whose load failed, in order. *)
Definition loaded (log : list (string * option string)) : list string :=
  (filter (fun a => a.2 = None) log).*1.

Definition failed (log : list (string * option string)) : list string :=
  (filter (fun a => is_Some a.2) log).*1.

(** [attempted w log w']: the log is what [GetSpace] answered, one call
    per entry, each on the state the previous call left. *)
Fixpoint attempted (w : W) (log : list (string * option string)) (w' : W) : Prop :=
  match log with
  | [] => w' = w
  | (id0, err) :: rest => exists w1, GetSpace w id0 = (err, w1) /\ attempted w1 rest w'
  end.

Lemma min_spec x y : min x y = Z.min x y.
Proof. unfold min. case_decide; lia. Qed.

Lemma batchLen_le_queue h : batchLen h <= Z.of_nat (length (spaceQueue h)).
Proof. unfold batchLen. rewrite min_spec. lia. Qed.

Lemma size_list_to_set_le (l : list string) :
  (size (list_to_set l : gset string) <= length l)%nat.
Proof.
  induction l as [|x l IH].
  - done.
  - change (list_to_set (x :: l) : gset string) with ({[x]} ∪ list_to_set l : gset string).
    rewrite size_union_alt, size_singleton. simpl.
    assert (size (list_to_set l ∖ {[x]} : gset string) <= size (list_to_set l : gset string))%nat
      by (apply subseteq_size; set_solver).
    lia.
Qed.

Lemma iter_shift {A} (f : A -> A) (k : nat) (x : A) :
  Nat.iter k f (f x) = f (Nat.iter k f x).
Proof. induction k as [|k IH]; simpl; congruence. Qed.

Lemma countLoad_spec id0 err h h1 :
  countLoad id0 err h = Some h1 ->
  spaceQueue h1 = spaceQueue h /\ simultaneousSync h1 = simultaneousSync h /\
  match err with
  | Some _ =>
      hit h1 = Go.uint32_add1 <$> hit h /\ miss h1 = miss h /\
      syncQueue h1 = syncQueue h
  | None =>
      hit h1 = hit h /\ miss h1 = Go.uint32_add1 <$> miss h /\
      syncQueue h1 = {[id0]} ∪ syncQueue h
  end.
Proof.
  unfold countLoad. destruct err as [e|].
  - destruct (hit h) as [n|]; [|done]. intros [= <-]. by repeat split.
  - destruct (miss h) as [n|]; [|done]. intros [= <-]. by repeat split.
Qed.

Lemma iter_fmap_shift (k : nat) (counter : option Z) :
  Nat.iter k Go.uint32_add1 <$> (Go.uint32_add1 <$> counter)
  = Nat.iter (S k) Go.uint32_add1 <$> counter.
Proof. destruct counter as [n|]; [|done]. simpl. by rewrite iter_shift. Qed.

Lemma loadBatch_spec cp w h h' w' log :
  loadBatch cp w h = Some (h', w', log) ->
  log.*1 = cp /\
  attempted w log w' /\
  hit h' = Nat.iter (length (failed log)) Go.uint32_add1 <$> hit h /\
  miss h' = Nat.iter (length (loaded log)) Go.uint32_add1 <$> miss h /\
  syncQueue h' = list_to_set (loaded log) ∪ syncQueue h /\
  spaceQueue h' = spaceQueue h /\
  simultaneousSync h' = simultaneousSync h.
Proof.
  revert w h h' w' log.
  induction cp as [|id0 rest IH]; intros w h h' w' log Hrun; simpl in Hrun.
  - simplify_eq. simpl. split; [done|]. split; [done|].
    split; [by destruct (hit h')|]. split; [by destruct (miss h')|].
    split; [set_solver|done].
  - destruct (GetSpace w id0) as [err w1] eqn:Hget.
    destruct (countLoad id0 err h) as [h1|] eqn:Hcount; [|done].
    destruct (loadBatch rest w1 h1) as [[[h2 w2] log2]|] eqn:Hrest; [|done].
    simplify_eq.
    apply IH in Hrest as (Hids & Hatt & Hhit & Hmiss & Hsync & Hq & Hsim).
    apply countLoad_spec in Hcount as (Hq1 & Hsim1 & Hcount).
    unfold loaded, failed in *.
    split; [simpl; by f_equal|]. split; [simpl; eauto|].
    destruct err as [e|]; destruct Hcount as (Hhit1 & Hmiss1 & Hsync1).
    + rewrite (filter_cons_False (fun a => a.2 = None)) by done.
      rewrite (filter_cons_True (fun a => is_Some a.2)) by (simpl; eauto).
      rewrite Hhit, Hhit1, Hmiss, Hmiss1, Hsync, Hsync1, Hq, Hq1, Hsim, Hsim1.
      simpl length. by rewrite iter_fmap_shift.
    + rewrite (filter_cons_True (fun a => a.2 = None)) by done.
      rewrite (filter_cons_False (fun a => is_Some a.2)) by (simpl; by intros [? ?]).
      rewrite Hhit, Hhit1, Hmiss, Hmiss1, Hsync, Hsync1, Hq, Hq1, Hsim, Hsim1.
      simpl length. rewrite iter_fmap_shift.
      repeat split; try done. simpl. set_solver.
Qed.

(** With both counters wired the loop does not panic. *)
Lemma loadBatch_wired cp w h :
  is_Some (hit h) -> is_Some (miss h) -> is_Some (loadBatch cp w h).
Proof.
  revert w h. induction cp as [|id0 rest IH]; intros w h Hhit Hmiss; simpl; [eauto|].
  destruct (GetSpace w id0) as [err w1].
  destruct Hhit as [n Hhit], Hmiss as [m Hmiss].
  assert (exists h1, countLoad id0 err h = Some h1 /\ is_Some (hit h1) /\ is_Some (miss h1))
    as (h1 & -> & Hhit1 & Hmiss1).
  { unfold countLoad. rewrite Hhit, Hmiss.
    destruct err; eexists; (split; [done|]); simpl; eauto. }
  destruct (IH w1 h1 Hhit1 Hmiss1) as [[[h2 w2] log] ->]. eauto.
Qed.

Lemma checkRemoved_shrinks (w : W) (h : hotSync) :
  (size (syncQueue (checkRemoved w h).2) <= size (syncQueue h))%nat.
Proof. unfold checkRemoved. simpl. apply subseteq_size. set_solver. Qed.

(** C7. A tick on a scheduler within its budget ([syncQueue] holds at
    most [simultaneousSync] ids) and with both counters wired returns;
    once the evicted ids are pruned it takes exactly
    [n = min (simultaneousSync - |syncQueue|) |spaceQueue|] ids off the
    front of [spaceQueue] and attempts one load for each, in order; [hit]
    is incremented once per failed load, [miss] once per successful load,
    and exactly the successfully loaded ids are inserted in [syncQueue]. *)
Theorem checkCache_batch (w : W) (h : hotSync) (hit0 miss0 : Z) :
  Z.of_nat (size (syncQueue h)) <= simultaneousSync h ->
  hit h = Some hit0 -> miss h = Some miss0 ->
  let h1 := (checkRemoved w h).2 in
  let n :=
    Z.min (simultaneousSync h - Z.of_nat (size (syncQueue h1)))
          (Z.of_nat (length (spaceQueue h))) in
  exists h' w' log,
    checkCache w h = Some (h', w', log) /\
    length log = Z.to_nat n /\
    log.*1 = take (Z.to_nat n) (spaceQueue h) /\
    spaceQueue h' = drop (Z.to_nat n) (spaceQueue h) /\
    attempted w log w' /\
    hit h' = Some (Nat.iter (length (failed log)) Go.uint32_add1 hit0) /\
    miss h' = Some (Nat.iter (length (loaded log)) Go.uint32_add1 miss0) /\
    syncQueue h' = list_to_set (loaded log) ∪ syncQueue h1.
Proof.
  intros Hbudget Hhit0 Hmiss0. cbv zeta.
  pose proof (checkRemoved_shrinks w h) as Hshrink.
  unfold checkCache.
  destruct (checkRemoved w h) as [removed h1] eqn:Hrem. simpl in *.
  assert (spaceQueue h1 = spaceQueue h /\ simultaneousSync h1 = simultaneousSync h
          /\ hit h1 = hit h /\ miss h1 = miss h) as (Hq & Hsim & Hhit & Hmiss).
  { unfold checkRemoved in Hrem. by simplify_eq. }
  assert (batchLen h1 =
          Z.min (simultaneousSync h - Z.of_nat (size (syncQueue h1)))
                (Z.of_nat (length (spaceQueue h)))) as Hn.
  { unfold batchLen. by rewrite min_spec, Hsim, Hq. }
  rewrite Hn.
  destruct (decide (_ < 0)) as [|_]; [lia|].
  match goal with
  | |- context [loadBatch ?cp w ?h2] =>
      destruct (loadBatch_wired cp w h2) as [[[h' w'] log] Hrun];
        [simpl; rewrite Hhit, Hhit0; eauto|simpl; rewrite Hmiss, Hmiss0; eauto|]
  end.
  rewrite Hrun.
  apply loadBatch_spec in Hrun as (Hids & Hatt & Hh & Hm & Hs & Hq' & _).
  simpl in *. exists h', w', log.
  split; [done|]. split.
  { rewrite <- (length_fmap fst), Hids, length_take, Hq. lia. }
  split; [by rewrite Hids, Hq|].
  split; [by rewrite Hq', Hq|].
  split; [done|].
  split; [by rewrite Hh, Hhit, Hhit0|].
  split; [by rewrite Hm, Hmiss, Hmiss0|done].
Qed.


End Tick.

(** ** A scenario

    A stand-in space service: a space loads when it is in [stored], and a
    loaded space is in the cache. *)
Record mockService := mkMock { stored : gset string; cached : gset string }.

#[global] Instance mockSpaceService : SpaceService mockService := {|
  GetSpace w id0 :=
    if decide (id0 ∈ stored w)
    then (None, mkMock (stored w) ({[id0]} ∪ cached w))
    else (Some "unknown space id", w);
  CacheIds := cached
|}.

(** Four cold spaces, a budget of two, both counters wired and at zero;
    space [b] does not load. *)
Definition coldNode : hotSync := mkHotSync ["a"; "b"; "c"; "d"] ∅ 2 (Some 0) (Some 0).
Definition coldService : mockService := mkMock {[ "a"; "c"; "d" ]} ∅.

Lemma checkCache_batch_witness :
  Z.of_nat (size (syncQueue coldNode)) <= simultaneousSync coldNode /\
  hit coldNode = Some 0 /\ miss coldNode = Some 0 /\
  exists h' w' log,
    checkCache coldService coldNode = Some (h', w', log) /\
    log = [("a", None); ("b", Some "unknown space id")] /\
    spaceQueue h' = ["c"; "d"] /\
    hit h' = Some 1 /\ miss h' = Some 1 /\
    syncQueue h' = {[ "a" ]}.
Proof.
  assert (Z.of_nat (size (syncQueue coldNode)) <= simultaneousSync coldNode) as Hbudget
    by (vm_compute; discriminate).
  split; [exact Hbudget|]. split; [reflexivity|]. split; [reflexivity|].
  destruct (checkCache_batch coldService coldNode 0 0 Hbudget eq_refl eq_refl)
    as (h' & w' & log & Hrun & _ & _ & Hq & _ & Hhit & Hmiss & Hsync).
  exists h', w', log. split; [exact Hrun|].
  assert (log = [("a", None); ("b", Some "unknown space id")]) as Hlog.
  { vm_compute in Hrun. by injection Hrun as _ _ ->. }
  rewrite Hlog in Hhit, Hmiss, Hsync.
  split; [exact Hlog|].
  split; [exact Hq|].
  split; [exact Hhit|].
  split; [exact Hmiss|].
  rewrite Hsync. vm_compute. reflexivity.
Defined.



(** Scenario S7: with a budget of two and everything loadable, one tick
    activates [a] and [b] and leaves [c] and [d] queued. *)
Example hot_sync_budget :
  let '(h', _, _) :=
    default (coldNode, coldService, [])
      (checkCache (mkMock {[ "a"; "b"; "c"; "d" ]} ∅) coldNode) in
  syncQueue h' = {[ "a"; "b" ]} /\ spaceQueue h' = ["c"; "d"] /\ miss h' = Some 2.
Proof. vm_compute. repeat split. Qed.

(** ** [UpdateQueue]

    [slices.Sort] and [slices.BinarySearch] come from
    golang.org/x/exp/slices. On strings, whose order is total, sorting has
    one possible result, the ascending rearrangement; [BinarySearch] is the
    library's loop, which is correct on sorted input only. *)

(** Go's [<] on strings: byte by byte, a proper prefix first. *)
Definition bytes (s : string) : list N := N_of_ascii <$> list_ascii_of_string s.

Definition string_lt (s1 s2 : string) : Prop := lexico (bytes s1) (bytes s2).

Definition string_le (s1 s2 : string) : Prop := ~ string_lt s2 s1.

Lemma bytes_inj s1 s2 : bytes s1 = bytes s2 -> s1 = s2.
Proof.
  revert s2. induction s1 as [|a s1 IH]; intros [|b s2] Heq; try done.
  injection Heq as Ha Hs. f_equal; [|by apply IH].
  by rewrite <- (ascii_N_embedding a), <- (ascii_N_embedding b), Ha.
Qed.

#[global] Instance string_lt_strict : StrictOrder string_lt.
Proof.
  split.
  - intros s. unfold complement, string_lt. apply irreflexivity, _.
  - intros s1 s2 s3. unfold string_lt. apply transitivity.
Qed.

#[global] Instance string_lt_dec : RelDecision string_lt.
Proof.
  intros s1 s2. unfold string_lt.
  destruct (trichotomyT lexico (bytes s1) (bytes s2)) as [[Hlt|Heq]|Hgt].
  - by left.
  - right. rewrite Heq. apply irreflexivity, _.
  - right. intros Hlt. apply (irreflexivity lexico (bytes s1)). by trans (bytes s2).
Defined.

#[global] Instance string_le_dec : RelDecision string_le.
Proof. intros s1 s2. unfold string_le. apply _. Defined.

Lemma string_lt_trichotomy s1 s2 : string_lt s1 s2 \/ s1 = s2 \/ string_lt s2 s1.
Proof.
  unfold string_lt.
  destruct (trichotomyT lexico (bytes s1) (bytes s2)) as [[Hlt|Heq]|Hgt]; auto.
  right. left. by apply bytes_inj.
Qed.

Lemma string_lt_empty s : s <> "" -> string_lt "" s.
Proof. destruct s; [done|]. intros _. exact I. Qed.

Lemma string_lt_not_empty s : ~ string_lt s "".
Proof. destruct s; intros []. Qed.

#[global] Instance string_le_total : Total string_le.
Proof.
  intros s1 s2. unfold string_le.
  destruct (decide (string_lt s2 s1)) as [Hlt|]; [|by left].
  right. intros Hgt. by apply (irreflexivity string_lt s1); trans s2.
Qed.

#[global] Instance string_le_trans : Transitive string_le.
Proof.
  intros s1 s2 s3 H12 H23 H31. unfold string_le in *.
  destruct (string_lt_trichotomy s1 s2) as [Hlt|[->|Hgt]]; [|done..].
  apply H23. by trans s1.
Qed.

(** [slices.Sort] on strings. *)
Definition Sort (x : list string) : list string := merge_sort string_le x.

(** The loop of [slices.BinarySearch]; [h] is [int(uint(i+j) >> 1)], and
    [i <= h < j <= len(x)] keeps the index [x[h]] in range. A search
    interval halves at least, so [len(x)] rounds are enough. *)
Fixpoint search (rounds : nat) (x : list string) (target : string) (i j : nat) : nat :=
  match rounds with
  | O => i
  | S rounds =>
      if decide (i < j)%nat then
        let h := ((i + j) / 2)%nat in
        if decide (string_lt (x !!! h) target)
        then search rounds x target (h + 1)%nat j
        else search rounds x target i h
      else i
  end.

(** [return i, i < n && x[i] == target] *)
Definition BinarySearch (x : list string) (target : string) : nat * bool :=
  let n := length x in
  let i := search n x target 0 n in
  (i, if decide (i < n)%nat then bool_decide (x !!! i = target) else false).

(** One round of the first loop: [changedIds[idx] = ""] when the search
    says the id is there. *)
Definition markQueued (changedIds : list string) (id0 : string) : list string :=
  match BinarySearch changedIds id0 with
  | (idx, true) => <[idx := ""]> changedIds
  | (_, false) => changedIds
  end.

(** [UpdateQueue]. The slice is the caller's and is sorted and marked in
    place: the second component is what the caller finds in it. *)
Definition UpdateQueue (changedIds : list string) (h : hotSync) : hotSync * list string :=
  let marked := foldl markQueued (Sort changedIds) (spaceQueue h) in
  (mkHotSync (spaceQueue h ++ filter (fun id0 => id0 <> "") marked)%list
     (syncQueue h) (simultaneousSync h) (hit h) (miss h),
   marked).

Lemma Sort_Permutation x : Sort x ≡ₚ x.
Proof. apply merge_sort_Permutation. Qed.

Lemma Sort_sorted x : StronglySorted string_le (Sort x).
Proof. unfold Sort. apply StronglySorted_merge_sort; apply _. Qed.

Lemma BinarySearch_found x target idx :
  BinarySearch x target = (idx, true) -> x !! idx = Some target.
Proof.
  unfold BinarySearch. intros Hrun. injection Hrun as <- Hfound.
  case_decide as Hlt; [|done]. apply bool_decide_eq_true in Hfound.
  rewrite (list_lookup_lookup_total_lt _ _ Hlt). by f_equal.
Qed.

Lemma StronglySorted_sublist_of {A} (R : relation A) (l k : list A) :
  l `sublist_of` k -> StronglySorted R k -> StronglySorted R l.
Proof.
  induction 1 as [|x l k Hsub IH|x l k Hsub IH]; intros Hsorted; [done|..];
    apply StronglySorted_cons in Hsorted as [Hall Hsorted]; [|by apply IH].
  apply StronglySorted_cons. split; [|by apply IH].
  apply Forall_forall. intros y Hy. rewrite Forall_forall in Hall.
  apply Hall. by eapply elem_of_sublist.
Qed.

(** An entry of the marked slice is the sorted one or a blank put in
    place of an id of the queue. *)
Definition markedFrom (queue : list string) (a b : string) : Prop :=
  a = b \/ (a = "" /\ b ∈ queue).

Lemma markQueued_markedFrom queue sorted marked id0 :
  id0 ∈ queue ->
  Forall2 (markedFrom queue) marked sorted ->
  Forall2 (markedFrom queue) (markQueued marked id0) sorted.
Proof.
  intros Hin Hinv. unfold markQueued.
  destruct (BinarySearch marked id0) as [idx []] eqn:Hfind; [|done].
  apply BinarySearch_found in Hfind.
  destruct (Forall2_lookup_l _ _ _ _ _ Hinv Hfind) as (b & Hb & Hrel).
  rewrite <- (list_insert_id sorted idx b Hb).
  apply Forall2_insert; [done|].
  right. split; [done|]. destruct Hrel as [->|[_ ?]]; done.
Qed.

Lemma foldl_markQueued_markedFrom queue sorted ids marked :
  ids ⊆ queue ->
  Forall2 (markedFrom queue) marked sorted ->
  Forall2 (markedFrom queue) (foldl markQueued marked ids) sorted.
Proof.
  revert marked. induction ids as [|id0 ids IH]; simpl; intros marked Hsub Hinv; [done|].
  apply IH; [set_solver|]. apply markQueued_markedFrom; [set_solver|done].
Qed.

Lemma markedFrom_sublist queue marked sorted :
  Forall2 (markedFrom queue) marked sorted ->
  filter (fun id0 => id0 <> "") marked `sublist_of` sorted.
Proof.
  induction 1 as [|a b marked sorted Hrel _ IH]; [done|].
  destruct (decide (a = "")) as [->|Hne].
  - rewrite filter_cons_False by (by intros ?). by apply sublist_cons.
  - rewrite filter_cons_True by done.
    destruct Hrel as [->|[? _]]; [|done]. by apply sublist_skip.
Qed.

Lemma markedFrom_kept queue marked sorted id0 :
  Forall2 (markedFrom queue) marked sorted ->
  id0 ∈ sorted -> id0 <> "" -> id0 ∉ queue ->
  id0 ∈ filter (fun id1 => id1 <> "") marked.
Proof.
  induction 1 as [|a b marked sorted Hrel _ IH]; intros Hin Hne Hnew.
  - by apply elem_of_nil in Hin.
  - apply elem_of_cons in Hin as [->|Hin].
    + destruct Hrel as [->|[_ ?]]; [|done].
      rewrite filter_cons_True by done. apply list_elem_of_here.
    + destruct (decide (a = "")).
      * rewrite filter_cons_False by (by intros ?). by apply IH.
      * rewrite filter_cons_True by done. apply list_elem_of_further. by apply IH.
Qed.

(** [UpdateQueue] only appends: the queue it finds stays in front, what
    it adds is taken from the sorted batch in ascending order and holds no
    empty id, and no id of the batch that is new to the queue is lost. The
    sets and counters of the scheduler are not touched. *)
Theorem UpdateQueue_appends (changedIds : list string) (h : hotSync) :
  exists added,
    spaceQueue (UpdateQueue changedIds h).1 = (spaceQueue h ++ added)%list /\
    (added `sublist_of` Sort changedIds) /\
    StronglySorted string_le added /\
    ("" ∉ added) /\
    (forall id0, id0 ∈ changedIds -> id0 <> "" -> id0 ∉ spaceQueue h -> id0 ∈ added) /\
    syncQueue (UpdateQueue changedIds h).1 = syncQueue h /\
    simultaneousSync (UpdateQueue changedIds h).1 = simultaneousSync h.
Proof.
  unfold UpdateQueue. simpl.
  set (marked := foldl markQueued (Sort changedIds) (spaceQueue h)).
  assert (Forall2 (markedFrom (spaceQueue h)) marked (Sort changedIds)) as Hinv.
  { apply foldl_markQueued_markedFrom; [done|].
    apply Forall_Forall2_diag, Forall_forall. intros ? _. by left. }
  exists (filter (fun id0 => id0 <> "") marked).
  pose proof (markedFrom_sublist _ _ _ Hinv) as Hsub.
  split; [done|]. split; [done|]. split.
  { eapply StronglySorted_sublist_of; [exact Hsub|apply Sort_sorted]. }
  split.
  { intros Hin. by apply list_elem_of_filter in Hin as [? _]. }
  split; [|done].
  intros id0 Hin Hne Hnew. eapply markedFrom_kept; eauto.
  by rewrite Sort_Permutation.
Qed.


(** *** The search on a sorted slice *)

Lemma half_between (i j : nat) : (i < j)%nat -> (i <= (i + j) / 2 < j)%nat.
Proof.
  intros Hlt. split.
  - apply Nat.div_le_lower_bound; lia.
  - apply Nat.Div0.div_lt_upper_bound; lia.
Qed.

Lemma search_step (rounds : nat) (x : list string) (target : string) (i j : nat) :
  search (S rounds) x target i j =
    if decide (i < j)%nat then
      if decide (string_lt (x !!! ((i + j) / 2)%nat) target)
      then search rounds x target ((i + j) / 2 + 1)%nat j
      else search rounds x target i ((i + j) / 2)%nat
    else i.
Proof. reflexivity. Qed.

(** [len(x)] rounds are enough on any slice, sorted or not: once the
    rounds cover the interval, further rounds change nothing. *)
Lemma search_rounds (rounds : nat) (x : list string) (target : string) (i j : nat) :
  (j - i <= rounds)%nat ->
  search (S rounds) x target i j = search rounds x target i j.
Proof.
  revert i j. induction rounds as [|rounds IH]; intros i j Hle.
  - rewrite search_step, decide_False by lia. reflexivity.
  - rewrite (search_step (S rounds) x target i j), (search_step rounds x target i j).
    destruct (decide (i < j)%nat) as [Hlt|]; [|done].
    pose proof (half_between i j Hlt).
    destruct (decide (string_lt (x !!! ((i + j) / 2)%nat) target)); apply IH; lia.
Qed.

(** When the test [x[h] < target] holds on an initial stretch of the
    slice and nowhere behind it, the loop ends on the end of that stretch. *)
Lemma search_boundary (x : list string) (target : string) (rounds i j : nat) :
  (forall h h', (h <= h')%nat -> (h' < length x)%nat ->
     string_lt (x !!! h') target -> string_lt (x !!! h) target) ->
  (i <= j <= length x)%nat -> (j - i <= rounds)%nat ->
  (forall h, (h < i)%nat -> string_lt (x !!! h) target) ->
  (forall h, (j <= h < length x)%nat -> ~ string_lt (x !!! h) target) ->
  (search rounds x target i j <= length x)%nat /\
  (forall h, (h < search rounds x target i j)%nat -> string_lt (x !!! h) target) /\
  (forall h, (search rounds x target i j <= h < length x)%nat ->
     ~ string_lt (x !!! h) target).
Proof.
  intros Hmono. revert i j.
  induction rounds as [|rounds IH]; intros i j Hij Hrounds Hlow Hhigh.
  - simpl. assert (i = j) as -> by lia. split; [lia|]. by split.
  - rewrite search_step. destruct (decide (i < j)%nat) as [Hlt|Hge].
    + pose proof (half_between i j Hlt) as Hh.
      destruct (decide (string_lt (x !!! ((i + j) / 2)%nat) target)) as [Hless|Hnot].
      * apply IH; [lia|lia| |done].
        intros h Hhlt. apply (Hmono h ((i + j) / 2)%nat); [lia|lia|done].
      * apply IH; [lia|lia|done|].
        intros h Hhge Hless. apply Hnot.
        apply (Hmono ((i + j) / 2)%nat h); [lia|lia|done].
    + assert (i = j) as -> by lia. split; [lia|]. by split.
Qed.

Lemma StronglySorted_lookup_lt {A} (R : relation A) (l : list A) (i j : nat) (a b : A) :
  StronglySorted R l -> (i < j)%nat -> l !! i = Some a -> l !! j = Some b -> R a b.
Proof.
  intros Hsorted. revert i j.
  induction Hsorted as [|x l _ IH Hall]; intros i j Hlt Hi Hj; [done|].
  destruct j as [|j]; [lia|]. simpl in Hj.
  destruct i as [|i]; simpl in Hi.
  - simplify_eq. rewrite Forall_forall in Hall. apply Hall.
    by eapply list_elem_of_lookup_2.
  - apply (IH i j); [lia|done..].
Qed.

Lemma StronglySorted_strict (l : list string) :
  StronglySorted string_le l -> NoDup l -> StronglySorted string_lt l.
Proof.
  induction 1 as [|x l _ IH Hall]; intros Hnodup; [constructor|].
  apply NoDup_cons in Hnodup as [Hx Hnodup].
  constructor; [by apply IH|].
  rewrite Forall_forall in *. intros y Hy.
  destruct (string_lt_trichotomy x y) as [?|[->|Hgt]]; [done|done|].
  by destruct (Hall y Hy).
Qed.

Lemma StronglySorted_lt_NoDup (l : list string) : StronglySorted string_lt l -> NoDup l.
Proof.
  induction 1 as [|x l _ IH Hall]; constructor; [|done].
  intros Hin. rewrite Forall_forall in Hall.
  by apply (irreflexivity string_lt x), Hall.
Qed.

(** *** Marking against an ascending queue *)

(** The slice after the ids of [queue] were searched for and blanked. *)
Definition blank (queue : list string) (id0 : string) : string :=
  if decide (id0 ∈ queue) then "" else id0.

Lemma markQueued_ascending (sorted done : list string) (id0 : string) :
  StronglySorted string_lt sorted ->
  id0 <> "" -> (forall p, p ∈ done -> string_lt p id0) ->
  markQueued (blank done <$> sorted) id0 = blank (done ++ [id0]) <$> sorted.
Proof.
  intros Hsorted Hne Hbelow.
  set (x := blank done <$> sorted).
  assert (length x = length sorted) as Hlen by apply length_fmap.
  assert (id0 ∉ done) as Hfresh.
  { intros Hin. by apply (irreflexivity string_lt id0), Hbelow. }
  assert (forall h, (h < length sorted)%nat ->
            x !!! h = blank done (sorted !!! h)) as Hx.
  { intros h Hh. subst x. by apply list_lookup_total_fmap. }
  assert (forall h, (h < length sorted)%nat ->
            string_lt (x !!! h) id0 <-> string_lt (sorted !!! h) id0) as Hsame.
  { intros h Hh. rewrite Hx by done. unfold blank. case_decide as Hin; [|done].
    split; intros _; [by apply Hbelow|by apply string_lt_empty]. }
  assert (forall h h', (h < h')%nat -> (h' < length sorted)%nat ->
            string_lt (sorted !!! h) (sorted !!! h')) as Horder.
  { intros h h' Hlt Hh'.
    apply (StronglySorted_lookup_lt string_lt sorted h h'); [done|done|..];
      apply list_lookup_lookup_total_lt; lia. }
  destruct (search_boundary x id0 (length x) 0 (length x)) as (Hr & Hlow & Hhigh).
  { intros h h' Hle Hh' Hless. rewrite Hlen in Hh'.
    destruct (decide (h = h')) as [->|]; [done|].
    apply Hsame; [lia|]. apply Hsame in Hless; [|done].
    trans (sorted !!! h'); [|done]. apply Horder; lia. }
  { lia. } { lia. } { intros h Hh. lia. } { intros h Hh. lia. }
  unfold markQueued, BinarySearch. fold x.
  set (r := search (length x) x id0 0 (length x)) in *.
  rewrite Hlen in Hr, Hhigh.
  assert (forall y, y <> id0 -> blank done y = blank (done ++ [id0]) y) as Hother.
  { intros y Hy. unfold blank.
    destruct (decide (y ∈ done)) as [Hin|Hnin].
    - rewrite decide_True; [done|]. apply elem_of_app. by left.
    - rewrite decide_False; [done|]. intros [?|Hy']%elem_of_app; [done|].
      by apply list_elem_of_singleton in Hy'. }
  destruct (decide (r < length x)%nat) as [Hin|Hout].
  - rewrite Hlen in Hin. case_bool_decide as Hhit.
    + assert (sorted !!! r = id0) as Hsr.
      { rewrite Hx in Hhit by done. unfold blank in Hhit. by case_decide. }
      apply list_eq. intros k. destruct (decide (k = r)) as [->|Hk].
      * rewrite list_lookup_insert_eq by lia. rewrite list_lookup_fmap.
        rewrite (list_lookup_lookup_total_lt sorted r) by done. simpl.
        rewrite Hsr. unfold blank. rewrite decide_True; [done|].
        apply elem_of_app. right. by apply list_elem_of_singleton.
      * rewrite list_lookup_insert_ne by done. subst x. rewrite !list_lookup_fmap.
        destruct (sorted !! k) as [y|] eqn:Hy; [|done]. simpl. f_equal.
        apply Hother. intros ->.
        assert (k < length sorted)%nat as Hklen by (by eapply lookup_lt_Some).
        assert (sorted !!! k = id0) as Hsk by (by apply list_lookup_total_correct).
        destruct (decide (k < r)%nat).
        -- apply (irreflexivity string_lt id0).
           rewrite <- Hsk at 1. rewrite <- Hsr. by apply Horder.
        -- apply (irreflexivity string_lt id0).
           rewrite <- Hsr at 1. rewrite <- Hsk. apply Horder; [lia|done].
    + apply list_fmap_ext. intros k y Hy. apply Hother. intros ->.
      assert (k < length sorted)%nat as Hklen by (by eapply lookup_lt_Some).
      assert (sorted !!! k = id0) as Hsk by (by apply list_lookup_total_correct).
      destruct (decide (k < r)%nat) as [Hkr|Hkr].
      * apply Hlow, Hsame in Hkr; [|done]. rewrite Hsk in Hkr.
        by apply (irreflexivity string_lt id0).
      * destruct (decide (k = r)) as [->|Hne'].
        -- apply Hhit. rewrite Hx by done. rewrite Hsk. unfold blank.
           by rewrite decide_False.
        -- apply (Hhigh r); [lia|]. apply Hsame; [done|].
           rewrite <- Hsk. apply Horder; [lia|done].
  - apply list_fmap_ext. intros k y Hy. apply Hother. intros ->.
    assert (k < length sorted)%nat as Hklen by (by eapply lookup_lt_Some).
    assert (sorted !!! k = id0) as Hsk by (by apply list_lookup_total_correct).
    assert (k < r)%nat as Hkr by lia.
    apply Hlow, Hsame in Hkr; [|done]. rewrite Hsk in Hkr.
    by apply (irreflexivity string_lt id0).
Qed.

Lemma foldl_markQueued_ascending (sorted done rest : list string) :
  StronglySorted string_lt sorted ->
  StronglySorted string_lt (done ++ rest) -> "" ∉ rest ->
  foldl markQueued (blank done <$> sorted) rest = blank (done ++ rest) <$> sorted.
Proof.
  intros Hsorted. revert done.
  induction rest as [|id0 rest IH]; intros done Hqueue Hne; simpl.
  - by rewrite app_nil_r.
  - rewrite markQueued_ascending; [|done|..].
    + rewrite IH; [by rewrite <- app_assoc| by rewrite <- app_assoc |].
      intros Hin. apply Hne. by apply list_elem_of_further.
    + intros ->. apply Hne, list_elem_of_here.
    + intros p Hp. apply StronglySorted_app in Hqueue as (Hcross & _ & _).
      apply Hcross; [done|apply list_elem_of_here].
Qed.

Lemma filter_blank (queue sorted : list string) :
  filter (fun id0 => id0 <> "") (blank queue <$> sorted)
  = filter (fun id0 => id0 <> "" /\ id0 ∉ queue) sorted.
Proof.
  induction sorted as [|y sorted IH]; [done|]. rewrite fmap_cons.
  unfold blank at 1. destruct (decide (y ∈ queue)) as [Hin|Hnin].
  - rewrite filter_cons_False by (by intros ?).
    rewrite (filter_cons_False _ y) by (by intros [_ ?]). done.
  - destruct (decide (y = "")) as [->|Hne].
    + rewrite filter_cons_False by (by intros ?).
      rewrite (filter_cons_False _ "") by (by intros [? _]). done.
    + rewrite filter_cons_True by done.
      rewrite (filter_cons_True _ y) by done. by rewrite IH.
Qed.

(** On a queue that is in ascending order, [UpdateQueue] with a batch
    without repeats appends exactly the ids of the batch that are not empty
    and not queued yet, in ascending order; the queue stays free of
    repeats, and the caller's slice comes back sorted with the queued ids
    blanked. *)
Theorem UpdateQueue_dedup (changedIds : list string) (h : hotSync) :
  StronglySorted string_lt (spaceQueue h) -> "" ∉ spaceQueue h -> NoDup changedIds ->
  spaceQueue (UpdateQueue changedIds h).1
    = (spaceQueue h ++
       filter (fun id0 => id0 <> "" /\ id0 ∉ spaceQueue h) (Sort changedIds))%list /\
  NoDup (spaceQueue (UpdateQueue changedIds h).1) /\
  (UpdateQueue changedIds h).2 = blank (spaceQueue h) <$> Sort changedIds.
Proof.
  intros Hqueue Hne Hnodup.
  assert (NoDup (Sort changedIds)) as Hnodup' by (by rewrite Sort_Permutation).
  pose proof (StronglySorted_strict _ (Sort_sorted changedIds) Hnodup') as Hsorted.
  assert (foldl markQueued (Sort changedIds) (spaceQueue h)
          = blank (spaceQueue h) <$> Sort changedIds) as Hmarked.
  { pose proof (foldl_markQueued_ascending (Sort changedIds) [] (spaceQueue h)
                  Hsorted Hqueue Hne) as Hfold.
    simpl in Hfold. rewrite <- Hfold. f_equal.
    symmetry. etrans; [|apply list_fmap_id].
    apply list_fmap_ext. intros k y _. unfold blank. rewrite decide_False; [done|].
    apply not_elem_of_nil. }
  unfold UpdateQueue. simpl. rewrite Hmarked, filter_blank.
  split; [done|]. split; [|done].
  apply NoDup_app. split; [by apply StronglySorted_lt_NoDup|]. split.
  - intros y Hy Hin. by apply list_elem_of_filter in Hin as [[_ ?] _].
  - by apply NoDup_filter.
Qed.


(** ** The scheduler over time

    [UpdateQueue] and the periodic [checkCache] run under one mutex, so a
    history of the scheduler is a sequence of the two. Between two of them
    the space service may have changed at will: each tick comes with the
    service state it finds. *)

Inductive Event (W : Type) :=
| Changed (changedIds : list string)
| Tick (w : W).
Arguments Changed {W} changedIds.
Arguments Tick {W} w.

Definition isChanged {W} (e : Event W) : Prop :=
  match e with Changed _ => True | Tick _ => False end.

Section Schedule.
Context {W : Type} `{SpaceService W}.

(** [run events h]: the scheduler after the events, the ids it tried to
    load and the ids [UpdateQueue] appended, both in order; [None] when a
    tick panicked. *)
Fixpoint run (events : list (Event W)) (h : hotSync)
    : option (hotSync * list string * list string) :=
  match events with
  | [] => Some (h, [], [])
  | Changed changedIds :: rest =>
      match run rest (UpdateQueue changedIds h).1 with
      | Some (h', attempts, pushes) =>
          Some (h', attempts,
                (filter (fun id0 => id0 <> "") (UpdateQueue changedIds h).2 ++ pushes)%list)
      | None => None
      end
  | Tick w :: rest =>
      match checkCache w h with
      | Some (h1, _, log) =>
          match run rest h1 with
          | Some (h', attempts, pushes) => Some (h', (log.*1 ++ attempts)%list, pushes)
          | None => None
          end
      | None => None
      end
  end.

Lemma UpdateQueue_queue (changedIds : list string) (h : hotSync) :
  spaceQueue (UpdateQueue changedIds h).1
  = (spaceQueue h ++ filter (fun id0 => id0 <> "") (UpdateQueue changedIds h).2)%list.
Proof. reflexivity. Qed.

Lemma UpdateQueue_budget (changedIds : list string) (h : hotSync) :
  syncQueue (UpdateQueue changedIds h).1 = syncQueue h /\
  simultaneousSync (UpdateQueue changedIds h).1 = simultaneousSync h.
Proof. done. Qed.

Lemma run_Changed (changedIds : list string) (rest : list (Event W)) (h : hotSync) :
  run (Changed changedIds :: rest) h =
    match run rest (UpdateQueue changedIds h).1 with
    | Some (h', attempts, pushes) =>
        Some (h', attempts,
              (filter (fun id0 => id0 <> "") (UpdateQueue changedIds h).2 ++ pushes)%list)
    | None => None
    end.
Proof. reflexivity. Qed.

Lemma run_Tick (w : W) (rest : list (Event W)) (h : hotSync) :
  run (Tick w :: rest) h =
    match checkCache w h with
    | Some (h1, _, log) =>
        match run rest h1 with
        | Some (h', attempts, pushes) => Some (h', (log.*1 ++ attempts)%list, pushes)
        | None => None
        end
    | None => None
    end.
Proof. reflexivity. Qed.

Lemma loadBatch_size cp w h h' w' log :
  loadBatch cp w h = Some (h', w', log) ->
  (size (syncQueue h') <= length cp + size (syncQueue h))%nat.
Proof.
  intros Hrun. apply loadBatch_spec in Hrun as (Hids & _ & _ & _ & -> & _ & _).
  rewrite size_union_alt.
  assert (size (syncQueue h ∖ list_to_set (loaded log)) <= size (syncQueue h))%nat
    by (apply subseteq_size; set_solver).
  assert (size (list_to_set (loaded log) : gset string) <= length cp)%nat.
  { etrans; [apply size_list_to_set_le|].
    unfold loaded. rewrite length_fmap, <- Hids, length_fmap. apply length_filter. }
  lia.
Qed.

(** One tick: it panics only when the budget is smaller than what is
    left of [syncQueue] or a counter is nil, and otherwise keeps the budget
    and the counters' wiring, ends within the budget and has tried the ids
    it took off the front of the queue. *)
Lemma checkCache_cases (w : W) (h : hotSync) :
  match checkCache w h with
  | None =>
      simultaneousSync h < Z.of_nat (size (syncQueue (checkRemoved w h).2)) \/
      hit h = None \/ miss h = None
  | Some (h', _, log) =>
      simultaneousSync h' = simultaneousSync h /\
      Z.of_nat (size (syncQueue h')) <= simultaneousSync h /\
      (log.*1 ++ spaceQueue h')%list = spaceQueue h /\
      (is_Some (hit h) -> is_Some (hit h')) /\
      (is_Some (miss h) -> is_Some (miss h'))
  end.
Proof.
  unfold checkCache. destruct (checkRemoved w h) as [removed h1] eqn:Hrem.
  assert (spaceQueue h1 = spaceQueue h /\ simultaneousSync h1 = simultaneousSync h
          /\ hit h1 = hit h /\ miss h1 = miss h)
    as (Hq & Hsim & Hhit & Hmiss) by (unfold checkRemoved in Hrem; by simplify_eq).
  simpl. pose proof (batchLen_le_queue h1) as Hle.
  assert (batchLen h1 =
          Z.min (simultaneousSync h1 - Z.of_nat (size (syncQueue h1)))
                (Z.of_nat (length (spaceQueue h1)))) as Hn
    by (unfold batchLen; by rewrite min_spec).
  destruct (decide (batchLen h1 < 0)) as [Hneg|Hpos]; [left; lia|].
  match goal with
  | |- context [loadBatch ?cp w ?h2] =>
      destruct (loadBatch cp w h2) as [[[h' w'] log]|] eqn:Hrun;
        [|pose proof (loadBatch_wired cp w h2) as Hwired]
  end.
  - pose proof (loadBatch_size _ _ _ _ _ _ Hrun) as Hsize.
    apply loadBatch_spec in Hrun as (Hids & _ & Hh & Hm & _ & Hq' & Hsim').
    simpl in *. rewrite length_take in Hsize.
    split; [congruence|]. split; [lia|].
    split; [by rewrite Hids, Hq', take_drop|].
    rewrite Hh, Hm, Hhit, Hmiss. split; intros [n ->]; simpl; eauto.
  - right. destruct (hit h) as [n|]; [|by left]. destruct (miss h) as [m|]; [|by right].
    exfalso. destruct Hwired as [out Hout];
      [simpl; rewrite Hhit; eauto|simpl; rewrite Hmiss; eauto|congruence].
Qed.

Lemma UpdateQueue_counters (changedIds : list string) (h : hotSync) :
  hit (UpdateQueue changedIds h).1 = hit h /\ miss (UpdateQueue changedIds h).1 = miss h.
Proof. done. Qed.

Lemma run_within_budget (events : list (Event W)) (h : hotSync) :
  Z.of_nat (size (syncQueue h)) <= simultaneousSync h ->
  is_Some (hit h) -> is_Some (miss h) ->
  is_Some (run events h).
Proof.
  revert h. induction events as [|[changedIds|w] rest IH]; intros h Hbudget Hhit Hmiss.
  - simpl. eauto.
  - rewrite run_Changed. destruct (UpdateQueue_budget changedIds h) as [Hsync Hsim].
    destruct (UpdateQueue_counters changedIds h) as [Hh Hm].
    destruct (IH (UpdateQueue changedIds h).1) as [[[h' attempts] pushes] ->];
      [by rewrite Hsync, Hsim|by rewrite Hh|by rewrite Hm|eauto].
  - rewrite run_Tick. pose proof (checkCache_cases w h) as Hcases.
    pose proof (checkRemoved_shrinks w h) as Hshrink.
    destruct (checkCache w h) as [[[h1 w1] log]|].
    + destruct Hcases as (Hsim & Hsize & _ & Hh & Hm).
      destruct (IH h1) as [[[h' attempts] pushes] ->]; [lia|eauto..].
    + destruct Hhit as [n Hhit], Hmiss as [m Hmiss].
      destruct Hcases as [?|[?|?]]; [lia|congruence|congruence].
Qed.

Lemma run_without_budget (events : list (Event W)) (h : hotSync) :
  simultaneousSync h < 0 -> is_Some (run events h) -> Forall isChanged events.
Proof.
  revert h. induction events as [|[changedIds|w] rest IH]; intros h Hneg Hrun.
  - constructor.
  - rewrite run_Changed in Hrun.
    constructor; [done|]. apply (IH (UpdateQueue changedIds h).1).
    + by destruct (UpdateQueue_budget changedIds h) as [_ ->].
    + destruct (run rest _) as [[[? ?] ?]|]; [eauto|by destruct Hrun].
  - rewrite run_Tick in Hrun.
    exfalso. pose proof (checkCache_cases w h) as Hcases.
    destruct (checkCache w h) as [[[h1 w1] log]|]; [|by destruct Hrun].
    destruct Hcases as (_ & Hsize & _). lia.
Qed.

Lemma run_changes_only (events : list (Event W)) (h : hotSync) :
  Forall isChanged events -> is_Some (run events h).
Proof.
  intros Hall. revert h.
  induction Hall as [|[changedIds|w] rest Hc _ IH]; intros h; [simpl; eauto| |done].
  rewrite run_Changed.
  destruct (IH (UpdateQueue changedIds h).1) as [[[h' attempts] pushes] ->]. eauto.
Qed.

(** A scheduler set up by [Init] and given its two counters by
    [SetMetric] gets through every history when the configured number of
    simultaneous requests is not negative; with a negative number the first
    tick of any history panics. *)
Theorem run_from_Init (configured hit0 miss0 : Z) (events : list (Event W)) :
  is_Some (run events (SetMetric (Some hit0) (Some miss0) (Init configured)))
  <-> 0 <= configured \/ Forall isChanged events.
Proof.
  split.
  - intros Hrun. destruct (decide (0 <= configured)) as [|Hneg]; [by left|].
    right. eapply run_without_budget; [|exact Hrun].
    unfold SetMetric, Init. simpl. case_decide; lia.
  - intros [Hpos|Hall]; [|by apply run_changes_only].
    apply run_within_budget; [|simpl; eauto..].
    unfold SetMetric, Init, defaultSimRequests.
    change (syncQueue (mkHotSync _ _ _ _ _)) with (∅ : gset string).
    rewrite size_empty. simpl. case_decide; lia.
Qed.

(** Nothing is lost, repeated or reordered on the way through the
    queue: along any history, the ids tried so far followed by the ids
    still queued are the ids queued at the start followed by the ids
    appended since. *)
Theorem run_fifo (events : list (Event W)) (h h' : hotSync) (attempts pushes : list string) :
  run events h = Some (h', attempts, pushes) ->
  (attempts ++ spaceQueue h')%list = (spaceQueue h ++ pushes)%list.
Proof.
  revert h attempts pushes.
  induction events as [|[changedIds|w] rest IH]; intros h attempts pushes Hrun.
  - simpl in Hrun. simplify_eq. by rewrite app_nil_r.
  - rewrite run_Changed in Hrun.
    destruct (run rest _) as [[[h2 attempts2] pushes2]|] eqn:Hrest; [|done].
    simplify_eq. rewrite (IH _ _ _ Hrest), UpdateQueue_queue. by rewrite app_assoc.
  - rewrite run_Tick in Hrun. pose proof (checkCache_cases w h) as Hcases.
    destruct (checkCache w h) as [[[h1 w1] log]|]; [|done].
    destruct Hcases as (_ & _ & Hqueue & _).
    destruct (run rest h1) as [[[h2 attempts2] pushes2]|] eqn:Hrest; [|done].
    simplify_eq. rewrite <- app_assoc, (IH _ _ _ Hrest), app_assoc. by rewrite Hqueue.
Qed.

End Schedule.

(** ** Scenarios for the queue *)

(** Two batches on a fresh scheduler: the second finds the queue in
    ascending order and adds what is new. *)
Definition firstBatch : hotSync := (UpdateQueue ["c"; "a"] (Init 2)).1.

Lemma UpdateQueue_dedup_witness :
  StronglySorted string_lt (spaceQueue firstBatch) /\
  spaceQueue firstBatch = ["a"; "c"] /\
  spaceQueue (UpdateQueue ["d"; "c"; "b"; ""] firstBatch).1 = ["a"; "c"; "b"; "d"] /\
  (UpdateQueue ["d"; "c"; "b"; ""] firstBatch).2 = [""; "b"; ""; "d"].
Proof.
  assert (StronglySorted string_lt (spaceQueue firstBatch)) as Hsorted.
  { change (spaceQueue firstBatch) with ["a"; "c"].
    repeat constructor; by vm_compute. }
  assert ("" ∉ spaceQueue firstBatch) as Hne.
  { change (spaceQueue firstBatch) with ["a"; "c"].
    rewrite !not_elem_of_cons. repeat split; try done. apply not_elem_of_nil. }
  assert (NoDup ["d"; "c"; "b"; ""]) as Hnodup.
  { repeat (apply NoDup_cons; split;
            [rewrite ?not_elem_of_cons; repeat split; try done; apply not_elem_of_nil|]).
    apply NoDup_nil_2. }
  destruct (UpdateQueue_dedup ["d"; "c"; "b"; ""] firstBatch Hsorted Hne Hnodup)
    as (Hqueue & _ & Hslice).
  split; [exact Hsorted|]. split; [reflexivity|]. split.
  - rewrite Hqueue. vm_compute. reflexivity.
  - rewrite Hslice. vm_compute. reflexivity.
Defined.

(** The precondition is not idle. The queue [["b"; "a"]] is not in
    ascending order: blanking [b] in the sorted batch breaks the order the
    search for [a] relies on, the search misses, and [a] is queued twice. *)
Example UpdateQueue_unsorted_queue :
  spaceQueue (UpdateQueue ["a"; "b"; "c"] (mkHotSync ["b"; "a"] ∅ 2 None None)).1
    = ["b"; "a"; "a"; "c"].
Proof. vm_compute. reflexivity. Qed.

(** A scheduler as the node sets it up: [Init] with a budget of two, then
    [SetMetric] with two counters at zero. *)
Definition wired : hotSync := SetMetric (Some 0) (Some 0) (Init 2).

(** A batch, a tick, a second batch and a second tick on the scenario
    service. *)
Definition twoRounds : list (Event mockService) :=
  [Changed ["c"; "b"; "a"]; Tick coldService; Changed ["d"; "a"]; Tick coldService].

Lemma run_fifo_witness :
  exists h',
    run twoRounds wired = Some (h', ["a"; "b"; "c"; "a"], ["a"; "b"; "c"; "a"; "d"]) /\
    spaceQueue h' = ["d"].
Proof.
  eexists. split; [vm_compute; reflexivity|].
  match goal with
  | |- spaceQueue ?h' = _ =>
      pose proof (run_fifo twoRounds wired h' ["a"; "b"; "c"; "a"]
                    ["a"; "b"; "c"; "a"; "d"]) as Hfifo
  end.
  specialize (Hfifo ltac:(vm_compute; reflexivity)).
  simpl in Hfifo. by simplify_list_eq.
Defined.

(** C7, as stated for every tick, fails. [Init] keeps a negative
    configured value: with the counters wired and [a] queued, the claim's
    [n] is [min (-1 - 0) 1 = -1], the slice expression
    [h.spaceQueue[:newBatchLen]] panics, and the tick neither takes [a]
    off the queue nor attempts a load. *)
Definition overdrawn : hotSync :=
  (UpdateQueue ["a"] (SetMetric (Some 0) (Some 0) (Init (-1)))).1.

Lemma negative_budget_tick_panics :
  overdrawn = mkHotSync ["a"] ∅ (-1) (Some 0) (Some 0) /\
  batchLen (checkRemoved coldService overdrawn).2 = -1 /\
  checkCache coldService overdrawn = None.
Proof. vm_compute. repeat split. Qed.

(** Nor does a tick go through on a scheduler that [Init] alone has set
    up: the counters are nil, and the first load panics on its [Add]. *)
Example tick_without_SetMetric :
  batchLen (UpdateQueue ["a"] (Init 2)).1 = 1 /\
  checkCache coldService (UpdateQueue ["a"] (Init 2)).1 = None /\
  checkCache coldService (UpdateQueue ["a"] wired).1 <> None.
Proof. vm_compute. repeat split. discriminate. Qed.


End HotSync.

(* ===================================================================== *)
(** * nodePeerManager (nodespace/peermanager/manager.go) *)
(* ===================================================================== *)

Module PeerManager.

(** Instants and durations are nanosecond counts; [time.Since t] at clock
    reading [now] is [now - t]. ([time.Duration] saturates at the ends of
    [int64]; [time.Minute] lies inside, so comparing with it is not
    affected.) The zero [time.Time] is instant 0. *)
Definition Minute : Z := 60 * 1000000000.
Definition reconnectTimeout : Z := Minute.

Record responsiblePeer := mkPeer { peerId : string; lastFail : Z }.

Record nodePeerManager := mkManager {
  spaceId : string;
  responsiblePeers : list responsiblePeer;
  responsiblePeersUpdated : Z
}.

Section Manager.
(** [n.p.nodeconf.NodeIds]: the node ids the configuration gives a space. *)
Variable NodeIds : string -> list string.

(** The guard of the fast path of [getResponsiblePeersObjects]. *)
Definition upToDate (now : Z) (n : nodePeerManager) : bool :=
  bool_decide (length (responsiblePeers n) <> 0%nat)
  && bool_decide (now - responsiblePeersUpdated n < Minute).

(** [getResponsiblePeersObjects]. The call reads the clock twice: [now]
    in [time.Since] and [stamp] in the [time.Now()] it stores. *)
Definition getResponsiblePeersObjects (now stamp : Z) (n : nodePeerManager)
    : list responsiblePeer * nodePeerManager :=
  if upToDate now n then (responsiblePeers n, n)
  else
    let peers :=
      (responsiblePeers n ++ ((fun id0 => mkPeer id0 0) <$> NodeIds (spaceId n)))%list in
    (peers, mkManager (spaceId n) peers stamp).

(** [isResponsible]. *)
Definition isResponsible (now stamp : Z) (peer : string) (n : nodePeerManager)
    : bool * nodePeerManager :=
  let '(peers, n') := getResponsiblePeersObjects now stamp n in
  (existsb (fun rp => bool_decide (peerId rp = peer)) peers, n').

(** A history of calls, each with its two clock readings, and the number
    of them that took the refreshing path. *)
Fixpoint calls (clock : list (Z * Z)) (n : nodePeerManager) : nodePeerManager :=
  match clock with
  | [] => n
  | (now, stamp) :: rest => calls rest (getResponsiblePeersObjects now stamp n).2
  end.

Fixpoint refreshes (clock : list (Z * Z)) (n : nodePeerManager) : nat :=
  match clock with
  | [] => 0
  | (now, stamp) :: rest =>
      (if upToDate now n then 0 else 1)
      + refreshes rest (getResponsiblePeersObjects now stamp n).2
  end%nat.

(** ** Theorems *)

Definition peerIds (n : nodePeerManager) : list string := peerId <$> responsiblePeers n.

(** How often [peer] occurs in a list of ids. *)
Definition occurrences (peer : string) (ids : list string) : nat :=
  length (filter (fun id0 => id0 = peer) ids).

Lemma occurrences_app peer ids1 ids2 :
  occurrences peer (ids1 ++ ids2) = (occurrences peer ids1 + occurrences peer ids2)%nat.
Proof. unfold occurrences. by rewrite filter_app, length_app. Qed.

Lemma occurrences_absent peer ids : peer ∉ ids -> occurrences peer ids = 0%nat.
Proof.
  unfold occurrences. induction ids as [|id0 ids IH]; intros Hnotin; [done|].
  apply not_elem_of_cons in Hnotin as [Hne Hnotin].
  rewrite filter_cons_False by congruence. by apply IH.
Qed.

Lemma occurrences_NoDup peer ids :
  NoDup ids -> peer ∈ ids -> occurrences peer ids = 1%nat.
Proof.
  induction 1 as [|id0 ids Hnotin Hnodup IH]; intros Hin.
  - by apply elem_of_nil in Hin.
  - apply elem_of_cons in Hin as [->|Hin].
    + pose proof (occurrences_absent _ _ Hnotin) as Habs.
      unfold occurrences in *. rewrite filter_cons_True by done.
      simpl. by rewrite Habs.
    + specialize (IH Hin). unfold occurrences in *.
      rewrite filter_cons_False; [done|]. intros ->. done.
Qed.

(** The fast path is left exactly when the list is empty or its stamp is
    a minute old. *)
Lemma upToDate_false now n :
  upToDate now n = false <->
  responsiblePeers n = [] \/ Minute <= now - responsiblePeersUpdated n.
Proof.
  unfold upToDate. rewrite andb_false_iff, !bool_decide_eq_false.
  split.
  - intros [Hlen|Hold]; [left|right; lia].
    destruct (responsiblePeers n); [done|]. by destruct Hlen.
  - intros [->|Hold]; [left|right; lia]. simpl. by intros Hne.
Qed.

(** One call either returns the list as it is or appends the configured
    node ids to it. *)
Lemma getResponsiblePeersObjects_step now stamp n :
  let n' := (getResponsiblePeersObjects now stamp n).2 in
  spaceId n' = spaceId n /\
  peerIds n' =
    (peerIds n ++ (if upToDate now n then [] else NodeIds (spaceId n)))%list.
Proof.
  unfold getResponsiblePeersObjects, peerIds.
  destruct (upToDate now n); simpl.
  - by rewrite app_nil_r.
  - split; [done|]. rewrite fmap_app. f_equal.
    rewrite <- list_fmap_compose. by apply list_fmap_id.
Qed.

Lemma calls_peerIds clock n :
  spaceId (calls clock n) = spaceId n /\
  peerIds (calls clock n) =
    (peerIds n ++ concat (replicate (refreshes clock n) (NodeIds (spaceId n))))%list.
Proof.
  revert n. induction clock as [|[now stamp] rest IH]; intros n; simpl.
  - by rewrite app_nil_r.
  - destruct (IH (getResponsiblePeersObjects now stamp n).2) as [Hid Hpeers].
    destruct (getResponsiblePeersObjects_step now stamp n) as [Hid1 Hstep].
    simpl in Hid1, Hstep.
    rewrite Hid, Hpeers, Hid1, Hstep. split; [done|].
    destruct (upToDate now n); simpl.
    + by rewrite app_nil_r.
    + by rewrite <- app_assoc.
Qed.

Lemma occurrences_concat_replicate peer k ids :
  occurrences peer (concat (replicate k ids)) = (k * occurrences peer ids)%nat.
Proof.
  induction k as [|k IH]; simpl; [done|].
  by rewrite occurrences_app, IH.
Qed.

(** C9. The list of responsible peers only grows. A call that refreshes
    (the list is empty, or its stamp is at least a minute old) appends the
    whole configured id list behind what is there. After a history of
    calls of which [k] refreshed, the list is the old one followed by [k]
    copies of the configured ids, so an id configured once occurs [k]
    times in a list that started empty. *)
Theorem responsiblePeers_append_only (clock : list (Z * Z)) (n : nodePeerManager)
    (peer : string) :
  let k := refreshes clock n in
  let ids := NodeIds (spaceId n) in
  (forall now stamp,
     responsiblePeers n = [] \/ Minute <= now - responsiblePeersUpdated n ->
     peerIds (getResponsiblePeersObjects now stamp n).2 = (peerIds n ++ ids)%list) /\
  peerIds (calls clock n) = (peerIds n ++ concat (replicate k ids))%list /\
  occurrences peer (peerIds (calls clock n)) =
    (occurrences peer (peerIds n) + k * occurrences peer ids)%nat /\
  (responsiblePeers n = [] -> NoDup ids -> peer ∈ ids ->
   occurrences peer (peerIds (calls clock n)) = k).
Proof.
  cbv zeta. split.
  { intros now stamp Hold%upToDate_false.
    destruct (getResponsiblePeersObjects_step now stamp n) as [_ Hstep].
    simpl in Hstep. by rewrite Hstep, Hold. }
  destruct (calls_peerIds clock n) as [_ Hpeers].
  rewrite Hpeers, occurrences_app, occurrences_concat_replicate.
  split; [done|]. split; [done|].
  intros Hempty Hnodup Hin. unfold peerIds at 1. rewrite Hempty. simpl.
  rewrite (occurrences_NoDup _ _ Hnodup Hin). unfold occurrences. simpl. lia.
Qed.

End Manager.

(** Three node ids configured for every space; four calls, of which the
    first (empty list) and the third (stamp 70s old) refresh. *)
Example responsiblePeers_twice :
  let NodeIds := fun _ : string => ["n1"; "n2"; "n3"] in
  let fresh0 := mkManager "space" [] 0 in
  let clock := [(5, 6); (30, 31); (76 * 1000000000, 77 * 1000000000);
                (80 * 1000000000, 81 * 1000000000)] in
  refreshes NodeIds clock fresh0 = 2%nat /\
  peerIds (calls NodeIds clock fresh0) = ["n1"; "n2"; "n3"; "n1"; "n2"; "n3"].
Proof. vm_compute. done. Qed.

(** ** [getResponsiblePeers] *)

(** [pool.Pool.Get]: a peer or an error; the pool may change with it. *)
Class Pool (P : Type) := { Get : P -> string -> option string * P }.

Inductive PeersResult :=
| Peers (peers : list string)
| ErrUnableToConnect.

Section Connect.
Variable NodeIds : string -> list string.
Context {P : Type} `{Pool P}.

(** The loop of [getResponsiblePeers]. In [for _, rp := range ...] the
    variable [rp] is a copy of the list entry, a struct that holds its
    [atomic.Time] by value; [rp.lastFail.Store] therefore writes to the
    copy, which the next round overwrites, and the list is no output of the
    loop. [clock k] is what [time.Since] reads in round [k]. Besides the
    peers the loop returns the log of the ids it asked the pool for, and
    whether the pool gave a peer. *)
Fixpoint dial (clock : nat -> Z) (k : nat) (rps : list responsiblePeer) (p : P)
    : list string * list (string * bool) * P :=
  match rps with
  | [] => ([], [], p)
  | rp :: rest =>
      if decide (clock k - lastFail rp > reconnectTimeout) then
        match Get p (peerId rp) with
        | (Some peer, p1) =>
            let '(peers, asked, p2) := dial clock (S k) rest p1 in
            (peer :: peers, (peerId rp, true) :: asked, p2)
        | (None, p1) =>
            let '(peers, asked, p2) := dial clock (S k) rest p1 in
            (peers, (peerId rp, false) :: asked, p2)
        end
      else dial clock (S k) rest p
  end.

Definition getResponsiblePeers (now stamp : Z) (clock : nat -> Z)
    (n : nodePeerManager) (p : P)
    : PeersResult * nodePeerManager * P * list (string * bool) :=
  let '(rps, n') := getResponsiblePeersObjects NodeIds now stamp n in
  let '(peers, asked, p') := dial clock 0 rps p in
  (match peers with [] => ErrUnableToConnect | _ => Peers peers end, n', p', asked).

(** No entry of the list carries a failure time. *)
Definition neverFailed (n : nodePeerManager) : Prop :=
  Forall (fun rp => lastFail rp = 0) (responsiblePeers n).

Lemma dial_asks clock k rps p peers asked p' :
  Forall (fun rp => lastFail rp = 0) rps ->
  (forall i, reconnectTimeout < clock i) ->
  dial clock k rps p = (peers, asked, p') ->
  asked.*1 = peerId <$> rps /\
  (peers = [] <-> Forall (fun a : string * bool => a.2 = false) asked).
Proof.
  intros Hzero Hclock. revert k p peers asked p'.
  induction Hzero as [|rp rest Hrp _ IH]; intros k p peers asked p' Hrun; simpl in Hrun.
  - simplify_eq. split; [done|]. split; [constructor|done].
  - rewrite decide_True in Hrun by (rewrite Hrp; specialize (Hclock k); lia).
    destruct (Get p (peerId rp)) as [[peer|] p1];
      destruct (dial clock (S k) rest p1) as [[peers1 asked1] p2] eqn:Hrest;
      apply IH in Hrest as [Hids Hnone]; simplify_eq; simpl.
    + split; [by f_equal|]. split; [done|]. by intros [? _]%Forall_cons.
    + split; [by f_equal|]. rewrite Hnone. split.
      * by constructor.
      * by intros [_ ?]%Forall_cons.
Qed.

(** The reconnect timeout never holds a peer back: the failure time is
    stored on the loop's copy, the entries of the list keep none, and so a
    call made when the clock is past the timeout asks the pool for every
    entry of the list, in order, whatever failed before. The call reports
    [ErrUnableToConnect] exactly when the pool gave no peer at all. *)
Theorem getResponsiblePeers_retries (now stamp : Z) (clock : nat -> Z)
    (n n' : nodePeerManager) (p p' : P) (res : PeersResult) (asked : list (string * bool)) :
  neverFailed n -> (forall i, reconnectTimeout < clock i) ->
  getResponsiblePeers now stamp clock n p = (res, n', p', asked) ->
  asked.*1 = peerIds n' /\ neverFailed n' /\
  (res = ErrUnableToConnect <-> Forall (fun a : string * bool => a.2 = false) asked).
Proof.
  intros Hzero Hclock. unfold getResponsiblePeers.
  destruct (getResponsiblePeersObjects NodeIds now stamp n) as [rps n1] eqn:Hobjects.
  destruct (dial clock 0 rps p) as [[peers asked1] p1] eqn:Hdial.
  intros Hrun. simplify_eq.
  assert (rps = responsiblePeers n' /\ neverFailed n') as [-> Hzero'].
  { unfold getResponsiblePeersObjects in Hobjects. destruct (upToDate now n); simplify_eq.
    - done.
    - split; [done|]. unfold neverFailed. simpl. apply Forall_app. split; [done|].
      apply Forall_fmap, Forall_forall. by intros id0 _. }
  apply dial_asks in Hdial as [Hids Hnone]; [|done..].
  split; [done|]. split; [done|]. rewrite <- Hnone.
  destruct peers; split; done.
Qed.

End Connect.

(** Two node ids; the pool never reaches [n1] and counts what it is asked.
    A first call on a fresh manager, and a second one a second later: [n1],
    which has just failed, is asked for again. *)
#[global] Instance countingPool : Pool nat := {|
  Get p id0 := (if decide (id0 = "n1") then None else Some ("peer-" ++ id0), S p)
|}.

Definition twoNodes (space : string) : list string := ["n1"; "n2"].

Definition afterFirstCall : nodePeerManager :=
  (getResponsiblePeers twoNodes (100 * Minute) (100 * Minute)
     (fun _ => 100 * Minute) (mkManager "space" [] 0) 0%nat).1.1.2.

Lemma getResponsiblePeers_retries_witness :
  neverFailed afterFirstCall /\
  getResponsiblePeers twoNodes (100 * Minute + 1000000000) (100 * Minute + 1000000000)
    (fun _ => 100 * Minute + 1000000000) afterFirstCall 2%nat
  = (Peers ["peer-n2"], afterFirstCall, 4%nat, [("n1", false); ("n2", true)]).
Proof.
  assert (neverFailed afterFirstCall) as Hzero by (repeat constructor).
  split; [exact Hzero|].
  destruct (getResponsiblePeers twoNodes (100 * Minute + 1000000000)
              (100 * Minute + 1000000000) (fun _ => 100 * Minute + 1000000000)
              afterFirstCall 2%nat) as [[[res n'] p'] asked] eqn:Hrun.
  assert (forall i : nat, reconnectTimeout < 100 * Minute + 1000000000) as Hclock
    by (intros _; vm_compute; reflexivity).
  destruct (getResponsiblePeers_retries twoNodes _ _ _ _ _ _ _ _ _ Hzero Hclock Hrun)
    as (Hids & _ & _).
  vm_compute in Hrun. by injection Hrun as <- <- <- <-.
Defined.


End PeerManager.

(* ===================================================================== *)
(** * docTree (pkg/acl/tree/doctree.go) *)
(* ===================================================================== *)

Module DocTree.

(** ** Data *)

Record RawChange := mkRaw { Payload : string; Signature : string; Id : string }.

(** The marshalled payload, [aclpb.Change], with the fields [AddContent]
    fills in. *)
Record aclpbChange := mkPbChange {
  TreeHeadIds : list string;
  AclHeadId : string;
  SnapshotBaseId : string;
  CurrentReadKeyHash : Z;
  Timestamp : Z;
  Identity : string;
  IsSnapshotPb : bool;
  ChangesData : string
}.

(** [Change] (change.go is not among the sources): the fields doctree.go
    reads are [Id], [SnapshotId], [IsSnapshot], [Content] and the
    signature; [PreviousIds] are the parents the tree links by. *)
Record Change := mkChange {
  chId : string;
  PreviousIds : list string;
  SnapshotId : string;
  IsSnapshot : bool;
  Content : aclpbChange;
  chSignature : string
}.

(** Modelled from the spec: [NewChange], which is not among the sources;
    a Change carries the payload's parent ids, snapshot-base id and
    snapshot flag under its own id. *)
Definition NewChange (id0 : string) (ch : aclpbChange) (signature : string) : Change :=
  mkChange id0 (TreeHeadIds ch) (SnapshotBaseId ch) (IsSnapshotPb ch) ch signature.

(** [Tree] (tree.go is not among the sources): doctree.go reads the maps
    [attached] and [unAttached] and calls [Heads()] and [RootId()]. *)
Record Tree := mkTree {
  rootId : string;
  headIds : list string;
  attached : gmap string Change;
  unAttached : gmap string Change
}.

Definition Heads (t : Tree) : list string := headIds t.
Definition RootId (t : Tree) : string := rootId t.

(** [&Tree{}] *)
Definition emptyTree : Tree := mkTree "" [] ∅ ∅.

Inductive Mode := Append | Rebuild | Nothing.

#[global] Instance Mode_eq_dec : EqDecision Mode.
Proof. solve_decision. Defined.

Inductive AddResultSummary :=
| AddResultSummaryNothing
| AddResultSummaryAppend
| AddResultSummaryRebuild.

Record AddResult := mkAddResult {
  OldHeads : list string;
  ResultHeads : list string;
  Added : list RawChange;
  Summary : AddResultSummary
}.

(** The zero [AddResult] that error returns carry. *)
Definition zeroAddResult : AddResult := mkAddResult [] [] [] AddResultSummaryNothing.

Inductive Error :=
| ErrHasInvalidChanges
| ErrNoCommonSnapshot
| ErrACL (e : ACL.Error)
| ErrOther (msg : string).

Inductive outcome (A : Type) :=
| Returned (a : A)
| Panicked.
Arguments Returned {A} a.
Arguments Panicked {A}.

(** What the tree tells its surroundings: writes to the tree storage, in
    the order they are issued, and calls of the update listener. *)
Inductive StorageWrite :=
| WriteRawChange (raw : RawChange)
| WriteHeads (heads : list string).

Inductive Notification := NotifyUpdate | NotifyRebuild.

(** [list.ACLList] as far as the tree and its validator use it: the
    records, the state they replay to, and the id of the head record. *)
Record ACLList := mkACLList {
  aclRecords : list ACL.ACLRecord;
  aclState : ACL.ACLState;
  aclHeadId : string
}.

Record SignableChangeContent := mkContent {
  contentProto : string;
  contentKey : string;
  contentIdentity : string;
  contentIsSnapshot : bool
}.

(** ** Collaborators

    [S] is the state behind the [storage.TreeStorage] handle. The tree
    operations, the builder and the validator belong to files that are not
    among the sources; doctree.go is modelled over any implementation of
    them. [zeroMode] is the zero value of [Mode], which addRawChanges
    returns wherever it does not assign [mode]. *)
Class Deps (S : Type) := {
  (** tree.go *)
  zeroMode : Mode;
  TreeAdd : Tree -> list Change -> Mode * Tree;
  reduceTree : Tree -> Tree;
  clearPossibleRoots : Tree -> Tree;
  AddMergedHead : Tree -> Change -> option Tree;
  (** treebuilder.go: [Build] over what the storage holds; an error comes
      with a nil tree *)
  Build : S -> list Change -> Error + Tree;
  (** [DocTreeValidator.ValidateTree] *)
  ValidateTree : Tree -> ACLList -> option Error;
  (** change.go *)
  NewVerifiedChangeFromRaw : RawChange -> Error + Change;
  (** [storage.TreeStorage] *)
  AddRawChange : S -> RawChange -> option Error * S;
  SetHeads : S -> list string -> option Error * S;
  (** marshalling, encryption, signing, content ids *)
  MarshalProto : string -> option string;
  Encrypt : string -> string -> option string;
  MarshalChange : aclpbChange -> option string;
  Sign : string -> string -> option string;
  NewCIDFromBytes : string -> option string
}.

(** [tree] is a pointer and nil after a failed build; [hasListener] says
    whether [updateListener] is non-nil. The scratch buffers are reset at
    the start of every addRawChanges and are locals of the model. *)
Record docTree (S : Type) := mkDocTree {
  treeStorage : S;
  hasListener : bool;
  tree : option Tree
}.
Arguments mkDocTree {S} _ _ _.
Arguments treeStorage {S} _.
Arguments hasListener {S} _.
Arguments tree {S} _.

Definition HasChange (t : Tree) (s : string) : bool :=
  bool_decide (is_Some (attached t !! s)) || bool_decide (is_Some (unAttached t !! s)).

Definition setTree {S} (t : option Tree) (d : docTree S) : docTree S :=
  mkDocTree (treeStorage d) (hasListener d) t.

Definition setStorage {S} (s : S) (d : docTree S) : docTree S :=
  mkDocTree s (hasListener d) (tree d).

(** ** addRawChanges *)

Section Engine.
Context {S : Type} `{Deps S}.

(** [rebuildFromStorage] *)
Definition rebuildFromStorage (aclList : ACLList) (newChanges : list Change) (d : docTree S)
    : option Error * docTree S :=
  match Build (treeStorage d) newChanges with
  | inl err => (Some err, setTree None d)
  | inr t =>
      let t' := clearPossibleRoots t in
      (ValidateTree t' aclList, setTree (Some t') d)
  end.

(** The loop that filters, verifies and unmarshals the raw changes. It
    fills [tmpChangesBuf], [newSnapshotsBuf] and [notSeenIdxBuf]; the tree
    it consults is not touched meanwhile. *)
Fixpoint collectNew (t : Tree) (rawChanges : list RawChange) (idx : nat)
    (tmpChangesBuf newSnapshotsBuf : list Change) (notSeenIdxBuf : list nat)
    : Error + (list Change * list Change * list nat) :=
  match rawChanges with
  | [] => inr (tmpChangesBuf, newSnapshotsBuf, notSeenIdxBuf)
  | ch :: rest =>
      if HasChange t (Id ch) then
        collectNew t rest (Datatypes.S idx) tmpChangesBuf newSnapshotsBuf notSeenIdxBuf
      else
        match NewVerifiedChangeFromRaw ch with
        | inl err => inl err
        | inr change =>
            collectNew t rest (Datatypes.S idx)
              (tmpChangesBuf ++ [change])
              (if IsSnapshot change then newSnapshotsBuf ++ [change] else newSnapshotsBuf)
              (notSeenIdxBuf ++ [idx])
        end
  end.

(** The closure [headsCopy]: a slice made with length 0, then [copy]. *)
Definition headsCopy (t : Tree) : list string :=
  Go.copy (Go.make "" 0 (length (Heads t))) (Heads t).

(** The closure [getAddedChanges]. The indices come from the filtering
    loop and are always in range. *)
Definition getAddedChanges (t : Tree) (rawChanges : list RawChange)
    (notSeenIdxBuf : list nat) : list RawChange :=
  flat_map
    (fun idx =>
       match rawChanges !! idx with
       | Some rawChange =>
           if bool_decide (is_Some (attached t !! Id rawChange)) then [rawChange] else []
       | None => []
       end)
    notSeenIdxBuf.

(** The closure [rollback]: each candidate is deleted from the map that
    holds it; [headIds] and [rootId] are not written. *)
Definition rollbackChange (t : Tree) (ch : Change) : Tree :=
  if bool_decide (is_Some (attached t !! chId ch)) then
    mkTree (rootId t) (headIds t) (delete (chId ch) (attached t)) (unAttached t)
  else if bool_decide (is_Some (unAttached t !! chId ch)) then
    mkTree (rootId t) (headIds t) (attached t) (delete (chId ch) (unAttached t))
  else t.

Definition rollback (tmpChangesBuf : list Change) (t : Tree) : Tree :=
  foldl rollbackChange t tmpChangesBuf.

(** The closure [isOldSnapshot]. *)
Definition isOldSnapshot (t : Tree) (newSnapshotsBuf : list Change) (ch : Change) : bool :=
  if decide (SnapshotId ch = RootId t) then false
  else negb (existsb (fun sn => bool_decide (SnapshotId ch = chId sn)) newSnapshotsBuf).

Definition addRawChanges (aclList : ACLList) (d : docTree S) (rawChanges : list RawChange)
    : outcome (Mode * AddResult * option Error) * docTree S :=
  match tree d with
  | None => (Panicked, d)
  | Some t =>
      let prevHeadsCopy := Go.copy (Go.make "" 0 (length (Heads t))) (Heads t) in
      match collectNew t rawChanges 0 [] [] [] with
      | inl err => (Returned (zeroMode, zeroAddResult, Some err), d)
      | inr (tmpChangesBuf, newSnapshotsBuf, notSeenIdxBuf) =>
          if decide (length notSeenIdxBuf = 0%nat) then
            (Returned (zeroMode,
                       mkAddResult prevHeadsCopy prevHeadsCopy [] AddResultSummaryNothing,
                       None), d)
          else if existsb (isOldSnapshot t newSnapshotsBuf) tmpChangesBuf then
            match rebuildFromStorage aclList tmpChangesBuf d with
            | (Some err, d1) =>
                (Returned (zeroMode, zeroAddResult, Some err),
                 (rebuildFromStorage aclList [] d1).2)
            | (None, d1) =>
                match tree d1 with
                | None => (Panicked, d1)
                | Some t1 =>
                    (Returned (zeroMode,
                               mkAddResult prevHeadsCopy (headsCopy t1)
                                 (getAddedChanges t1 rawChanges notSeenIdxBuf)
                                 AddResultSummaryRebuild,
                               None), d1)
                end
            end
          else
            let '(mode, t1) := TreeAdd t tmpChangesBuf in
            match mode with
            | Nothing =>
                (Returned (mode,
                           mkAddResult prevHeadsCopy prevHeadsCopy [] AddResultSummaryNothing,
                           None), setTree (Some t1) d)
            | _ =>
                match ValidateTree t1 aclList with
                | Some _ =>
                    (Returned (mode, zeroAddResult, Some ErrHasInvalidChanges),
                     setTree (Some (rollback tmpChangesBuf t1)) d)
                | None =>
                    (Returned (mode,
                               mkAddResult prevHeadsCopy (headsCopy t1)
                                 (getAddedChanges t1 rawChanges notSeenIdxBuf)
                                 AddResultSummaryAppend,
                               None), setTree (Some t1) d)
                end
            end
      end
  end.

(** The loop that writes the added changes; the first error ends it. *)
Fixpoint persistAdded (added : list RawChange) (s : S)
    : option Error * S * list StorageWrite :=
  match added with
  | [] => (None, s, [])
  | ch :: rest =>
      match AddRawChange s ch with
      | (Some err, s1) => (Some err, s1, [WriteRawChange ch])
      | (None, s1) =>
          let '(err, s2, writes) := persistAdded rest s1 in
          (err, s2, WriteRawChange ch :: writes)
      end
  end.

(** The [switch mode] that ends [AddRawChanges]. *)
Definition notify (hasListener0 : bool) (mode : Mode) : list Notification :=
  if hasListener0 then
    match mode with
    | Append => [NotifyUpdate]
    | Rebuild => [NotifyRebuild]
    | Nothing => []
    end
  else [].

Definition AddRawChanges (aclList : ACLList) (d : docTree S) (rawChanges : list RawChange)
    : outcome (AddResult * option Error) * docTree S
      * list StorageWrite * list Notification :=
  match addRawChanges aclList d rawChanges with
  | (Panicked, d1) => (Panicked, d1, [], [])
  | (Returned (_, addResult, Some err), d1) => (Returned (addResult, Some err), d1, [], [])
  | (Returned (mode, addResult, None), d1) =>
      match tree d1 with
      | None => (Panicked, d1, [], [])
      | Some t1 =>
          let t2 := reduceTree t1 in
          let '(err, s1, writes) := persistAdded (Added addResult) (treeStorage d1) in
          match err with
          | Some e =>
              (Returned (addResult, Some e), setStorage s1 (setTree (Some t2) d1), writes, [])
          | None =>
              let '(err2, s2) := SetHeads s1 (Heads t2) in
              let d2 := setStorage s2 (setTree (Some t2) d1) in
              let writes2 := (writes ++ [WriteHeads (Heads t2)])%list in
              match err2 with
              | Some e => (Returned (addResult, Some e), d2, writes2, [])
              | None => (Returned (addResult, None), d2, writes2, notify (hasListener d) mode)
              end
          end
      end
  end.

(** ** AddContent *)

(** The body of [AddContent], from [state := aclList.ACLState()] to the
    last [return]; [now] is the reading of [time.Now().Nanosecond()]. A
    failed [AddMergedHead] panics. *)
Definition AddContentBody (aclList : ACLList) (content : SignableChangeContent) (now : Z)
    (d : docTree S)
    : outcome (option RawChange * option Error) * docTree S * list StorageWrite :=
  match tree d with
  | None => (Panicked, d, [])
  | Some t =>
      let state := aclState aclList in
      let aclChange : aclpbChange :=
        mkPbChange (Heads t) (aclHeadId aclList) (RootId t)
          (ACL.CurrentReadKeyHash state) now (contentIdentity content)
          (contentIsSnapshot content) "" in
      match MarshalProto (contentProto content) with
      | None => (Returned (None, Some (ErrOther "content does not marshal")), d, [])
      | Some marshalledData =>
      match ACL.CurrentReadKey state with
      | ACL.Panic => (Panicked, d, [])
      | ACL.Err e => (Returned (None, Some (ErrACL e)), d, [])
      | ACL.Ok readKey =>
      match Encrypt readKey marshalledData with
      | None => (Returned (None, Some (ErrOther "encryption failed")), d, [])
      | Some encrypted =>
      let aclChange :=
        mkPbChange (TreeHeadIds aclChange) (AclHeadId aclChange) (SnapshotBaseId aclChange)
          (CurrentReadKeyHash aclChange) (Timestamp aclChange) (Identity aclChange)
          (IsSnapshotPb aclChange) encrypted in
      match MarshalChange aclChange with
      | None => (Returned (None, Some (ErrOther "change does not marshal")), d, [])
      | Some fullMarshalledChange =>
      match Sign (contentKey content) fullMarshalledChange with
      | None => (Returned (None, Some (ErrOther "signing failed")), d, [])
      | Some signature =>
      match NewCIDFromBytes fullMarshalledChange with
      | None => (Returned (None, Some (ErrOther "no content id")), d, [])
      | Some id0 =>
          let docChange := NewChange id0 aclChange signature in
          let t1 := if contentIsSnapshot content then emptyTree else t in
          match AddMergedHead t1 docChange with
          | None => (Panicked, setTree (Some t1) d, [])
          | Some t2 =>
              let rawChange := mkRaw fullMarshalledChange (chSignature docChange) (chId docChange) in
              let d1 := setTree (Some t2) d in
              match AddRawChange (treeStorage d1) rawChange with
              | (Some err, s1) =>
                  (Returned (Some rawChange, Some err), setStorage s1 d1,
                   [WriteRawChange rawChange])
              | (None, s1) =>
                  let '(err, s2) := SetHeads s1 [chId docChange] in
                  (Returned (Some rawChange, err), setStorage s2 d1,
                   [WriteRawChange rawChange; WriteHeads [chId docChange]])
              end
          end
      end end end end end end
  end.

(** [AddContent]: the deferred function runs after the body, however the
    body ends, and calls [Update] when there is a listener. *)
Definition AddContent (aclList : ACLList) (content : SignableChangeContent) (now : Z)
    (d : docTree S)
    : outcome (option RawChange * option Error) * docTree S
      * list StorageWrite * list Notification :=
  let '(out, d1, writes) := AddContentBody aclList content now d in
  (out, d1, writes, if hasListener d1 then [NotifyUpdate] else []).

End Engine.

(** ** The tree operations, from their description

    tree.go, treebuilder.go and the validator are not among the sources.
    The definitions below follow the specification's wording; they give
    the scenarios further down a tree to run on, and no theorem that is
    stated for every [Deps] depends on them. *)

Definition isAttached (att : gmap string Change) (id0 : string) : bool :=
  bool_decide (is_Some (att !! id0)).

Definition parentsAttached (att : gmap string Change) (ch : Change) : bool :=
  forallb (isAttached att) (PreviousIds ch).

(** Modelled from the spec: the drain of [Tree.Add], which is not among
    the sources; unattached changes whose parents are all attached move
    over, round after round, until none is ready. *)
Fixpoint drain (fuel : nat) (att un : gmap string Change)
    : gmap string Change * gmap string Change :=
  match fuel with
  | O => (att, un)
  | Datatypes.S fuel' =>
      let ready := filter (fun kv => parentsAttached att kv.2 = true) un in
      if decide (ready = ∅) then (att, un)
      else drain fuel' (ready ∪ att) (un ∖ ready)
  end.

(** Modelled from the spec: descent in the change graph, which tree.go
    (not among the sources) walks; [target] is a proper ancestor of
    [from] among the attached changes. *)
Fixpoint reaches (fuel : nat) (att : gmap string Change) (from target : string) : bool :=
  match fuel with
  | O => false
  | Datatypes.S fuel' =>
      match att !! from with
      | None => false
      | Some ch =>
          existsb (fun prev => bool_decide (prev = target) || reaches fuel' att prev target)
            (PreviousIds ch)
      end
  end.

(** Modelled from the spec: the head set, which tree.go (not among the
    sources) recomputes; the attached changes no attached change lists
    as a parent. *)
Definition computeHeads (att : gmap string Change) : list string :=
  filter
    (fun id0 => existsb (fun ch => bool_decide (id0 ∈ PreviousIds ch)) (map_to_list att).*2 = false)
    (map_to_list att).*1.

(** Modelled from the spec: one candidate of [Tree.Add] (see [specTreeAdd]);
    a change the tree already knows is left alone. *)
Definition addCandidate (parts : gmap string Change * gmap string Change) (ch : Change)
    : gmap string Change * gmap string Change :=
  let '(att, un) := parts in
  if isAttached att (chId ch) || isAttached un (chId ch) then (att, un)
  else if parentsAttached att ch then drain (size un) (<[chId ch := ch]> att) un
  else (att, <[chId ch := ch]> un).

(** Modelled from the spec: [Tree.Add], which is not among the sources.
    A candidate whose parents are all attached is attached and the
    unattached changes are drained, any other candidate is placed in
    [unAttached]; the heads are recomputed; the mode is Nothing when
    nothing was attached, Rebuild when a newly attached change has a
    descendant among the prior heads, and Append otherwise. *)
Definition specTreeAdd (t : Tree) (changes : list Change) : Mode * Tree :=
  let '(att, un) := foldl addCandidate (attached t, unAttached t) changes in
  let newIds := filter (fun id0 => isAttached (attached t) id0 = false) (map_to_list att).*1 in
  match newIds with
  | [] => (Nothing, mkTree (rootId t) (headIds t) att un)
  | _ =>
      let behindHead :=
        existsb (fun id0 => existsb (fun h => reaches (size att) att h id0) (headIds t)) newIds in
      (if behindHead then Rebuild else Append, mkTree (rootId t) (computeHeads att) att un)
  end.

(** Modelled from the spec: [Tree.reduceTree], which is not among the
    sources. When all heads descend from a snapshot other than the root
    (the one nearest to the heads, should there be several), that snapshot
    becomes the root and its ancestors leave [attached]. *)
Definition specReduceTree (t : Tree) : Tree :=
  let att := attached t in
  let below (id0 : string) (h : string) : bool :=
    bool_decide (h = id0) || reaches (size att) att h id0 in
  let candidates :=
    filter
      (fun kv => (IsSnapshot kv.2 && negb (bool_decide (kv.1 = rootId t))
                  && forallb (below kv.1) (headIds t)) = true)
      (map_to_list att) in
  match filter (fun kv => forallb (fun kv' => below kv'.1 kv.1) candidates = true) candidates with
  | (sn, _) :: _ =>
      mkTree sn (headIds t)
        (filter (fun kv => reaches (size att) att sn kv.1 = false) att) (unAttached t)
  | [] => t
  end.

(** Modelled from the spec: [Tree.AddMergedHead], which is not among the
    sources; a new change whose parents cover the current heads is
    attached and becomes the only head (and the root of an empty tree).
    [None] is the error the caller panics on. *)
Definition specAddMergedHead (t : Tree) (ch : Change) : option Tree :=
  if isAttached (attached t) (chId ch) || isAttached (unAttached t) (chId ch) then None
  else if forallb (fun h => bool_decide (h ∈ PreviousIds ch)) (headIds t) then
    Some (mkTree (if decide (rootId t = "") then chId ch else rootId t) [chId ch]
            (<[chId ch := ch]> (attached t)) (unAttached t))
  else None.

(** ** An in-memory tree storage, a codec and a validator for scenarios *)

(** Modelled from the spec: the in-memory tree storage the Go tests build
    trees on (not among the sources), by the storage contract: [SetHeads]
    replaces the heads, [AddRawChange] is append-only and idempotent by id. *)
Record memStorage := mkMem {
  stHeads : list string;
  stChanges : gmap string RawChange
}.

Definition memAddRawChange (s : memStorage) (raw : RawChange) : option Error * memStorage :=
  (None,
   mkMem (stHeads s)
     (match stChanges s !! Id raw with
      | Some _ => stChanges s
      | None => <[Id raw := raw]> (stChanges s)
      end)).

Definition memSetHeads (s : memStorage) (heads : list string) : option Error * memStorage :=
  (None, mkMem heads (stChanges s)).

(** A textual stand-in for the protobuf encoding of a payload. *)
Definition encodeChange (ch : aclpbChange) : string :=
  String.concat ","
    [String.concat " " (TreeHeadIds ch); AclHeadId ch; SnapshotBaseId ch;
     pretty (CurrentReadKeyHash ch); pretty (Timestamp ch); Identity ch;
     (if IsSnapshotPb ch then "snapshot" else "change"); ChangesData ch].

(** A raw change as an author with signing key [Identity ch] sends it;
    as with [ACL.mockExternal], the signature over a message is the key
    followed by the message. *)
Definition signedRaw (id0 : string) (ch : aclpbChange) : RawChange :=
  mkRaw (encodeChange ch) (Identity ch ++ encodeChange ch) id0.

(** Decoding looks the payload up among the payloads [known] in the
    scenario; verification checks the signature. *)
Definition decodeRaw (known : list aclpbChange) (raw : RawChange) : Error + Change :=
  match (list_to_map ((fun ch => (encodeChange ch, ch)) <$> known) : gmap string aclpbChange)
          !! Payload raw with
  | None => inl (ErrOther "payload does not unmarshal")
  | Some ch =>
      if decide (Signature raw = Identity ch ++ Payload raw)
      then inr (NewChange (Id raw) ch (Signature raw))
      else inl (ErrACL ACL.ErrInvalidSignature)
  end.

(** Modelled from the spec: the depth-first load of [TreeBuilder.Build],
    which is not among the sources. It starts at the storage heads,
    follows parent ids, loads and verifies each change once and stops a
    branch at a snapshot; changes without parents and the snapshots it
    stopped at are the possible roots. *)
Fixpoint dfsLoad (fuel : nat) (decode : RawChange -> Error + Change)
    (changes : gmap string RawChange) (stack : list string)
    (seen : gmap string Change) (possibleRoots : list string)
    : Error + (gmap string Change * list string) :=
  match fuel with
  | O => inl (ErrOther "storage holds a cycle")
  | Datatypes.S fuel' =>
      match stack with
      | [] => inr (seen, possibleRoots)
      | id0 :: rest =>
          if isAttached seen id0 then dfsLoad fuel' decode changes rest seen possibleRoots
          else
            match changes !! id0 with
            | None => inl (ErrOther "storage does not hold the change")
            | Some raw =>
                match decode raw with
                | inl err => inl err
                | inr ch =>
                    if IsSnapshot ch || bool_decide (PreviousIds ch = []) then
                      dfsLoad fuel' decode changes rest (<[id0 := ch]> seen)
                        (possibleRoots ++ [id0])
                    else
                      dfsLoad fuel' decode changes (PreviousIds ch ++ rest)
                        (<[id0 := ch]> seen) possibleRoots
                end
            end
      end
  end.

(** Modelled from the spec: [TreeBuilder.Build], which is not among the
    sources. The loaded changes and the extra ones form the tree; exactly
    one possible root must emerge. *)
Definition specBuild (decode : RawChange -> Error + Change) (s : memStorage)
    (extra : list Change) : Error + Tree :=
  let fuel :=
    (length (stHeads s)
     + sum_list ((fun raw => match decode raw with
                             | inr ch => length (PreviousIds ch)
                             | inl _ => O
                             end) <$> (map_to_list (stChanges s)).*2) + 1)%nat in
  match dfsLoad fuel decode (stChanges s) (stHeads s) ∅ [] with
  | inl err => inl err
  | inr (seen, loadedRoots) =>
      let extraRoots :=
        chId <$> filter (fun ch => PreviousIds ch = [] /\ isAttached seen (chId ch) = false) extra in
      match remove_dups (loadedRoots ++ extraRoots) with
      | [root] =>
          match (seen ∪ list_to_map ((fun ch => (chId ch, ch)) <$> extra)) !! root with
          | None => inl (ErrOther "cannot have tree without root")
          | Some rootChange =>
              let start := mkTree root [root] {[ root := rootChange ]} ∅ in
              inr (specTreeAdd start ((map_to_list seen).*2 ++ extra)).2
          end
      | [] => inl (ErrOther "cannot have tree without root")
      | _ => inl (ErrOther "multiple roots")
      end
  end.

(** Modelled from the spec: the ACL state at a record, which the
    validator (not among the sources) synthesizes from the ACL list; the
    records up to and including [recordId] are replayed on a fresh state. *)
Fixpoint recordsUpTo (recordId : string) (records : list ACL.ACLRecord)
    : option (list ACL.ACLRecord) :=
  match records with
  | [] => None
  | r :: rest =>
      if decide (ACL.recId r = recordId) then Some [r]
      else cons r <$> recordsUpTo recordId rest
  end.

Definition stateAtRecord (aclList : ACLList) (recordId : string) : option ACL.ACLState :=
  match recordsUpTo recordId (aclRecords aclList) with
  | None => None
  | Some upTo =>
      match @ACL.replay ACL.mockExternal upTo (ACL.newACLState (ACL.id (aclState aclList))) with
      | (ACL.Ok _, st) => Some st
      | _ => None
      end
  end.

(** Modelled from the spec: the validator's check of one change (the
    validator is not among the sources); at the ACL record the change
    names, its author is a user with permission Admin or Writer and the
    change carries that state's read key hash. Signatures are checked when
    the raw change is decoded. *)
Definition validChange (aclList : ACLList) (ch : Change) : bool :=
  match stateAtRecord aclList (AclHeadId (Content ch)) with
  | None => false
  | Some st =>
      (ACL.hasPermission st (Identity (Content ch)) ACL.Admin
       || ACL.hasPermission st (Identity (Content ch)) ACL.Writer)
      && bool_decide (CurrentReadKeyHash (Content ch) = ACL.currentReadKeyHash st)
  end.

(** Modelled from the spec: [ValidateTree] of the validator, which is not
    among the sources; every attached change must pass. The order of the
    walk decides only which error comes first, and the caller maps them
    all to [ErrHasInvalidChanges]. *)
Definition specValidateTree (t : Tree) (aclList : ACLList) : option Error :=
  if forallb (validChange aclList) (map_to_list (attached t)).*2 then None
  else Some (ErrACL ACL.ErrInsufficientPermissions).

(** The collaborators of a scenario in which the payloads [known] exist.
    The specification lists the modes as Nothing, Append, Rebuild, and the
    scenarios take the first for the zero value. *)
Definition mockDeps (known : list aclpbChange) : Deps memStorage := {|
  zeroMode := Nothing;
  TreeAdd := specTreeAdd;
  reduceTree := specReduceTree;
  clearPossibleRoots := fun t => t;
  AddMergedHead := specAddMergedHead;
  Build := specBuild (decodeRaw known);
  ValidateTree := specValidateTree;
  NewVerifiedChangeFromRaw := decodeRaw known;
  AddRawChange := memAddRawChange;
  SetHeads := memSetHeads;
  MarshalProto := fun proto => Some proto;
  Encrypt := fun key data => Some (key ++ data);
  MarshalChange := fun ch => Some (encodeChange ch);
  Sign := fun key msg => Some (key ++ msg);
  NewCIDFromBytes := fun data => Some ("cid:" ++ data)
|}.

(** ** What doctree.go does, for any collaborators *)

Section Properties.
Context {S : Type} `{Deps S}.

(** A slice made with length 0 stays empty under [copy]. *)
Lemma headsCopy_empty (t : Tree) : headsCopy t = [].
Proof. unfold headsCopy, Go.make. simpl. apply Go.copy_nil_dst. Qed.

(** Whatever the tree's heads are, both head lists of a returned
    [AddResult] are empty. *)
Lemma addRawChanges_result_heads aclList (d d' : docTree S) rawChanges mode res err :
  addRawChanges aclList d rawChanges = (Returned (mode, res, err), d') ->
  OldHeads res = [] /\ ResultHeads res = [].
Proof.
  unfold addRawChanges. intros Hrun.
  repeat case_match; simplify_eq; simpl;
    rewrite ?headsCopy_empty; unfold Go.make; simpl; rewrite ?Go.copy_nil_dst; done.
Qed.

Lemma rollbackChange_frame (t : Tree) (ch : Change) :
  headIds (rollbackChange t ch) = headIds t /\ rootId (rollbackChange t ch) = rootId t.
Proof. unfold rollbackChange. by repeat case_match. Qed.

(** [rollback] writes neither the heads nor the root. *)
Lemma rollback_frame (tmpChangesBuf : list Change) (t : Tree) :
  headIds (rollback tmpChangesBuf t) = headIds t /\
  rootId (rollback tmpChangesBuf t) = rootId t.
Proof.
  unfold rollback. revert t.
  induction tmpChangesBuf as [|ch rest IH]; intros t; simpl; [done|].
  destruct (IH (rollbackChange t ch)) as [-> ->]. apply rollbackChange_frame.
Qed.

Lemma rollbackChange_absent (t : Tree) (ch : Change) (k : string) :
  (attached t !! k = None -> attached (rollbackChange t ch) !! k = None) /\
  (unAttached t !! k = None -> unAttached (rollbackChange t ch) !! k = None).
Proof.
  unfold rollbackChange. repeat case_match; simpl; split; intros Hk; try done;
    destruct (decide (chId ch = k)) as [->|Hne];
    by rewrite ?lookup_delete_eq, ?lookup_delete_ne.
Qed.

Lemma rollback_absent (tmpChangesBuf : list Change) (t : Tree) (k : string) :
  (attached t !! k = None -> attached (rollback tmpChangesBuf t) !! k = None) /\
  (unAttached t !! k = None -> unAttached (rollback tmpChangesBuf t) !! k = None).
Proof.
  unfold rollback. revert t.
  induction tmpChangesBuf as [|ch rest IH]; intros t; simpl; [done|].
  destruct (IH (rollbackChange t ch)) as [IHa IHu].
  destruct (rollbackChange_absent t ch k) as [Ha Hu]. split; eauto.
Qed.

Lemma rollbackChange_disjoint (t : Tree) (ch : Change) :
  attached t ##ₘ unAttached t ->
  attached (rollbackChange t ch) ##ₘ unAttached (rollbackChange t ch).
Proof.
  unfold rollbackChange. intros Hdisj. repeat case_match; simpl; try done.
  - by apply map_disjoint_delete_l.
  - by apply map_disjoint_delete_r.
Qed.

(** In a tree whose partitions are disjoint, [rollback] leaves no
    candidate in either of them. *)
Lemma rollback_removes (tmpChangesBuf : list Change) (t : Tree) (ch : Change) :
  attached t ##ₘ unAttached t ->
  ch ∈ tmpChangesBuf ->
  HasChange (rollback tmpChangesBuf t) (chId ch) = false.
Proof.
  unfold rollback. revert t.
  induction tmpChangesBuf as [|c rest IH]; intros t Hdisj Hin; simpl.
  - by apply elem_of_nil in Hin.
  - apply elem_of_cons in Hin as [->|Hin].
    + assert (attached (rollbackChange t c) !! chId c = None /\
              unAttached (rollbackChange t c) !! chId c = None) as [Ha Hu].
      { unfold rollbackChange. repeat case_bool_decide; simpl.
        - rewrite lookup_delete_eq. split; [done|].
          match goal with Hx : is_Some (attached t !! _) |- _ => destruct Hx as [x Hx] end.
          by eapply map_disjoint_Some_l.
        - rewrite lookup_delete_eq. split; [by apply eq_None_not_Some | done].
        - split; by apply eq_None_not_Some. }
      destruct (rollback_absent rest (rollbackChange t c) (chId c)) as [Ha' Hu'].
      unfold rollback in Ha', Hu'. unfold HasChange.
      rewrite (Ha' Ha), (Hu' Hu).
      rewrite !bool_decide_eq_false_2 by (by intros [? ?]). done.
    + apply IH; [by apply rollbackChange_disjoint | done].
Qed.

(** The path of a batch that [Tree.Add] takes in and the validator
    rejects: [ErrHasInvalidChanges] with the zero result, nothing written,
    nobody notified; the tree is the one [Tree.Add] left, less the
    candidates, and its heads are the ones [Tree.Add] computed. *)
Lemma AddRawChanges_invalid_batch aclList (d : docTree S) rawChanges t
    tmpChangesBuf newSnapshotsBuf notSeenIdxBuf mode t1 e :
  tree d = Some t ->
  collectNew t rawChanges 0 [] [] [] = inr (tmpChangesBuf, newSnapshotsBuf, notSeenIdxBuf) ->
  notSeenIdxBuf <> [] ->
  existsb (isOldSnapshot t newSnapshotsBuf) tmpChangesBuf = false ->
  TreeAdd t tmpChangesBuf = (mode, t1) ->
  mode <> Nothing ->
  ValidateTree t1 aclList = Some e ->
  AddRawChanges aclList d rawChanges =
    (Returned (zeroAddResult, Some ErrHasInvalidChanges),
     setTree (Some (rollback tmpChangesBuf t1)) d, [], []) /\
  Heads (rollback tmpChangesBuf t1) = Heads t1.
Proof.
  intros Htree Hcollect Hseen Hold Hadd Hmode Hvalid.
  split; [|apply rollback_frame].
  unfold AddRawChanges, addRawChanges.
  rewrite Htree, Hcollect.
  destruct (decide (length notSeenIdxBuf = 0%nat)) as [Hlen|_].
  { by apply length_zero_iff_nil in Hlen. }
  rewrite Hold, Hadd, Hvalid. by destruct mode.
Qed.

(** A batch of known ids passes the filtering loop without a candidate. *)
Lemma collectNew_known (t : Tree) rawChanges idx tmp snaps notSeen :
  (forall raw, raw ∈ rawChanges -> HasChange t (Id raw) = true) ->
  collectNew t rawChanges idx tmp snaps notSeen = inr (tmp, snaps, notSeen).
Proof.
  revert idx. induction rawChanges as [|ch rest IH]; intros idx Hknown; simpl; [done|].
  rewrite (Hknown ch) by apply list_elem_of_here.
  apply IH. intros raw Hin. apply Hknown. by apply list_elem_of_further.
Qed.

(** C3 (amended). A batch whose ids the tree all knows (the state a first
    successful ingest of the batch leaves, unless compaction dropped them):
    the call yields summary Nothing with nothing added, writes no raw
    change, and still writes the heads, once, with the heads of the
    reduced tree. *)
Theorem AddRawChanges_known_batch (aclList : ACLList) (d : docTree S)
    (rawChanges : list RawChange) (t : Tree) :
  tree d = Some t ->
  (forall raw, raw ∈ rawChanges -> HasChange t (Id raw) = true) ->
  exists err d' notes,
    AddRawChanges aclList d rawChanges =
      (Returned (mkAddResult [] [] [] AddResultSummaryNothing, err), d',
       [WriteHeads (Heads (reduceTree t))], notes) /\
    tree d' = Some (reduceTree t) /\
    (err, treeStorage d') = SetHeads (treeStorage d) (Heads (reduceTree t)).
Proof.
  intros Htree Hknown. unfold AddRawChanges, addRawChanges.
  rewrite Htree, (collectNew_known _ _ _ _ _ _ Hknown). simpl.
  unfold Go.make. simpl. rewrite Go.copy_nil_dst. simpl. rewrite Htree.
  destruct (SetHeads (treeStorage d) (Heads (reduceTree t))) as [[e|] s2] eqn:Hset;
    simpl; eauto 10.
Qed.

Lemma AddContentBody_listener aclList content now (d : docTree S) :
  hasListener (AddContentBody aclList content now d).1.2 = hasListener d.
Proof.
  unfold AddContentBody. repeat case_match; simplify_eq; done.
Qed.

(** C8. With a listener installed, every call of [AddContent] notifies it
    exactly once, with [Update], however the call ends: with the raw
    change, with an error of any step, or in the panic of a failed
    [AddMergedHead]. *)
Theorem AddContent_notifies_once (aclList : ACLList) (content : SignableChangeContent)
    (now : Z) (d : docTree S) :
  hasListener d = true ->
  (AddContent aclList content now d).2 = [NotifyUpdate].
Proof.
  intros Hlistener. unfold AddContent.
  pose proof (AddContentBody_listener aclList content now d) as Hkeep.
  destruct (AddContentBody aclList content now d) as [[out d1] writes].
  simpl in *. by rewrite Hkeep, Hlistener.
Qed.

(** The error paths of [AddContent] that end before the change exists
    write nothing to the storage. *)
Lemma AddContent_error_without_write aclList content now (d : docTree S) e :
  (AddContent aclList content now d).1.1.1 = Returned (None, Some e) ->
  (AddContent aclList content now d).1.2 = [].
Proof.
  unfold AddContent, AddContentBody.
  repeat case_match; simplify_eq; simpl; done.
Qed.

End Properties.

(** ** Scenarios

    The ACL list is the one of [ACL.threeUsers]: [alice] is Admin, [bob]
    Writer, [carol] Reader, under read key hash 11. The document starts as
    the snapshot [r]; [c1] and [c2] are changes of [bob] and [s2] is his
    snapshot on top of [c1]; [rawBad] is a change of [carol], who may not
    write. *)

Definition docAcl : ACLList :=
  mkACLList [ACL.rootRecord; ACL.addUsersRecord] ACL.threeUsers "rec-add".

Definition pbRoot : aclpbChange := mkPbChange [] "rec-add" "" 11 0 "alice" true "".
Definition pb1 : aclpbChange := mkPbChange ["r"] "rec-add" "r" 11 1 "bob" false "one".
Definition pb2 : aclpbChange := mkPbChange ["c1"] "rec-add" "r" 11 2 "bob" false "two".
Definition pbBad : aclpbChange := mkPbChange ["r"] "rec-add" "r" 11 3 "carol" false "bad".
Definition pbSnap : aclpbChange := mkPbChange ["c1"] "rec-add" "r" 11 4 "bob" true "snap".
Definition pbFork : aclpbChange := mkPbChange ["r"] "rec-add" "r" 11 5 "bob" false "fork".
Definition pbMerge : aclpbChange :=
  mkPbChange ["c1"; "c2"] "rec-add" "r" 11 6 "bob" false "merge".

Definition docDeps : Deps memStorage :=
  mockDeps [pbRoot; pb1; pb2; pbBad; pbSnap; pbFork; pbMerge].

Definition rawC1 : RawChange := signedRaw "c1" pb1.
Definition rawC2 : RawChange := signedRaw "c2" pb2.
Definition rawBad : RawChange := signedRaw "c1" pbBad.
Definition rawSnap : RawChange := signedRaw "s2" pbSnap.

(** The tree as built from a storage that holds [r] alone. *)
Definition freshDoc : docTree memStorage :=
  (@rebuildFromStorage _ docDeps docAcl []
     (mkDocTree (mkMem ["r"] {[ "r" := signedRaw "r" pbRoot ]}) true None)).2.

Definition treeOf (d : docTree memStorage) : Tree := default emptyTree (tree d).

Example freshDoc_tree :
  tree freshDoc = Some (treeOf freshDoc) /\
  Heads (treeOf freshDoc) = ["r"] /\ RootId (treeOf freshDoc) = "r" /\
  dom (attached (treeOf freshDoc)) = {[ "r" ]} /\ unAttached (treeOf freshDoc) = ∅.
Proof. vm_compute. repeat split. Qed.

(** Scenario S2, fork and merge: [c1] and a second child of [r] make two
    heads, the change on top of both makes one. *)
Example fork_and_merge :
  let forked :=
    (@AddRawChanges _ docDeps docAcl freshDoc [rawC1; signedRaw "c2" pbFork]).1.1.2 in
  let merged := (@AddRawChanges _ docDeps docAcl forked [signedRaw "c3" pbMerge]).1.1.2 in
  Heads (treeOf forked) = ["c1"; "c2"] /\ Heads (treeOf merged) = ["c3"].
Proof. vm_compute. split; reflexivity. Qed.

(** Scenario S3, out of order: [c2] arrives before its parent [c1] and
    waits unattached; [c1] then attaches both. *)
Example out_of_order :
  let waiting := (@AddRawChanges _ docDeps docAcl freshDoc [rawC2]).1.1.2 in
  let attachedBoth := (@AddRawChanges _ docDeps docAcl waiting [rawC1]).1.1.2 in
  Heads (treeOf waiting) = ["r"] /\ dom (unAttached (treeOf waiting)) = {[ "c2" ]} /\
  Heads (treeOf attachedBoth) = ["c2"] /\ unAttached (treeOf attachedBoth) = ∅.
Proof. vm_compute. repeat split. Qed.

(** C1 fails on the code (scenario S1): the batch [c1; c2] is appended to
    the tree whose only change is [r]; the heads were [r] before the call
    and are [c2] after it, and the result reports summary Append with
    [c1; c2] added, yet both of its head lists are empty. *)
Theorem linear_append_reports_no_heads :
  Heads (treeOf freshDoc) = ["r"] /\
  exists res d' writes notes,
    @AddRawChanges _ docDeps docAcl freshDoc [rawC1; rawC2]
      = (Returned (res, None), d', writes, notes) /\
    Summary res = AddResultSummaryAppend /\
    Id <$> Added res = ["c1"; "c2"] /\
    Heads (treeOf d') = ["c2"] /\
    OldHeads res = [] /\
    ResultHeads res = [].
Proof.
  split; [vm_compute; reflexivity|].
  do 4 eexists. split; [vm_compute; reflexivity|].
  repeat split; vm_compute; reflexivity.
Qed.

(** C2 fails on the code: the batch [rawBad] is attached, fails validation
    and is rolled back. The call returns [ErrHasInvalidChanges], the
    candidate is in neither partition and nothing was written, but the
    head set, [r] before the call, is left at the removed [c1]. *)
Theorem rollback_keeps_new_heads :
  Heads (treeOf freshDoc) = ["r"] /\
  exists res d',
    @AddRawChanges _ docDeps docAcl freshDoc [rawBad]
      = (Returned (res, Some ErrHasInvalidChanges), d', [], []) /\
    HasChange (treeOf d') "c1" = false /\
    attached (treeOf d') = attached (treeOf freshDoc) /\
    unAttached (treeOf d') = unAttached (treeOf freshDoc) /\
    Heads (treeOf d') = ["c1"] /\
    treeOf d' <> treeOf freshDoc.
Proof.
  split; [vm_compute; reflexivity|].
  do 2 eexists. split; [vm_compute; reflexivity|].
  split; [vm_compute; reflexivity|].
  split; [vm_compute; reflexivity|].
  split; [vm_compute; reflexivity|].
  split; [vm_compute; reflexivity|].
  intros Heq. apply (f_equal headIds) in Heq. vm_compute in Heq. discriminate.
Qed.

(** The tree in which the rejected change sits before the rollback. *)
Definition withBad : Tree :=
  (specTreeAdd (treeOf freshDoc) [NewChange "c1" pbBad (Signature rawBad)]).2.

Lemma AddRawChanges_invalid_batch_witness :
  tree freshDoc = Some (treeOf freshDoc) /\
  @collectNew _ docDeps (treeOf freshDoc) [rawBad] 0 [] [] []
    = inr ([NewChange "c1" pbBad (Signature rawBad)], [], [0%nat]) /\
  [0%nat] <> [] /\
  existsb (isOldSnapshot (treeOf freshDoc) []) [NewChange "c1" pbBad (Signature rawBad)]
    = false /\
  @TreeAdd _ docDeps (treeOf freshDoc) [NewChange "c1" pbBad (Signature rawBad)]
    = (Append, withBad) /\
  Append <> Nothing /\
  @ValidateTree _ docDeps withBad docAcl = Some (ErrACL ACL.ErrInsufficientPermissions) /\
  @AddRawChanges _ docDeps docAcl freshDoc [rawBad] =
    (Returned (zeroAddResult, Some ErrHasInvalidChanges),
     setTree (Some (rollback [NewChange "c1" pbBad (Signature rawBad)] withBad)) freshDoc,
     [], []) /\
  Heads (rollback [NewChange "c1" pbBad (Signature rawBad)] withBad) = Heads withBad.
Proof.
  assert (tree freshDoc = Some (treeOf freshDoc)) as H1 by (vm_compute; reflexivity).
  assert (@collectNew _ docDeps (treeOf freshDoc) [rawBad] 0 [] [] []
            = inr ([NewChange "c1" pbBad (Signature rawBad)], [], [0%nat])) as H2
    by (vm_compute; reflexivity).
  assert ([0%nat] <> []) as H3 by discriminate.
  assert (existsb (isOldSnapshot (treeOf freshDoc) [])
            [NewChange "c1" pbBad (Signature rawBad)] = false) as H4
    by (vm_compute; reflexivity).
  assert (@TreeAdd _ docDeps (treeOf freshDoc) [NewChange "c1" pbBad (Signature rawBad)]
            = (Append, withBad)) as H5 by (vm_compute; reflexivity).
  assert (Append <> Nothing) as H6 by discriminate.
  assert (@ValidateTree _ docDeps withBad docAcl
            = Some (ErrACL ACL.ErrInsufficientPermissions)) as H7
    by (vm_compute; reflexivity).
  repeat (split; [assumption|]).
  exact (@AddRawChanges_invalid_batch _ docDeps docAcl freshDoc [rawBad] _ _ _ _ _ _ _
           H1 H2 H3 H4 H5 H6 H7).
Defined.

(** The tree after [c1] was ingested once. *)
Definition ingestedOnce : docTree memStorage :=
  (@AddRawChanges _ docDeps docAcl freshDoc [rawC1]).1.1.2.

(** C3, as stated, fails: the first ingest of [c1] appends it; the second
    ingest of the same batch yields summary Nothing and still issues a
    [SetHeads] write. *)
Lemma second_ingest_writes_heads :
  exists res1 writes1 notes1 res2 d2 notes2,
    @AddRawChanges _ docDeps docAcl freshDoc [rawC1]
      = (Returned (res1, None), ingestedOnce, writes1, notes1) /\
    Summary res1 = AddResultSummaryAppend /\
    @AddRawChanges _ docDeps docAcl ingestedOnce [rawC1]
      = (Returned (res2, None), d2, [WriteHeads ["c1"]], notes2) /\
    Summary res2 = AddResultSummaryNothing.
Proof.
  do 6 eexists. split; [vm_compute; reflexivity|].
  split; [reflexivity|].
  split; [vm_compute; reflexivity|]. reflexivity.
Qed.

(** Why the amendment of C3 speaks of known ids: with the tree
    operations as described, the batch [c1; s2] is appended and the tree
    compacted to the snapshot [s2], which drops [c1] from memory; the same
    batch then finds [c1] unknown, based on the old snapshot [r], and the
    call rebuilds from storage instead of answering Nothing. *)
Example second_ingest_after_compaction :
  let first := @AddRawChanges _ docDeps docAcl freshDoc [rawC1; rawSnap] in
  let second := @AddRawChanges _ docDeps docAcl first.1.1.2 [rawC1; rawSnap] in
  (Summary <$> (match first.1.1.1 with Returned (res, None) => Some res | _ => None end)
     = Some AddResultSummaryAppend) /\
  RootId (treeOf first.1.1.2) = "s2" /\
  HasChange (treeOf first.1.1.2) "c1" = false /\
  (Summary <$> (match second.1.1.1 with Returned (res, None) => Some res | _ => None end)
     = Some AddResultSummaryRebuild) /\
  second.1.2 = [WriteHeads ["s2"]].
Proof. vm_compute. repeat split. Qed.

Lemma AddRawChanges_known_batch_witness :
  tree ingestedOnce = Some (treeOf ingestedOnce) /\
  (forall raw, raw ∈ [rawC1] -> HasChange (treeOf ingestedOnce) (Id raw) = true) /\
  exists err d' notes,
    @AddRawChanges _ docDeps docAcl ingestedOnce [rawC1] =
      (Returned (mkAddResult [] [] [] AddResultSummaryNothing, err), d',
       [WriteHeads (Heads (@reduceTree _ docDeps (treeOf ingestedOnce)))], notes) /\
    tree d' = Some (@reduceTree _ docDeps (treeOf ingestedOnce)) /\
    (err, treeStorage d') =
      @SetHeads _ docDeps (treeStorage ingestedOnce)
        (Heads (@reduceTree _ docDeps (treeOf ingestedOnce))).
Proof.
  assert (tree ingestedOnce = Some (treeOf ingestedOnce)) as Htree
    by (vm_compute; reflexivity).
  assert (forall raw, raw ∈ [rawC1] -> HasChange (treeOf ingestedOnce) (Id raw) = true)
    as Hknown.
  { intros raw Hin. apply list_elem_of_singleton in Hin. subst raw.
    vm_compute. reflexivity. }
  split; [exact Htree|]. split; [exact Hknown|].
  exact (@AddRawChanges_known_batch _ docDeps docAcl ingestedOnce [rawC1]
           (treeOf ingestedOnce) Htree Hknown).
Defined.

(** [AddContent] on a node that holds no read key: the call fails with
    [ErrNoReadKey] before anything is written, and the listener is
    notified all the same. *)
Lemma AddContent_notifies_once_witness :
  hasListener freshDoc = true /\
  (@AddContent _ docDeps docAcl (mkContent "text" "bob" "bob" false) 5 freshDoc).2
    = [NotifyUpdate].
Proof.
  split; [reflexivity|].
  exact (@AddContent_notifies_once _ docDeps docAcl (mkContent "text" "bob" "bob" false)
           5 freshDoc eq_refl).
Defined.

Lemma AddContent_error_without_write_witness :
  (@AddContent _ docDeps docAcl (mkContent "text" "bob" "bob" false) 5 freshDoc).1.1.1
    = Returned (None, Some (ErrACL ACL.ErrNoReadKey)) /\
  (@AddContent _ docDeps docAcl (mkContent "text" "bob" "bob" false) 5 freshDoc).1.2 = [].
Proof.
  assert ((@AddContent _ docDeps docAcl (mkContent "text" "bob" "bob" false) 5 freshDoc).1.1.1
            = Returned (None, Some (ErrACL ACL.ErrNoReadKey))) as Herr
    by (vm_compute; reflexivity).
  split; [exact Herr|].
  exact (@AddContent_error_without_write _ docDeps docAcl _ 5 freshDoc _ Herr).
Defined.

Lemma rollback_removes_witness :
  attached withBad ##ₘ unAttached withBad /\
  NewChange "c1" pbBad (Signature rawBad) ∈ [NewChange "c1" pbBad (Signature rawBad)] /\
  HasChange (rollback [NewChange "c1" pbBad (Signature rawBad)] withBad) "c1" = false.
Proof.
  assert (attached withBad ##ₘ unAttached withBad) as Hdisj.
  { replace (unAttached withBad) with (∅ : gmap string Change) by (vm_compute; reflexivity).
    apply map_disjoint_empty_r. }
  assert (NewChange "c1" pbBad (Signature rawBad) ∈ [NewChange "c1" pbBad (Signature rawBad)])
    as Hin by apply list_elem_of_here.
  split; [exact Hdisj|]. split; [exact Hin|].
  exact (rollback_removes _ withBad _ Hdisj Hin).
Defined.

(** [alice] as a client with her keys adds content to the fresh tree: the
    change is built on the heads, stored, made the only head, and the
    listener is notified. *)
Definition aliceAcl : ACLList := mkACLList [ACL.sealedRootRecord] ACL.aliceClient "acl".

Example AddContent_appends :
  match @AddContent _ docDeps aliceAcl (mkContent "text" "sign-alice" "alice" false) 5 freshDoc
  with
  | (Returned (Some raw, None), d', writes, notes) =>
      writes = [WriteRawChange raw; WriteHeads [Id raw]] /\
      notes = [NotifyUpdate] /\
      Heads (treeOf d') = [Id raw] /\
      stHeads (treeStorage d') = [Id raw] /\
      PreviousIds <$> attached (treeOf d') !! Id raw = Some ["r"]
  | _ => False
  end.
Proof. vm_compute. repeat split. Qed.

Example AddContent_without_read_key :
  @AddContent _ docDeps docAcl (mkContent "text" "bob" "bob" false) 5 freshDoc
    = (Returned (None, Some (ErrACL ACL.ErrNoReadKey)), freshDoc, [], [NotifyUpdate]).
Proof. vm_compute. reflexivity. Qed.

(** ** More of what doctree.go does, for any collaborators *)

(** The batch entries the filtering loop lets through: those the tree
    does not know yet. *)
Definition unknownTo (t : Tree) (raw : RawChange) : Prop := HasChange t (Id raw) = false.

#[global] Instance unknownTo_dec t raw : Decision (unknownTo t raw).
Proof. unfold unknownTo. apply _. Defined.

Section Batches.
Context {S : Type} `{Deps S}.

Lemma getAddedChanges_app (t : Tree) rawChanges idxs1 idxs2 :
  getAddedChanges t rawChanges (idxs1 ++ idxs2) =
    (getAddedChanges t rawChanges idxs1 ++ getAddedChanges t rawChanges idxs2)%list.
Proof. unfold getAddedChanges. apply flat_map_app. Qed.

(** What the filtering loop leaves in [notSeenIdxBuf], read through
    [getAddedChanges]: the unknown entries of the batch that [t1] has
    attached, in batch order. *)
Lemma collectNew_added (t t1 : Tree) (pre rawChanges : list RawChange)
    tmp snaps notSeen tmp' snaps' notSeen' :
  collectNew t rawChanges (length pre) tmp snaps notSeen = inr (tmp', snaps', notSeen') ->
  getAddedChanges t1 (pre ++ rawChanges) notSeen' =
    (getAddedChanges t1 (pre ++ rawChanges) notSeen
     ++ filter (fun raw => unknownTo t raw /\ is_Some (attached t1 !! Id raw)) rawChanges)%list.
Proof.
  revert pre tmp snaps notSeen.
  induction rawChanges as [|ch rest IH]; intros pre tmp snaps notSeen Hrun; simpl in Hrun.
  - simplify_eq. by rewrite filter_nil, !app_nil_r.
  - assert ((pre ++ ch :: rest)%list = ((pre ++ [ch]) ++ rest)%list) as Hsplit
      by (by rewrite <- app_assoc).
    assert (Datatypes.S (length pre) = length (pre ++ [ch])%list) as Hlen
      by (rewrite length_app; simpl; lia).
    destruct (HasChange t (Id ch)) eqn:Hknown.
    + rewrite Hlen in Hrun. rewrite Hsplit. rewrite (IH _ _ _ _ Hrun).
      rewrite filter_cons_False; [done|]. unfold unknownTo. intros [Hu _]. congruence.
    + destruct (NewVerifiedChangeFromRaw ch) as [err|change]; [done|].
      rewrite Hlen in Hrun. rewrite Hsplit. rewrite (IH _ _ _ _ Hrun).
      rewrite getAddedChanges_app, <- app_assoc. f_equal.
      rewrite <- Hsplit. unfold getAddedChanges at 1. simpl.
      rewrite lookup_app_r by lia. rewrite Nat.sub_diag. simpl. rewrite app_nil_r.
      destruct (attached t1 !! Id ch) as [x|] eqn:Hatt.
      * rewrite bool_decide_eq_true_2 by eauto.
        rewrite filter_cons_True; [done|]. split; [done|]. rewrite Hatt. eauto.
      * rewrite bool_decide_eq_false_2 by (by intros [? ?]).
        rewrite filter_cons_False; [done|]. rewrite Hatt. by intros [_ [? ?]].
Qed.

(** What [Added] holds when [addRawChanges] returns without error. With
    summary Nothing it is empty. Otherwise it lists, in batch order,
    exactly the entries of the batch that the tree did not know before the
    call and has attached after it: nothing that was not sent, nothing
    known before, nothing that is only waiting unattached. *)
Theorem addRawChanges_added (aclList : ACLList) (d d' : docTree S)
    (rawChanges : list RawChange) (t : Tree) mode res :
  tree d = Some t ->
  addRawChanges aclList d rawChanges = (Returned (mode, res, None), d') ->
  (Summary res = AddResultSummaryNothing -> Added res = []) /\
  (Summary res <> AddResultSummaryNothing ->
   exists t', tree d' = Some t' /\
     Added res =
       filter (fun raw => unknownTo t raw /\ is_Some (attached t' !! Id raw)) rawChanges).
Proof.
  intros Htree. unfold addRawChanges. rewrite Htree.
  destruct (collectNew t rawChanges 0 [] [] []) as [err|[[tmp snaps] notSeen]] eqn:Hcollect;
    [by intros ?; simplify_eq|].
  assert (forall t1, getAddedChanges t1 rawChanges notSeen =
            filter (fun raw => unknownTo t raw /\ is_Some (attached t1 !! Id raw)) rawChanges)
    as Hadded.
  { intros t1. apply (collectNew_added t t1 []) in Hcollect. simpl in Hcollect.
    by rewrite Hcollect. }
  intros Hrun. repeat case_match; simplify_eq; simpl; split; try done; intros _.
  - eexists. split; [eassumption|apply Hadded].
  - eexists. split; [reflexivity|apply Hadded].
  - eexists. split; [reflexivity|apply Hadded].
Qed.

Lemma persistAdded_writes (added : list RawChange) (s s' : S) err writes :
  persistAdded added s = (err, s', writes) ->
  exists k, writes = WriteRawChange <$> take k added /\
            (err = None -> k = length added).
Proof.
  revert s s' err writes.
  induction added as [|ch rest IH]; intros s s' err writes Hrun; simpl in Hrun.
  - simplify_eq. exists 0%nat. done.
  - destruct (AddRawChange s ch) as [[e|] s1].
    + simplify_eq. exists 1%nat. split; done.
    + destruct (persistAdded rest s1) as [[err2 s2] writes2] eqn:Hrest.
      simplify_eq. apply IH in Hrest as (k & -> & Hk).
      exists (Datatypes.S k). split; [done|]. intros Herr. simpl. f_equal. by apply Hk.
Qed.

(** The storage writes of [AddRawChanges]. Whatever the outcome, the
    writes are raw changes of [Added], in order, followed by at most one
    write of the heads; a raw change that is not in [Added] is never
    written. When the call returns without error every added change was
    written once, in order, and then the heads of the tree as it is after
    the call. *)
Theorem AddRawChanges_writes (aclList : ACLList) (d d' : docTree S)
    (rawChanges : list RawChange) res err writes notes :
  AddRawChanges aclList d rawChanges = (Returned (res, err), d', writes, notes) ->
  ((exists k, writes = WriteRawChange <$> take k (Added res)) \/
   (exists heads, writes = ((WriteRawChange <$> Added res) ++ [WriteHeads heads])%list)) /\
  (err = None ->
   exists t', tree d' = Some t' /\
     writes = ((WriteRawChange <$> Added res) ++ [WriteHeads (Heads t')])%list).
Proof.
  unfold AddRawChanges. intros Hrun.
  destruct (addRawChanges aclList d rawChanges) as [[[[mode res1] [e|]]|] d1] eqn:Hadd;
    simplify_eq.
  - split; [|done]. left. by exists 0%nat.
  - destruct (tree d1) as [t1|] eqn:Ht1; [|done].
    destruct (persistAdded (Added res1) (treeStorage d1)) as [[e s1] ws] eqn:Hpersist.
    apply persistAdded_writes in Hpersist as (k & Hw & Hk).
    destruct e as [e|].
    + simplify_eq. split; [|done]. left. by exists k.
    + rewrite (Hk eq_refl), firstn_all in Hw. subst ws.
      destruct (SetHeads s1 (Heads (reduceTree t1))) as [[e2|] s2] eqn:Hset; simplify_eq.
      * split; [|done]. right. by eexists.
      * split; [right; by eexists|].
        intros _. eexists. split; [reflexivity|done].
Qed.

(** A batch with a new change that does not verify is refused as a whole
    before anything is touched: the call returns an error with the zero
    result and leaves the tree, the storage and the listener alone, also
    when other changes of the batch are fine. *)
Theorem AddRawChanges_unverified (aclList : ACLList) (d : docTree S)
    (rawChanges : list RawChange) (t : Tree) (raw : RawChange) (e : Error) :
  tree d = Some t ->
  raw ∈ rawChanges ->
  HasChange t (Id raw) = false ->
  NewVerifiedChangeFromRaw raw = inl e ->
  exists e',
    AddRawChanges aclList d rawChanges = (Returned (zeroAddResult, Some e'), d, [], []).
Proof.
  intros Htree Hin Hnew Hbad.
  assert (forall idx tmp snaps notSeen,
            exists e', collectNew t rawChanges idx tmp snaps notSeen = inl e') as Hcollect.
  { induction rawChanges as [|ch rest IH]; intros idx tmp snaps notSeen.
    - by apply elem_of_nil in Hin.
    - simpl. apply elem_of_cons in Hin as [<-|Hin].
      + rewrite Hnew, Hbad. eauto.
      + destruct (HasChange t (Id ch)); [by apply IH|].
        destruct (NewVerifiedChangeFromRaw ch); [eauto|by apply IH]. }
  destruct (Hcollect 0%nat [] [] []) as [e' He'].
  exists e'. unfold AddRawChanges, addRawChanges. by rewrite Htree, He'.
Qed.

(** What a successful [AddContent] has done. The payload it marshalled
    names the heads the tree had as parents, the root as snapshot base and
    the ACL state's current read key hash; the data are encrypted under
    the current read key; the raw change carries that payload, the
    author's signature over it and its content id; the change was
    attached by [AddMergedHead] (to an empty tree for a snapshot); and the
    raw change was written before the heads, which are its id alone. *)
Theorem AddContent_success (aclList : ACLList) (content : SignableChangeContent)
    (now : Z) (d d' : docTree S) (t : Tree) raw writes notes :
  tree d = Some t ->
  AddContent aclList content now d = (Returned (Some raw, None), d', writes, notes) ->
  exists marshalled readKey encrypted t',
    MarshalProto (contentProto content) = Some marshalled /\
    ACL.CurrentReadKey (aclState aclList) = ACL.Ok readKey /\
    Encrypt readKey marshalled = Some encrypted /\
    let payload :=
      mkPbChange (Heads t) (aclHeadId aclList) (RootId t)
        (ACL.CurrentReadKeyHash (aclState aclList)) now (contentIdentity content)
        (contentIsSnapshot content) encrypted in
    MarshalChange payload = Some (Payload raw) /\
    Sign (contentKey content) (Payload raw) = Some (Signature raw) /\
    NewCIDFromBytes (Payload raw) = Some (Id raw) /\
    AddMergedHead (if contentIsSnapshot content then emptyTree else t)
      (NewChange (Id raw) payload (Signature raw)) = Some t' /\
    tree d' = Some t' /\
    writes = [WriteRawChange raw; WriteHeads [Id raw]].
Proof.
  intros Htree. unfold AddContent, AddContentBody. rewrite Htree.
  destruct (MarshalProto _) as [marshalled|] eqn:Hm; [|by intros ?; simplify_eq].
  destruct (ACL.CurrentReadKey _) as [readKey|e|] eqn:Hk; [|by intros ?; simplify_eq..].
  destruct (Encrypt readKey marshalled) as [encrypted|] eqn:He; [|by intros ?; simplify_eq].
  simpl.
  destruct (MarshalChange _) as [full|] eqn:Hfull; [|by intros ?; simplify_eq].
  destruct (Sign _ full) as [signature|] eqn:Hsign; [|by intros ?; simplify_eq].
  destruct (NewCIDFromBytes full) as [id0|] eqn:Hcid; [|by intros ?; simplify_eq].
  destruct (AddMergedHead _ _) as [t2|] eqn:Hmerge; [|by intros ?; simplify_eq].
  destruct (AddRawChange _ _) as [[e|] s1] eqn:Hadd; [by intros ?; simplify_eq|].
  destruct (SetHeads _ _) as [e2 s2] eqn:Hset.
  intros Hrun. simplify_eq. simpl.
  exists marshalled, readKey, encrypted, t2. repeat split; done.
Qed.

End Batches.

(** ** The batch properties on the scenarios *)

Definition appendRun : outcome (Mode * AddResult * option Error) * docTree memStorage :=
  @addRawChanges _ docDeps docAcl freshDoc [rawC1; rawC2].

Definition appendResult : AddResult :=
  match appendRun.1 with
  | Returned (_, res, _) => res
  | Panicked => zeroAddResult
  end.

Lemma addRawChanges_added_witness :
  tree freshDoc = Some (treeOf freshDoc) /\
  @addRawChanges _ docDeps docAcl freshDoc [rawC1; rawC2]
    = (Returned (Append, appendResult, None), appendRun.2) /\
  exists t', tree appendRun.2 = Some t' /\
    Added appendResult =
      filter (fun raw => unknownTo (treeOf freshDoc) raw /\ is_Some (attached t' !! Id raw))
        [rawC1; rawC2].
Proof.
  assert (tree freshDoc = Some (treeOf freshDoc)) as Htree by (vm_compute; reflexivity).
  assert (@addRawChanges _ docDeps docAcl freshDoc [rawC1; rawC2]
            = (Returned (Append, appendResult, None), appendRun.2)) as Hrun
    by (vm_compute; reflexivity).
  split; [exact Htree|]. split; [exact Hrun|].
  apply (proj2 (@addRawChanges_added _ docDeps docAcl freshDoc _ _ _ _ _ Htree Hrun)).
  vm_compute. discriminate.
Defined.

Definition appendCall
    : outcome (AddResult * option Error) * docTree memStorage
      * list StorageWrite * list Notification :=
  @AddRawChanges _ docDeps docAcl freshDoc [rawC1; rawC2].

Lemma AddRawChanges_writes_witness :
  @AddRawChanges _ docDeps docAcl freshDoc [rawC1; rawC2]
    = (Returned (appendResult, None), appendCall.1.1.2, appendCall.1.2, appendCall.2) /\
  exists t', tree appendCall.1.1.2 = Some t' /\
    appendCall.1.2 =
      ((WriteRawChange <$> Added appendResult) ++ [WriteHeads (Heads t')])%list.
Proof.
  assert (@AddRawChanges _ docDeps docAcl freshDoc [rawC1; rawC2]
            = (Returned (appendResult, None), appendCall.1.1.2, appendCall.1.2, appendCall.2))
    as Hrun by (vm_compute; reflexivity).
  split; [exact Hrun|].
  exact (proj2 (@AddRawChanges_writes _ docDeps docAcl freshDoc _ _ _ _ _ _ Hrun) eq_refl).
Defined.

(** Scenario S4: [c2] arrives with a signature that is not its author's,
    next to the sound [c1]. *)
Definition rawForged : RawChange := mkRaw (Payload rawC2) "forged" "c2".

Lemma AddRawChanges_unverified_witness :
  tree freshDoc = Some (treeOf freshDoc) /\
  rawForged ∈ [rawC1; rawForged] /\
  HasChange (treeOf freshDoc) (Id rawForged) = false /\
  @NewVerifiedChangeFromRaw _ docDeps rawForged = inl (ErrACL ACL.ErrInvalidSignature) /\
  exists e',
    @AddRawChanges _ docDeps docAcl freshDoc [rawC1; rawForged]
      = (Returned (zeroAddResult, Some e'), freshDoc, [], []).
Proof.
  assert (tree freshDoc = Some (treeOf freshDoc)) as H1 by (vm_compute; reflexivity).
  assert (rawForged ∈ [rawC1; rawForged]) as H2
    by (apply list_elem_of_further, list_elem_of_here).
  assert (HasChange (treeOf freshDoc) (Id rawForged) = false) as H3
    by (vm_compute; reflexivity).
  assert (@NewVerifiedChangeFromRaw _ docDeps rawForged
            = inl (ErrACL ACL.ErrInvalidSignature)) as H4 by (vm_compute; reflexivity).
  repeat (split; [assumption|]).
  exact (@AddRawChanges_unverified _ docDeps docAcl freshDoc _ _ _ _ H1 H2 H3 H4).
Defined.

Definition aliceCall
    : outcome (option RawChange * option Error) * docTree memStorage
      * list StorageWrite * list Notification :=
  @AddContent _ docDeps aliceAcl (mkContent "text" "sign-alice" "alice" false) 5 freshDoc.

Definition aliceRaw : RawChange :=
  match aliceCall.1.1.1 with
  | Returned (Some raw, _) => raw
  | _ => mkRaw "" "" ""
  end.

Lemma AddContent_success_witness :
  tree freshDoc = Some (treeOf freshDoc) /\
  @AddContent _ docDeps aliceAcl (mkContent "text" "sign-alice" "alice" false) 5 freshDoc
    = (Returned (Some aliceRaw, None), aliceCall.1.1.2, aliceCall.1.2, aliceCall.2) /\
  exists marshalled readKey encrypted t',
    @MarshalProto _ docDeps "text" = Some marshalled /\
    ACL.CurrentReadKey ACL.aliceClient = ACL.Ok readKey /\
    @Encrypt _ docDeps readKey marshalled = Some encrypted /\
    @MarshalChange _ docDeps
      (mkPbChange (Heads (treeOf freshDoc)) "acl" (RootId (treeOf freshDoc))
         (ACL.CurrentReadKeyHash ACL.aliceClient) 5 "alice" false encrypted)
      = Some (Payload aliceRaw) /\
    @Sign _ docDeps "sign-alice" (Payload aliceRaw) = Some (Signature aliceRaw) /\
    @NewCIDFromBytes _ docDeps (Payload aliceRaw) = Some (Id aliceRaw) /\
    @AddMergedHead _ docDeps (treeOf freshDoc)
      (NewChange (Id aliceRaw)
         (mkPbChange (Heads (treeOf freshDoc)) "acl" (RootId (treeOf freshDoc))
            (ACL.CurrentReadKeyHash ACL.aliceClient) 5 "alice" false encrypted)
         (Signature aliceRaw)) = Some t' /\
    tree aliceCall.1.1.2 = Some t' /\
    aliceCall.1.2 = [WriteRawChange aliceRaw; WriteHeads [Id aliceRaw]].
Proof.
  assert (tree freshDoc = Some (treeOf freshDoc)) as Htree by (vm_compute; reflexivity).
  assert (@AddContent _ docDeps aliceAcl (mkContent "text" "sign-alice" "alice" false) 5
            freshDoc
          = (Returned (Some aliceRaw, None), aliceCall.1.1.2, aliceCall.1.2, aliceCall.2))
    as Hrun by (vm_compute; reflexivity).
  split; [exact Htree|]. split; [exact Hrun|].
  exact (@AddContent_success _ docDeps aliceAcl _ 5 freshDoc _ _ _ _ _ Htree Hrun).
Defined.

End DocTree.

(* ===================================================================== *)
(** * ACLTreeBuilder (data/acltreebuilder.go) *)
(* ===================================================================== *)

Module TreeBuilder.

(** What [thread.GetChange] hands out. *)
Record RawChange := mkRaw { Payload : string; Signature : string }.

(** [pb.ACLChange]; the builder reads [Identity] only. *)
Record ACLChange := mkACLChange { Identity : string; Data : string }.

(** [Change], with the fields the builder reads. *)
Record Change := mkChange {
  Id : string;
  PreviousIds : list string;
  Content : ACLChange
}.

#[global] Instance ACLChange_eq_dec : EqDecision ACLChange.
Proof. solve_decision. Defined.

#[global] Instance Change_eq_dec : EqDecision Change.
Proof. solve_decision. Defined.

Inductive Error :=
| ErrCollaborator (msg : string)   (* an error a collaborator returned *)
| ErrNotVerified                   (* the signature of the payload cannot be verified *)
| ErrNoRoot                        (* cannot have tree without root *)
| ErrRootNotFound                  (* could not find any root *)
| ErrBuildTree (inner : Error).    (* buildTree error: ... *)

(** A call returns or panics. *)
Inductive outcome (A : Type) :=
| Returned (a : A)
| Panicked.
Arguments Returned {A} a.
Arguments Panicked {A}.

(** The thread, the key decoder and the constructors the builder calls;
    all are declared in other packages. A [*Change] may be nil. *)
Class Thread := {
  ID : string;
  Heads : list string;
  (** [thread.GetChange] *)
  GetChange : string -> Error + RawChange;
  (** [proto.Unmarshal] into a [pb.ACLChange] *)
  Unmarshal : string -> Error + ACLChange;
  (** [SigningPubKeyDecoder.DecodeFromString] *)
  DecodeFromString : string -> Error + string;
  (** [SigningPubKey.Verify key payload signature] *)
  Verify : string -> string -> string -> Error + bool;
  (** [NewACLChange]: the pointer it returns; its error is dropped by
      [loadChange] *)
  NewACLChange : string -> ACLChange -> option Change;
  (** [thread.Decode] of the thread id *)
  Decode : string -> Error + string;
  (** [threadmodels.VerifyACLThreadID key threadId] *)
  VerifyACLThreadID : string -> string -> Error + bool
}.

(** [cache] is [None] for the nil map [Build] leaves behind; an entry may
    hold a nil pointer. [tree] is the sequence of changes handed to
    [Tree.AddFast], which is declared elsewhere. [logHeads] is never
    used. *)
Record ACLTreeBuilder := mkBuilder {
  cache : option (gmap string (option Change));
  identityKeys : gmap string string;
  tree : list Change
}.

Definition NewACLTreeBuilder : ACLTreeBuilder := mkBuilder (Some ∅) ∅ [].

Section Builder.
Context `{Thread}.

(** [verify]: the decoded key is remembered per identity. *)
Definition verify (identity0 payload signature : string) (tb : ACLTreeBuilder)
    : (Error + bool) * ACLTreeBuilder :=
  match identityKeys tb !! identity0 with
  | Some identityKey => (Verify identityKey payload signature, tb)
  | None =>
      match DecodeFromString identity0 with
      | inl e => (inl e, tb)
      | inr identityKey =>
          (Verify identityKey payload signature,
           mkBuilder (cache tb) (<[identity0 := identityKey]> (identityKeys tb)) (tree tb))
      end
  end.

(** [loadChange] returns a pointer and an error. A read of a nil map
    finds nothing; the write [tb.cache[id] = ch] to a nil map panics. *)
Definition loadChange (id0 : string) (tb : ACLTreeBuilder)
    : outcome (option Change * option Error) * ACLTreeBuilder :=
  match cache tb ≫= (fun m => m !! id0) with
  | Some ch => (Returned (ch, None), tb)
  | None =>
      match GetChange id0 with
      | inl e => (Returned (None, Some e), tb)
      | inr change =>
          match Unmarshal (Payload change) with
          | inl e => (Returned (None, Some e), tb)
          | inr aclChange =>
              match verify (Identity aclChange) (Payload change) (Signature change) tb with
              | (inl e, tb1) => (Returned (None, Some e), tb1)
              | (inr false, tb1) => (Returned (None, Some ErrNotVerified), tb1)
              | (inr true, tb1) =>
                  let ch := NewACLChange id0 aclChange in
                  match cache tb1 with
                  | None => (Panicked, tb1)
                  | Some m =>
                      (Returned (ch, None),
                       mkBuilder (Some (<[id0 := ch]> m)) (identityKeys tb1) (tree tb1))
                  end
              end
          end
      end
  end.

(** [dfsFromStart]. The Go stack is a slice whose top is its last
    element; here the top is the head of the list, so the loop starts from
    the reversed heads. A change that does not load is passed over. The
    third result of the Go function is always nil. [rounds] bounds the
    number of loop rounds; [None] stands for running out of them. *)
Fixpoint dfs (rounds : nat) (stack : list string) (uniqMap : gset string)
    (buf possibleRoots : list Change) (tb : ACLTreeBuilder)
    : option (outcome (list Change * list Change) * ACLTreeBuilder) :=
  match rounds with
  | O => None
  | S rounds =>
      match stack with
      | [] => Some (Returned (buf, possibleRoots), tb)
      | id0 :: stack =>
          if decide (id0 ∈ uniqMap) then dfs rounds stack uniqMap buf possibleRoots tb
          else
            match loadChange id0 tb with
            | (Panicked, tb1) => Some (Panicked, tb1)
            | (Returned (_, Some _), tb1) => dfs rounds stack uniqMap buf possibleRoots tb1
            | (Returned (None, None), tb1) => Some (Panicked, tb1)
            | (Returned (Some ch, None), tb1) =>
                dfs rounds (reverse (PreviousIds ch) ++ stack)%list ({[id0]} ∪ uniqMap)
                  (buf ++ [ch])%list
                  (if decide (PreviousIds ch = []) then (possibleRoots ++ [ch])%list
                   else possibleRoots)
                  tb1
            end
      end
  end.

Definition dfsFromStart (rounds : nat) (stack : list string) (tb : ACLTreeBuilder)
    : option (outcome (list Change * list Change) * ACLTreeBuilder) :=
  dfs rounds (reverse stack) ∅ [] [] tb.

(** Whether [r] passes the three checks of the loop of [getRoot]. *)
Definition isRoot (threadId : string) (r : Change) : bool :=
  match DecodeFromString (Identity (Content r)) with
  | inl _ => false
  | inr sk =>
      match VerifyACLThreadID sk threadId with
      | inr true => true
      | _ => false
      end
  end.

Definition getRoot (possibleRoots : list Change) : Error + Change :=
  match Decode ID with
  | inl e => inl e
  | inr threadId =>
      match List.find (isRoot threadId) possibleRoots with
      | Some r => inr r
      | None => inl ErrRootNotFound
      end
  end.

Definition buildTreeFromStart (rounds : nat) (heads : list string) (tb : ACLTreeBuilder)
    : option (outcome (option Error) * ACLTreeBuilder) :=
  match dfsFromStart rounds heads tb with
  | None => None
  | Some (Panicked, tb1) => Some (Panicked, tb1)
  | Some (Returned (changes, possibleRoots), tb1) =>
      if decide (length possibleRoots = 0%nat) then Some (Returned (Some ErrNoRoot), tb1)
      else
        match getRoot possibleRoots with
        | inl e => Some (Returned (Some e), tb1)
        | inr root =>
            Some (Returned None,
                  mkBuilder (cache tb1) (identityKeys tb1)
                    (tree tb1 ++ root :: changes)%list)
        end
  end.

(** [Build] returns the tree and an error. *)
Definition Build (rounds : nat) (tb : ACLTreeBuilder)
    : option (outcome (option (list Change) * option Error) * ACLTreeBuilder) :=
  match buildTreeFromStart rounds Heads tb with
  | None => None
  | Some (Panicked, tb1) => Some (Panicked, tb1)
  | Some (Returned (Some e), tb1) => Some (Returned (None, Some (ErrBuildTree e)), tb1)
  | Some (Returned None, tb1) =>
      Some (Returned (Some (tree tb1), None),
            mkBuilder None (identityKeys tb1) (tree tb1))
  end.

End Builder.

(** ** What a change is, apart from the caches *)

Section Properties.
Context `{Thread}.

(** What [loadChange] makes of an id when nothing is cached: the pointer
    it returns, or [None] when it returns an error. *)
Definition load (id0 : string) : option (option Change) :=
  match GetChange id0 with
  | inl _ => None
  | inr change =>
      match Unmarshal (Payload change) with
      | inl _ => None
      | inr aclChange =>
          match DecodeFromString (Identity aclChange) with
          | inl _ => None
          | inr identityKey =>
              match Verify identityKey (Payload change) (Signature change) with
              | inr true => Some (NewACLChange id0 aclChange)
              | _ => None
              end
          end
      end
  end.

Definition loadable (id0 : string) (ch : Change) : Prop := load id0 = Some (Some ch).

(** The caches hold what the collaborators would answer again. *)
Definition consistent (tb : ACLTreeBuilder) : Prop :=
  (forall m id0 ch, cache tb = Some m -> m !! id0 = Some ch -> load id0 = Some ch) /\
  (forall identity0 key, identityKeys tb !! identity0 = Some key ->
     DecodeFromString identity0 = inr key).

Lemma NewACLTreeBuilder_consistent : consistent NewACLTreeBuilder.
Proof. split; intros; simplify_eq/=; by simplify_map_eq. Qed.

Lemma verify_spec identity0 payload signature tb r tb1 :
  consistent tb ->
  verify identity0 payload signature tb = (r, tb1) ->
  consistent tb1 /\ cache tb1 = cache tb /\ tree tb1 = tree tb /\
  r = match DecodeFromString identity0 with
      | inl e => inl e
      | inr key => Verify key payload signature
      end.
Proof.
  intros [Hcache Hkeys] Hrun. unfold verify in Hrun.
  destruct (identityKeys tb !! identity0) as [key|] eqn:Hkey.
  - simplify_eq. rewrite (Hkeys _ _ Hkey). by repeat split.
  - destruct (DecodeFromString identity0) as [e|key] eqn:Hdecode; simplify_eq.
    + by repeat split.
    + repeat split; try done. simpl. intros identity1 key1 Hlookup.
      destruct (decide (identity0 = identity1)) as [->|Hne].
      * rewrite lookup_insert_eq in Hlookup. by simplify_eq.
      * rewrite lookup_insert_ne in Hlookup by done. by apply Hkeys.
Qed.

(** [loadChange] against [load]: with a cache it answers as [load]
    does; on the nil map it cannot return a change at all. *)
Lemma loadChange_spec id0 tb r tb1 :
  consistent tb ->
  loadChange id0 tb = (r, tb1) ->
  consistent tb1 /\ tree tb1 = tree tb /\
  (is_Some (cache tb1) <-> is_Some (cache tb)) /\
  match load id0 with
  | Some ch =>
      match cache tb with
      | Some _ => r = Returned (ch, None)
      | None => r = Panicked
      end
  | None => exists e, r = Returned (None, Some e)
  end.
Proof.
  intros Hcons Hrun. pose proof Hcons as [Hcache Hkeys]. unfold loadChange in Hrun.
  destruct (cache tb ≫= (fun m => m !! id0)) as [ch|] eqn:Hhit.
  - injection Hrun as <- <-. split; [done|]. split; [done|]. split; [done|].
    destruct (cache tb) as [m|] eqn:Hm; [|done]. simpl in Hhit.
    by rewrite (Hcache m id0 ch eq_refl Hhit).
  - destruct (GetChange id0) as [e|change] eqn:Hget.
    { injection Hrun as <- <-. unfold load. rewrite Hget. by eauto 10. }
    destruct (Unmarshal (Payload change)) as [e|aclChange] eqn:Hun.
    { injection Hrun as <- <-. unfold load. rewrite Hget, Hun. by eauto 10. }
    destruct (verify _ _ _ tb) as [v tb2] eqn:Hverify.
    apply verify_spec in Hverify as (Hcons2 & Hc2 & Ht2 & ->); [|done].
    assert (load id0 =
            match DecodeFromString (Identity aclChange) with
            | inl _ => None
            | inr key =>
                match Verify key (Payload change) (Signature change) with
                | inr true => Some (NewACLChange id0 aclChange)
                | _ => None
                end
            end) as Hload by (unfold load; by rewrite Hget, Hun).
    rewrite Hload.
    destruct (DecodeFromString (Identity aclChange)) as [e|key].
    { injection Hrun as <- <-. rewrite Hc2. by eauto 10. }
    destruct (Verify key (Payload change) (Signature change)) as [e|[]].
    { injection Hrun as <- <-. rewrite Hc2. by eauto 10. }
    + destruct (cache tb2) as [m|] eqn:Hm2; injection Hrun as <- <-; rewrite <- Hc2.
      * split; [|split; [done|]; split; [by simpl; eauto|done]].
        destruct Hcons2 as [Hcache2 Hkeys2]. split; [|done].
        simpl. intros m' id1 ch1 [= <-] Hlookup.
        destruct (decide (id0 = id1)) as [->|Hne].
        -- rewrite lookup_insert_eq in Hlookup. by simplify_eq.
        -- rewrite lookup_insert_ne in Hlookup by done. by apply (Hcache2 m).
      * by rewrite Hm2.
    + injection Hrun as <- <-. rewrite Hc2. by eauto 10.
Qed.

(** ** The search *)

(** The ids the search can get to from [heads]: a head, or a parent of a
    change that could be got to and loads. *)
Inductive reaches (heads : list string) : string -> Prop :=
| reaches_head id0 : id0 ∈ heads -> reaches heads id0
| reaches_parent id0 ch prev :
    reaches heads id0 -> loadable id0 ch -> prev ∈ PreviousIds ch -> reaches heads prev.

Definition noParents (ch : Change) : Prop := PreviousIds ch = [].

(** How many ids a change puts on the stack. *)
Definition parents (id0 : string) : nat :=
  match load id0 with
  | Some (Some ch) => length (PreviousIds ch)
  | _ => 0
  end.

Definition weight (X : gset string) : nat := sum_list_with parents (elements X).

Lemma weight_remove (X : gset string) (id0 : string) :
  id0 ∈ X -> weight X = (parents id0 + weight (X ∖ {[id0]}))%nat.
Proof.
  intros Hin. unfold weight.
  assert (elements X ≡ₚ id0 :: elements (X ∖ {[id0]})) as ->; [|done].
  rewrite <- elements_union_singleton by set_solver.
  apply elements_proper. apply leibniz_equiv_iff.
  apply union_difference_L. set_solver.
Qed.

(** The loop ends: a round takes one id off the stack and puts the
    parents of a change there at most once per change. *)
Lemma dfs_rounds (known : gset string) rounds stack uniqMap buf roots tb :
  consistent tb ->
  (forall id0 ch, loadable id0 ch -> id0 ∈ known) ->
  (length stack + weight (known ∖ uniqMap) < rounds)%nat ->
  is_Some (dfs rounds stack uniqMap buf roots tb).
Proof.
  intros Hcons Hknown. revert stack uniqMap buf roots tb Hcons.
  induction rounds as [|rounds IH]; intros stack uniqMap buf roots tb Hcons Hlt; [lia|].
  destruct stack as [|id0 stack]; simpl; [eauto|]. simpl in Hlt.
  case_decide as Hseen; [apply IH; [done|lia]|].
  destruct (loadChange id0 tb) as [r tb1] eqn:Hload.
  apply loadChange_spec in Hload as (Hcons1 & _ & _ & Hr); [|done].
  destruct (load id0) as [[ch|]|] eqn:Hid.
  - destruct (cache tb); subst r; [|eauto].
    apply IH; [done|].
    assert (id0 ∈ known ∖ uniqMap) as Hin by (apply elem_of_difference; eauto).
    rewrite (weight_remove _ _ Hin) in Hlt. unfold parents in Hlt. rewrite Hid in Hlt.
    rewrite length_app, length_reverse.
    replace (known ∖ ({[id0]} ∪ uniqMap)) with (known ∖ uniqMap ∖ {[id0]}) by set_solver.
    lia.
  - destruct (cache tb); subst r; eauto.
  - destruct Hr as [e ->]. apply IH; [done|lia].
Qed.

Lemma reaches_push id0 ch stack x :
  loadable id0 ch ->
  reaches (reverse (PreviousIds ch) ++ stack) x -> reaches (id0 :: stack) x.
Proof.
  intros Hch. induction 1 as [x Hin|x c prev _ IH Hc Hprev].
  - apply elem_of_app in Hin as [Hin|Hin].
    + rewrite elem_of_reverse in Hin.
      apply (reaches_parent _ id0 ch x); [apply reaches_head, list_elem_of_here|done..].
    + by apply reaches_head, list_elem_of_further.
  - by eapply reaches_parent.
Qed.

Lemma reaches_pop id0 stack x : reaches stack x -> reaches (id0 :: stack) x.
Proof.
  induction 1 as [x Hin|x c prev _ IH Hc Hprev].
  - by apply reaches_head, list_elem_of_further.
  - by eapply reaches_parent.
Qed.

(** What the loop has collected when it returns. *)
Lemma dfs_collects rounds stack uniqMap ids buf roots tb buf' roots' tb' :
  consistent tb ->
  (forall id0, id0 ∈ uniqMap <-> id0 ∈ ids) ->
  NoDup ids -> Forall2 loadable ids buf ->
  roots = filter noParents buf ->
  dfs rounds stack uniqMap buf roots tb = Some (Returned (buf', roots'), tb') ->
  exists ids',
    ids `prefix_of` ids' /\ NoDup ids' /\ Forall2 loadable ids' buf' /\
    roots' = filter noParents buf' /\
    (forall id0 ch, id0 ∈ stack -> loadable id0 ch -> id0 ∈ ids') /\
    (forall id0 ch prev c, id0 ∈ ids' -> id0 ∉ ids -> loadable id0 ch ->
       prev ∈ PreviousIds ch -> loadable prev c -> prev ∈ ids') /\
    (forall id0, id0 ∈ ids' -> id0 ∈ ids \/ reaches stack id0) /\
    consistent tb' /\ tree tb' = tree tb /\ (is_Some (cache tb') <-> is_Some (cache tb)).
Proof.
  revert stack uniqMap ids buf roots tb.
  induction rounds as [|rounds IH];
    intros stack uniqMap ids buf roots tb Hcons Huniq Hnodup Hbuf Hroots Hrun; [done|].
  destruct stack as [|id0 stack]; simpl in Hrun.
  { simplify_eq. exists ids. do 4 (split; [done|]).
    split; [intros id0 ch Hin; by apply elem_of_nil in Hin|].
    split; [done|]. split; [by left|done]. }
  case_decide as Hseen.
  { destruct (IH _ _ _ _ _ _ Hcons Huniq Hnodup Hbuf Hroots Hrun)
      as (ids' & Hpre & Hnodup' & Hbuf' & Hroots' & Hstack & Hclosed & Hsound & Hrest).
    exists ids'. repeat (split; [done|]). split; [|split; [done|]; split; [|done]].
    - intros x ch [->|Hin]%elem_of_cons Hx; [|by eapply Hstack].
      eapply elem_of_prefix; [|done]. by apply Huniq.
    - intros x Hx. destruct (Hsound x Hx) as [?|?]; [by left|].
      right. by apply reaches_pop. }
  destruct (loadChange id0 tb) as [r tb1] eqn:Hload.
  apply loadChange_spec in Hload as (Hcons1 & Htree1 & Hcache1 & Hr); [|done].
  destruct (load id0) as [[ch|]|] eqn:Hid.
  - destruct (cache tb) eqn:Hc; subst r; [|done].
    assert (id0 ∉ ids) as Hnew by (by rewrite <- Huniq).
    assert (forall x, x ∈ {[id0]} ∪ uniqMap <-> x ∈ (ids ++ [id0])%list) as Huniq1.
    { intros x. rewrite elem_of_union, elem_of_singleton, elem_of_app,
        list_elem_of_singleton, Huniq. naive_solver. }
    assert (NoDup (ids ++ [id0])%list) as Hnodup1.
    { apply NoDup_app. split; [done|]. split; [|apply NoDup_singleton].
      intros x Hx ->%list_elem_of_singleton. done. }
    assert (Forall2 loadable (ids ++ [id0])%list (buf ++ [ch])%list) as Hbuf1.
    { apply Forall2_app; [done|]. by constructor. }
    assert ((if decide (PreviousIds ch = []) then (roots ++ [ch])%list else roots)
            = filter noParents (buf ++ [ch])%list) as Hroots1.
    { rewrite filter_app, Hroots. case_decide.
      - by rewrite (filter_cons_True noParents).
      - rewrite (filter_cons_False noParents) by done. by rewrite filter_nil, app_nil_r. }
    destruct (IH _ _ _ _ _ _ Hcons1 Huniq1 Hnodup1 Hbuf1 Hroots1 Hrun)
      as (ids' & Hpre & Hnodup' & Hbuf' & Hroots' & Hstack & Hclosed & Hsound
          & Hcons' & Htree' & Hcache').
    assert (id0 ∈ ids') as Hid0.
    { eapply elem_of_prefix; [|done]. apply elem_of_app. right. apply list_elem_of_here. }
    exists ids'. split; [by eapply prefix_app_l|]. repeat (split; [done|]).
    split; [|split; [|split; [|split; [done|split; [congruence|by rewrite Hcache']]]]].
    + intros x c [->|Hin]%elem_of_cons Hx; [done|].
      eapply Hstack; [|done]. apply elem_of_app. by right.
    + intros x c prev c' Hx Hxnew Hc0 Hprev Hprev'.
      destruct (decide (x = id0)) as [->|Hne].
      * unfold loadable in Hc0. rewrite Hid in Hc0. simplify_eq.
        eapply Hstack; [|done]. apply elem_of_app. left. by rewrite elem_of_reverse.
      * eapply Hclosed; try done.
        intros [?|?%list_elem_of_singleton]%elem_of_app; done.
    + intros x Hx. destruct (Hsound x Hx) as [Hin|Hreach].
      * apply elem_of_app in Hin as [?|Hin]; [by left|].
        apply list_elem_of_singleton in Hin as ->.
        right. apply reaches_head, list_elem_of_here.
      * right. by eapply reaches_push.
  - destruct (cache tb); by subst r.
  - destruct Hr as [e ->].
    destruct (IH _ _ _ _ _ _ Hcons1 Huniq Hnodup Hbuf Hroots Hrun)
      as (ids' & Hpre & Hnodup' & Hbuf' & Hroots' & Hstack & Hclosed & Hsound
          & Hcons' & Htree' & Hcache').
    exists ids'. repeat (split; [done|]).
    split; [|split; [done|]; split; [|split; [done|split; [congruence|by rewrite Hcache']]]].
    + intros x ch [->|Hin]%elem_of_cons Hx; [|by eapply Hstack].
      unfold loadable in Hx. congruence.
    + intros x Hx. destruct (Hsound x Hx) as [?|?]; [by left|].
      right. by apply reaches_pop.
Qed.

(** What [dfsFromStart] returns, when it returns. *)
Lemma dfsFromStart_returned (rounds : nat) (heads : list string) (tb tb' : ACLTreeBuilder)
    (buf possibleRoots : list Change) :
  consistent tb ->
  dfsFromStart rounds heads tb = Some (Returned (buf, possibleRoots), tb') ->
  exists ids,
    NoDup ids /\ Forall2 loadable ids buf /\
    (forall id0, id0 ∈ ids <-> reaches heads id0 /\ exists ch, loadable id0 ch) /\
    possibleRoots = filter noParents buf /\
    tree tb' = tree tb /\ consistent tb' /\
    (is_Some (cache tb') <-> is_Some (cache tb)).
Proof.
  intros Hcons Hrun. unfold dfsFromStart in Hrun.
  assert (forall x : string, x ∈ (∅ : gset string) <-> x ∈ ([] : list string)) as Huniq.
  { intros x. by rewrite elem_of_empty, elem_of_nil. }
  destruct (dfs_collects _ _ _ [] _ _ _ _ _ _ Hcons Huniq NoDup_nil_2
              (List.Forall2_nil _) eq_refl Hrun)
    as (ids & _ & Hnodup & Hbuf & Hroots & Hstack & Hclosed & Hsound
        & Hcons' & Htree & Hcache).
  exists ids. do 2 (split; [done|]). split; [|done].
  assert (forall x, reaches (reverse heads) x <-> reaches heads x) as Hrev.
  { intros x. split; induction 1 as [y Hin|y c prev _ IH Hc Hprev];
      try (by eapply reaches_parent); apply reaches_head;
      [by rewrite elem_of_reverse in Hin|by rewrite elem_of_reverse]. }
  intros x. split.
  - intros Hx. split.
    + destruct (Hsound x Hx) as [Hin|Hreach]; [by apply elem_of_nil in Hin|].
      by apply Hrev.
    + destruct (list_elem_of_lookup_1 _ _ Hx) as [i Hi].
      destruct (Forall2_lookup_l _ _ _ _ _ Hbuf Hi) as (ch & _ & Hch). eauto.
  - intros [Hreach [ch Hch]]. revert ch Hch.
    induction Hreach as [y Hin|y c prev Hreach IH Hc Hprev]; intros ch Hch.
    + eapply Hstack; [|done]. by rewrite elem_of_reverse.
    + eapply (Hclosed y c prev ch); try done; [by eapply IH|].
      intros Hin. by apply elem_of_nil in Hin.
Qed.

(** [dfsFromStart] on a thread with finitely many changes: with rounds
    enough for every head and every parent link the loop ends, and when it
    returns it has collected, once each and each with the change that
    [load] gives, the ids that load and can be got to from the heads
    through changes that load; the possible roots are the collected
    changes without parents, in the order of collection. Nothing is
    reported for an id that does not load. *)
Theorem dfsFromStart_collects (known : gset string) (rounds : nat) (heads : list string)
    (tb : ACLTreeBuilder) :
  consistent tb ->
  (forall id0 ch, loadable id0 ch -> id0 ∈ known) ->
  (length heads + weight known < rounds)%nat ->
  exists out tb',
    dfsFromStart rounds heads tb = Some (out, tb') /\
    match out with
    | Panicked => True
    | Returned (buf, possibleRoots) =>
        exists ids,
          NoDup ids /\ Forall2 loadable ids buf /\
          (forall id0, id0 ∈ ids <-> reaches heads id0 /\ exists ch, loadable id0 ch) /\
          possibleRoots = filter noParents buf /\
          tree tb' = tree tb
    end.
Proof.
  intros Hcons Hknown Hrounds.
  destruct (dfs_rounds known rounds (reverse heads) ∅ [] [] tb Hcons Hknown)
    as [[out tb'] Hrun].
  { rewrite length_reverse, difference_empty_L. lia. }
  exists out, tb'. split; [done|]. destruct out as [[buf roots]|]; [|done].
  destruct (dfsFromStart_returned _ _ _ _ _ _ Hcons Hrun)
    as (ids & Hnodup & Hbuf & Hids & Hroots & Htree & _).
  by exists ids.
Qed.

(** ** [Build] *)

Lemma find_split {A} (f : A -> bool) (l : list A) (x : A) :
  List.find f l = Some x ->
  exists before after,
    l = (before ++ x :: after)%list /\ Forall (fun y => f y = false) before /\ f x = true.
Proof.
  induction l as [|y l IH]; simpl; [done|]. destruct (f y) eqn:Hy.
  - intros [= ->]. exists [], l. by repeat split.
  - intros Hfind. destruct (IH Hfind) as (before & after & -> & Hbefore & Hx).
    exists (y :: before), after. repeat split; [|done]. by constructor.
Qed.

(** A tree that [Build] returns: the changes that load and can be got to
    from the heads, each once, in the order of the search, after the
    changes the tree held and after the root, which is the first of the
    changes without parents whose author's key vouches for the thread id.
    The root is thus handed to the tree twice. The cache is the nil map
    afterwards. *)
Theorem Build_tree (rounds : nat) (tb tb' : ACLTreeBuilder) (t : list Change) :
  consistent tb ->
  Build rounds tb = Some (Returned (Some t, None), tb') ->
  exists ids buf root threadId before after,
    NoDup ids /\ Forall2 loadable ids buf /\
    (forall id0, id0 ∈ ids <-> reaches Heads id0 /\ exists ch, loadable id0 ch) /\
    Decode ID = inr threadId /\
    filter noParents buf = (before ++ root :: after)%list /\
    Forall (fun r => isRoot threadId r = false) before /\
    isRoot threadId root = true /\
    t = (tree tb ++ root :: buf)%list /\
    tree tb' = t /\ cache tb' = None.
Proof.
  intros Hcons Hrun. unfold Build, buildTreeFromStart in Hrun.
  destruct (dfsFromStart rounds Heads tb) as [[[[buf roots]|] tb1]|] eqn:Hdfs;
    [|done|done].
  destruct (dfsFromStart_returned _ _ _ _ _ _ Hcons Hdfs)
    as (ids & Hnodup & Hbuf & Hids & Hroots & Htree & _).
  case_decide; [done|]. unfold getRoot in Hrun.
  destruct (Decode ID) as [e|threadId] eqn:Hdecode; [done|].
  destruct (List.find (isRoot threadId) roots) as [root|] eqn:Hfind; [|done].
  apply find_split in Hfind as (before & after & Hsplit & Hbefore & Hroot).
  simplify_eq. exists ids, buf, root, threadId, before, after.
  simpl. rewrite Htree. repeat (split; [done|]). done.
Qed.

Lemma loadChange_nil (id0 : string) (tb tb1 : ACLTreeBuilder)
    (r : outcome (option Change * option Error)) :
  cache tb = None ->
  loadChange id0 tb = (r, tb1) ->
  cache tb1 = None /\ (r = Panicked \/ exists e, r = Returned (None, Some e)).
Proof.
  intros Hnil Hrun. unfold loadChange in Hrun. rewrite Hnil in Hrun. simpl in Hrun.
  destruct (GetChange id0) as [e|change]; [injection Hrun as <- <-; eauto|].
  destruct (Unmarshal (Payload change)) as [e|aclChange]; [injection Hrun as <- <-; eauto|].
  destruct (verify _ _ _ tb) as [v tb2] eqn:Hverify.
  assert (cache tb2 = None) as Hnil2.
  { unfold verify in Hverify.
    destruct (identityKeys tb !! Identity aclChange); [by injection Hverify as _ <-|].
    destruct (DecodeFromString (Identity aclChange)); by injection Hverify as _ <-. }
  rewrite Hnil2 in Hrun.
  destruct v as [e|[]]; injection Hrun as <- <-; eauto.
Qed.

Lemma dfs_nil (rounds : nat) (stack : list string) (uniqMap : gset string)
    (buf roots : list Change) (tb : ACLTreeBuilder) :
  cache tb = None -> (length stack < rounds)%nat ->
  exists tb1,
    dfs rounds stack uniqMap buf roots tb = Some (Panicked, tb1) \/
    dfs rounds stack uniqMap buf roots tb = Some (Returned (buf, roots), tb1).
Proof.
  revert stack tb. induction rounds as [|rounds IH]; intros stack tb Hnil Hlt; [lia|].
  destruct stack as [|id0 stack]; simpl; [eauto|]. simpl in Hlt.
  case_decide; [apply IH; [done|lia]|].
  destruct (loadChange id0 tb) as [r tb1] eqn:Hload.
  apply loadChange_nil in Hload as (Hnil1 & Hr); [|done].
  destruct Hr as [->|[e ->]]; [eauto|]. apply IH; [done|lia].
Qed.

(** A builder builds once: [Build] leaves the nil map for a cache, and a
    second [Build] on it panics as soon as a change loads, or else finds
    no root. It never returns a tree. *)
Theorem Build_once (rounds rounds' : nat) (tb tb' : ACLTreeBuilder) (t : list Change) :
  Build rounds tb = Some (Returned (Some t, None), tb') ->
  (length Heads < rounds')%nat ->
  exists tb'',
    Build rounds' tb' = Some (Panicked, tb'') \/
    Build rounds' tb' = Some (Returned (None, Some (ErrBuildTree ErrNoRoot)), tb'').
Proof.
  intros Hrun Hrounds.
  assert (cache tb' = None) as Hnil.
  { unfold Build in Hrun. repeat case_match; by simplify_eq. }
  unfold Build, buildTreeFromStart, dfsFromStart.
  destruct (dfs_nil rounds' (reverse Heads) ∅ [] [] tb' Hnil) as [tb1 [->| ->]];
    [by rewrite length_reverse|eauto..].
Qed.

End Properties.


(** ** A scenario

    A thread of five stored changes: the root [r] by [alice], [a] and [b]
    on top of it, [m] merging them and naming a parent [lost] that the
    thread does not hold, and [forged], whose signature does not verify.
    A stored change is its parents, its author and whether its signature
    is good; its payload is its id. *)
Definition demoStore : gmap string (list string * string * bool) :=
  {[ "r" := ([], "alice", true);
     "a" := (["r"], "alice", true);
     "b" := (["r"], "bob", true);
     "m" := (["a"; "b"; "lost"], "alice", true);
     "forged" := (["r"], "eve", false) ]}.

Definition stored (id0 : string) : option (list string * string * bool) :=
  demoStore !! id0.

Definition demoThread : Thread := {|
  ID := "thread-alice";
  Heads := ["m"; "forged"];
  GetChange id0 :=
    match stored id0 with
    | Some (_, who, good) => inr (mkRaw id0 (if good then "signed:" ++ who else "scribble"))
    | None => inl (ErrCollaborator "no such change")
    end;
  Unmarshal payload :=
    match stored payload with
    | Some (_, who, _) => inr (mkACLChange who payload)
    | None => inl (ErrCollaborator "cannot unmarshal")
    end;
  DecodeFromString identity0 := inr identity0;
  Verify key payload signature := inr (bool_decide (signature = "signed:" ++ key));
  NewACLChange id0 aclChange :=
    Some (mkChange id0 (default [] ((fun e => e.1.1) <$> stored id0)) aclChange);
  Decode threadId := inr threadId;
  VerifyACLThreadID key threadId := inr (bool_decide (threadId = "thread-" ++ key))
|}.

Definition demoChange (id0 : string) (previousIds : list string) (who : string) : Change :=
  mkChange id0 previousIds (mkACLChange who id0).

Lemma demoThread_known (id0 : string) (ch : Change) :
  @loadable demoThread id0 ch -> id0 ∈ dom demoStore.
Proof.
  unfold loadable, load. simpl. unfold stored. intros Hload. apply elem_of_dom.
  destruct (demoStore !! id0) as [[[? ?] ?]|]; [eauto|done].
Qed.

Lemma dfsFromStart_collects_witness :
  exists tb',
    @dfsFromStart demoThread 10 ["m"; "forged"] NewACLTreeBuilder
      = Some (Returned ([demoChange "m" ["a"; "b"; "lost"] "alice";
                         demoChange "b" ["r"] "bob";
                         demoChange "r" [] "alice";
                         demoChange "a" ["r"] "alice"],
                        [demoChange "r" [] "alice"]), tb').
Proof.
  assert (length ["m"; "forged"] + @weight demoThread (dom demoStore) < 10)%nat as Hrounds.
  { assert (@weight demoThread (dom demoStore) = 5%nat) as -> by (vm_compute; reflexivity).
    simpl. lia. }
  destruct (@dfsFromStart_collects demoThread (dom demoStore) 10 ["m"; "forged"]
              NewACLTreeBuilder (@NewACLTreeBuilder_consistent demoThread)
              demoThread_known Hrounds) as (out & tb' & Hrun & _).
  exists tb'. rewrite Hrun. vm_compute in Hrun. injection Hrun as <- _.
  reflexivity.
Defined.

(** The tree of the scenario: the root first, then the search order, in
    which the root comes again. *)
Definition demoBuild :
    option (outcome (option (list Change) * option Error) * ACLTreeBuilder) :=
  @Build demoThread 10 NewACLTreeBuilder.

Definition demoBuilt : ACLTreeBuilder :=
  match demoBuild with
  | Some (_, tb') => tb'
  | None => NewACLTreeBuilder
  end.

Definition demoTree : list Change :=
  [demoChange "r" [] "alice";
   demoChange "m" ["a"; "b"; "lost"] "alice";
   demoChange "b" ["r"] "bob";
   demoChange "r" [] "alice";
   demoChange "a" ["r"] "alice"].

Lemma Build_tree_witness :
  demoBuild = Some (Returned (Some demoTree, None), demoBuilt) /\
  exists root buf, demoTree = root :: buf /\ root ∈ buf /\ cache demoBuilt = None.
Proof.
  assert (demoBuild = Some (Returned (Some demoTree, None), demoBuilt)) as Hrun
    by (vm_compute; reflexivity).
  split; [exact Hrun|].
  destruct (@Build_tree demoThread 10 NewACLTreeBuilder demoBuilt demoTree
              (@NewACLTreeBuilder_consistent demoThread) Hrun)
    as (ids & buf & root & threadId & before & after & _ & _ & _ & _ & Hroots & _ & _
        & Htree & _ & Hnil).
  exists root, buf. split; [exact Htree|]. split; [|exact Hnil].
  assert (root ∈ filter (@noParents) buf) as Hin.
  { rewrite Hroots. apply elem_of_app. right. apply list_elem_of_here. }
  by apply list_elem_of_filter in Hin as [_ ?].
Defined.

Lemma Build_once_witness :
  demoBuild = Some (Returned (Some demoTree, None), demoBuilt) /\
  @Build demoThread 10 demoBuilt = Some (Panicked, demoBuilt).
Proof.
  assert (demoBuild = Some (Returned (Some demoTree, None), demoBuilt)) as Hrun
    by (vm_compute; reflexivity).
  split; [exact Hrun|].
  assert (length (@Heads demoThread) < 10)%nat as Hrounds by (simpl; lia).
  destruct (@Build_once demoThread 10 10 NewACLTreeBuilder demoBuilt demoTree Hrun Hrounds)
    as [tb'' [Hagain|Hagain]]; vm_compute in Hagain; [|discriminate Hagain].
  vm_compute. reflexivity.
Defined.


End TreeBuilder.

(* ===================================================================== *)
(** * The space service (nodespace/service.go) *)
(* ===================================================================== *)

Module NodeSpace.

(** Errors: the two the file declares, those of collaborators, and the
    value of [errors.Join], which keeps the non-nil errors it is given. *)
#[warnings="-register-all"]
Inductive Error :=
| ErrDoesntSupportStats
| ErrSpaceStorageIsLocked
| ErrOther (msg : string)
| ErrJoined (errs : list Error).

(** [errors.Join(err, closeErr)]: nil arguments are dropped, and the
    result is nil when none is left. *)
Definition Join (errs : list (option Error)) : option Error :=
  match omap (fun e => e) errs with
  | [] => None
  | kept => Some (ErrJoined kept)
  end.

(** [errors.Is], as far as one level of joining goes. *)
Definition Is (err : option Error) (target : Error) : Prop :=
  err = Some target \/ exists errs, err = Some (ErrJoined errs) /\ target ∈ errs.

(** [Avg] and [Median] are [float64]; [GetStats] leaves them at zero. *)
Record ChangeSizeStats := mkChangeSize { MaxLen : Z; P95 : Z; Avg : Z; Median : Z }.

Record SpaceStats := mkStats { DocsCount : Z; ChangeSize : ChangeSizeStats }.

Definition zeroStats : SpaceStats := mkStats 0 (mkChangeSize 0 0 0 0).

(** The cache behind [GetSpace] and the space it hands out. [StorageStats]
    is [None] for a storage that does not implement [spaceStorageStats],
    and the answer of [GetMaxChangeLen] otherwise. *)
Class Spaces (Space : Type) := {
  GetSpace : string -> Error + Space;
  Close : Space -> option Error;
  StorageStats : Space -> option (Error + Z)
}.

Section Service.
Context {Space : Type} `{Spaces Space}.

(** The body of [GetStats], up to its [return]: the named results. *)
Definition GetStatsBody (space : Space) : SpaceStats * option Error :=
  match StorageStats space with
  | Some (inl e) => (zeroStats, Some e)
  | Some (inr maxLen) => (mkStats 0 (mkChangeSize maxLen 0 0 0), None)
  | None => (zeroStats, Some ErrDoesntSupportStats)
  end.

(** [GetStats]. The deferred function runs on every return and closes the
    space when [GetSpace] gave one; a failing [Close] is joined to the
    error the body has set, and the stats the body has set are returned
    as they are. The third component lists the spaces closed. *)
Definition GetStats (id0 : string) : SpaceStats * option Error * list Space :=
  match GetSpace id0 with
  | inl getSpaceErr => (zeroStats, Some getSpaceErr, [])
  | inr space =>
      let '(spaceStats, err) := GetStatsBody space in
      match Close space with
      | Some closeErr => (spaceStats, Join [err; Some closeErr], [space])
      | None => (spaceStats, err, [space])
      end
  end.

(** [GetStats] closes the space it opened, once, however it returns, and
    closes nothing when [GetSpace] failed. It returns no error exactly
    when the space opened, its storage gave the maximal change length and
    the space closed, and the stats then hold that length and nothing
    else. An error of [Close] never replaces what went before: the error
    of an earlier step is still found in the returned one, and the length
    that was read is still in the returned stats. *)
Theorem GetStats_closes (id0 : string) :
  let '(spaceStats, err, closed) := GetStats id0 in
  closed = match GetSpace id0 with inr space => [space] | inl _ => [] end /\
  (err = None <->
   exists space maxLen,
     GetSpace id0 = inr space /\ StorageStats space = Some (inr maxLen) /\
     Close space = None /\
     spaceStats = mkStats 0 (mkChangeSize maxLen 0 0 0)) /\
  (forall space closeErr,
     GetSpace id0 = inr space -> Close space = Some closeErr ->
     Is err closeErr /\
     spaceStats = (GetStatsBody space).1 /\
     forall e, (GetStatsBody space).2 = Some e -> Is err e).
Proof.
  unfold GetStats. destruct (GetSpace id0) as [getSpaceErr|space] eqn:Hget.
  { split; [done|]. split; [|done]. split; [done|]. by intros (? & ? & ? & _). }
  destruct (GetStatsBody space) as [spaceStats err] eqn:Hbody.
  destruct (Close space) as [closeErr|] eqn:Hclose.
  - split; [done|]. split.
    + split.
      * unfold Join. by destruct err.
      * intros (space' & maxLen & [= <-] & _ & Hnone & _). congruence.
    + intros space' closeErr' [= <-] Hclose'. rewrite Hclose in Hclose'.
      injection Hclose' as <-. rewrite Hbody. simpl.
      split; [|split; [done|]].
      * right. destruct err as [e|]; eexists; (split; [done|]).
        -- apply list_elem_of_further, list_elem_of_here.
        -- apply list_elem_of_here.
      * intros e ->. right. eexists. split; [done|]. apply list_elem_of_here.
  - split; [done|]. split.
    + unfold GetStatsBody in Hbody. split.
      * intros ->. destruct (StorageStats space) as [[e|maxLen]|] eqn:Hstats;
          simplify_eq. by exists space, maxLen.
      * intros (space' & maxLen & [= <-] & Hstats & _ & ->).
        rewrite Hstats in Hbody. by simplify_eq.
    + intros space' closeErr' [= <-] Hclose'. congruence.
Qed.

End Service.

End NodeSpace.
